(** * video_lib: library synchronisation, preview cache, edit history

    A shallow embedding of the TypeScript sources of the library manager
    (App.tsx: [scrubCache], [scanFiles], [handleUpdateVideo], [handleUndo],
    [handleRedo], [handleRegenerateThumbnails], [handleImportPlaylist];
    dbService.ts: [upsertVideo], [batchUpdateVideos], [applyVideoDefaults])
    together with the properties the design document states about them,
    and of the code around them (App.tsx: [handleFilesSelected],
    [processInBackground], the library maintenance handlers, status filters,
    pages and playlist; HeaderPagination.tsx, Pagination.tsx, PlayerView.tsx,
    VideoCard.tsx, transcodeService.ts) with properties read off the code.

    Conventions of the embedding:
    - a JS [Map] is an association list in insertion order (the order is what
      the LRU trick of [scrubCache] relies on);
    - an IndexedDB object store with a key path is a [gmap] from the key to the
      stored object;
    - React state is a record that every handler takes and returns;
    - platform capabilities ([crypto.randomUUID], [Date.now], [JSON.parse],
      [videoService.generateThumbnail]) are parameters of the functions that
      call them. *)

From Stdlib Require Import ZArith QArith Qcanon Qround List Sorted Bool Ascii String Lia.
From stdpp Require Import base decidable option list strings numbers pretty gmap.

Import ListNotations.
Local Open Scope string_scope.
Local Open Scope Z_scope.

(** ** JavaScript [Map]: insertion-ordered association list *)

Module JsMap.
Section JsMap.
Context {V : Type}.

Definition t := list (string * V).

Definition empty : t := [].

Definition size (m : t) : nat := length m.

Definition keys (m : t) : list string := map fst m.

Fixpoint get (k : string) (m : t) : option V :=
  match m with
  | [] => None
  | (k', v) :: m' => if String.eqb k' k then Some v else get k m'
  end.

Definition has (k : string) (m : t) : bool :=
  match get k m with Some _ => true | None => false end.

(** [Map.prototype.delete]: removes the entry, the others keep their order. *)
Fixpoint delete (k : string) (m : t) : t :=
  match m with
  | [] => []
  | (k', v) :: m' => if String.eqb k' k then m' else (k', v) :: delete k m'
  end.

(** [Map.prototype.set]: an existing key keeps its position and gets the new
    value; a new key is appended. *)
Fixpoint set (k : string) (v : V) (m : t) : t :=
  match m with
  | [] => [(k, v)]
  | (k', v') :: m' =>
      if String.eqb k' k then (k', v) :: m' else (k', v') :: set k v m'
  end.

(** [m.keys().next().value]: the first key in insertion order, [undefined]
    (here [None]) on an empty map. *)
Definition first_key (m : t) : option string :=
  match m with
  | [] => None
  | (k, _) :: _ => Some k
  end.

(** [new Map(pairs)]: the pairs are set one after the other. *)
Definition of_list (pairs : list (string * V)) : t :=
  fold_left (fun m kv => set (fst kv) (snd kv) m) pairs empty.
End JsMap.
Arguments t : clear implicits.
End JsMap.

(** ** [scrubCache]: the LRU cache of timeline thumbnails (App.tsx) *)

Module scrubCache.

Definition cache := JsMap.t (list string).

Definition maxSize : nat := 150.

(** [get]: on a hit the entry is deleted and set again, which moves it to
    the end of the insertion order. A cached value is an array, which is
    truthy even when empty, so the test [if (item)] is the presence test. *)
Definition get (key : string) (c : cache) : option (list string) * cache :=
  match JsMap.get key c with
  | Some item => (Some item, JsMap.set key item (JsMap.delete key c))
  | None => (None, c)
  end.

(** [set] first makes room: when the cache holds [maxSize] entries or more,
    the first key of the Map is deleted; then the value is written. [evicted]
    names the key that [evict] deletes. *)
Definition evicted (c : cache) : option string :=
  if (maxSize <=? JsMap.size c)%nat then JsMap.first_key c else None.

Definition evict (c : cache) : cache :=
  if (maxSize <=? JsMap.size c)%nat then
    match JsMap.first_key c with
    | Some oldestKey => JsMap.delete oldestKey c
    | None => c
    end
  else c.

Definition set (key : string) (value : list string) (c : cache) : cache :=
  JsMap.set key value (evict c).

Definition delete (key : string) (c : cache) : cache := JsMap.delete key c.

Definition clear (c : cache) : cache := JsMap.empty.

(** The calls a client can make, and a run of them from the empty cache the
    [useMemo] initialiser creates. *)
Inductive op :=
| Get (key : string)
| Set_ (key : string) (value : list string)
| Delete (key : string)
| Clear.

Definition step (c : cache) (o : op) : cache :=
  match o with
  | Get k => snd (get k c)
  | Set_ k v => set k v c
  | Delete k => delete k c
  | Clear => clear c
  end.

Definition run (ops : list op) : cache := fold_left step ops JsMap.empty.

(** *** Recency bookkeeping, stated independently of the order of the Map

    [lastAccess k] is the index of the latest call that accessed [k]: a
    [get] that hit it, or a [set] that created its entry. [insertedAt k] is
    the index of the latest call that created the entry of [k]. A [set]
    that overwrites the value of a present key changes neither. *)
Record history := {
  clock : nat;
  lastAccess : string -> nat;
  insertedAt : string -> nat;
  contents : cache;
}.

Definition upd (f : string -> nat) (k : string) (n : nat) : string -> nat :=
  fun k' => if String.eqb k k' then n else f k'.

(** [set key] creates an entry (rather than overwriting one) when [key] is
    absent once room has been made. *)
Definition creates (key : string) (c : cache) : bool :=
  negb (JsMap.has key (evict c)).

Definition hstep (h : history) (o : op) : history :=
  let c := contents h in
  let n := S (clock h) in
  match o with
  | Get k =>
      {| clock := n;
         lastAccess := if JsMap.has k c then upd (lastAccess h) k n else lastAccess h;
         insertedAt := insertedAt h;
         contents := step c o |}
  | Set_ k _ =>
      {| clock := n;
         lastAccess := if creates k c then upd (lastAccess h) k n else lastAccess h;
         insertedAt := if creates k c then upd (insertedAt h) k n else insertedAt h;
         contents := step c o |}
  | _ =>
      {| clock := n; lastAccess := lastAccess h; insertedAt := insertedAt h;
         contents := step c o |}
  end.

Definition hinit : history :=
  {| clock := 0%nat; lastAccess := fun _ => 0%nat; insertedAt := fun _ => 0%nat;
     contents := JsMap.empty |}.

Definition hrun (ops : list op) : history := fold_left hstep ops hinit.

(** The keys of a list carry strictly increasing stamps. *)
Fixpoint ascending (f : string -> nat) (l : list string) : Prop :=
  match l with
  | [] => True
  | k :: l' => Forall (fun k' => (f k < f k')%nat) l' /\ ascending f l'
  end.

(** The invariant of every run: a Map has no key twice, the Map order is the
    order of last access, and the cache holds at most [maxSize] entries. *)
Record inv (h : history) : Prop := {
  inv_NoDup : NoDup (JsMap.keys (contents h));
  inv_ascending : ascending (lastAccess h) (JsMap.keys (contents h));
  inv_clock : Forall (fun k => (lastAccess h k <= clock h)%nat) (JsMap.keys (contents h));
  inv_size : (JsMap.size (contents h) <= maxSize)%nat;
}.

(** [fill n] caches an empty strip under each of the keys "0", ..., "n-1". *)
Definition fill (n : nat) : list op :=
  map (fun i => Set_ (pretty i) []) (seq 0 n).

End scrubCache.

(** ** Data model (types.ts) *)

(** JS numbers that hold counts, byte sizes and millisecond timestamps are
    integers; playback positions and durations are seconds and may be
    fractional, so they are rationals. An optional field that is [undefined]
    (or absent) is [None]; an optional flag that is absent reads as [false],
    which is what every use of the flags in the sources does. *)
Record VideoData := {
  id : string;
  relativePath : string;
  thumbnail : option string;
  description : string;
  rating : Z;
  seen : bool;
  tags : list string;
  fileSize : Z;
  duration : option Qc;
  lastModified : Z;
  isPlayable : bool;
  timesOpened : Z;
  dateAdded : Z;
  hearted : bool;
  hidden : bool;
  deleted : bool;
  title : option string;
  contentHash : option string;
  currentTime : option Qc;
  notFound : bool;
}.

Global Instance VideoData_eq_dec : EqDecision VideoData.
Proof. solve_decision. Defined.

(** Object spreads [{ ...v, field: x }] for the fields the handlers set. *)
Definition with_thumbnail (x : option string) (v : VideoData) : VideoData :=
  {| id := id v; relativePath := relativePath v; thumbnail := x;
     description := description v; rating := rating v; seen := seen v;
     tags := tags v; fileSize := fileSize v; duration := duration v;
     lastModified := lastModified v; isPlayable := isPlayable v;
     timesOpened := timesOpened v; dateAdded := dateAdded v;
     hearted := hearted v; hidden := hidden v; deleted := deleted v;
     title := title v; contentHash := contentHash v;
     currentTime := currentTime v; notFound := notFound v |}.

Definition with_description (x : string) (v : VideoData) : VideoData :=
  {| id := id v; relativePath := relativePath v; thumbnail := thumbnail v;
     description := x; rating := rating v; seen := seen v;
     tags := tags v; fileSize := fileSize v; duration := duration v;
     lastModified := lastModified v; isPlayable := isPlayable v;
     timesOpened := timesOpened v; dateAdded := dateAdded v;
     hearted := hearted v; hidden := hidden v; deleted := deleted v;
     title := title v; contentHash := contentHash v;
     currentTime := currentTime v; notFound := notFound v |}.

Definition with_seen (x : bool) (v : VideoData) : VideoData :=
  {| id := id v; relativePath := relativePath v; thumbnail := thumbnail v;
     description := description v; rating := rating v; seen := x;
     tags := tags v; fileSize := fileSize v; duration := duration v;
     lastModified := lastModified v; isPlayable := isPlayable v;
     timesOpened := timesOpened v; dateAdded := dateAdded v;
     hearted := hearted v; hidden := hidden v; deleted := deleted v;
     title := title v; contentHash := contentHash v;
     currentTime := currentTime v; notFound := notFound v |}.

Definition with_duration (x : option Qc) (v : VideoData) : VideoData :=
  {| id := id v; relativePath := relativePath v; thumbnail := thumbnail v;
     description := description v; rating := rating v; seen := seen v;
     tags := tags v; fileSize := fileSize v; duration := x;
     lastModified := lastModified v; isPlayable := isPlayable v;
     timesOpened := timesOpened v; dateAdded := dateAdded v;
     hearted := hearted v; hidden := hidden v; deleted := deleted v;
     title := title v; contentHash := contentHash v;
     currentTime := currentTime v; notFound := notFound v |}.

Definition with_isPlayable (x : bool) (v : VideoData) : VideoData :=
  {| id := id v; relativePath := relativePath v; thumbnail := thumbnail v;
     description := description v; rating := rating v; seen := seen v;
     tags := tags v; fileSize := fileSize v; duration := duration v;
     lastModified := lastModified v; isPlayable := x;
     timesOpened := timesOpened v; dateAdded := dateAdded v;
     hearted := hearted v; hidden := hidden v; deleted := deleted v;
     title := title v; contentHash := contentHash v;
     currentTime := currentTime v; notFound := notFound v |}.

Definition with_dateAdded (x : Z) (v : VideoData) : VideoData :=
  {| id := id v; relativePath := relativePath v; thumbnail := thumbnail v;
     description := description v; rating := rating v; seen := seen v;
     tags := tags v; fileSize := fileSize v; duration := duration v;
     lastModified := lastModified v; isPlayable := isPlayable v;
     timesOpened := timesOpened v; dateAdded := x;
     hearted := hearted v; hidden := hidden v; deleted := deleted v;
     title := title v; contentHash := contentHash v;
     currentTime := currentTime v; notFound := notFound v |}.

Definition with_contentHash (x : option string) (v : VideoData) : VideoData :=
  {| id := id v; relativePath := relativePath v; thumbnail := thumbnail v;
     description := description v; rating := rating v; seen := seen v;
     tags := tags v; fileSize := fileSize v; duration := duration v;
     lastModified := lastModified v; isPlayable := isPlayable v;
     timesOpened := timesOpened v; dateAdded := dateAdded v;
     hearted := hearted v; hidden := hidden v; deleted := deleted v;
     title := title v; contentHash := x;
     currentTime := currentTime v; notFound := notFound v |}.

Definition with_notFound (x : bool) (v : VideoData) : VideoData :=
  {| id := id v; relativePath := relativePath v; thumbnail := thumbnail v;
     description := description v; rating := rating v; seen := seen v;
     tags := tags v; fileSize := fileSize v; duration := duration v;
     lastModified := lastModified v; isPlayable := isPlayable v;
     timesOpened := timesOpened v; dateAdded := dateAdded v;
     hearted := hearted v; hidden := hidden v; deleted := deleted v;
     title := title v; contentHash := contentHash v;
     currentTime := currentTime v; notFound := x |}.

Definition with_rating (x : Z) (v : VideoData) : VideoData :=
  {| id := id v; relativePath := relativePath v; thumbnail := thumbnail v;
     description := description v; rating := x; seen := seen v;
     tags := tags v; fileSize := fileSize v; duration := duration v;
     lastModified := lastModified v; isPlayable := isPlayable v;
     timesOpened := timesOpened v; dateAdded := dateAdded v;
     hearted := hearted v; hidden := hidden v; deleted := deleted v;
     title := title v; contentHash := contentHash v;
     currentTime := currentTime v; notFound := notFound v |}.

Definition with_tags (x : list string) (v : VideoData) : VideoData :=
  {| id := id v; relativePath := relativePath v; thumbnail := thumbnail v;
     description := description v; rating := rating v; seen := seen v;
     tags := x; fileSize := fileSize v; duration := duration v;
     lastModified := lastModified v; isPlayable := isPlayable v;
     timesOpened := timesOpened v; dateAdded := dateAdded v;
     hearted := hearted v; hidden := hidden v; deleted := deleted v;
     title := title v; contentHash := contentHash v;
     currentTime := currentTime v; notFound := notFound v |}.

Definition with_hearted (x : bool) (v : VideoData) : VideoData :=
  {| id := id v; relativePath := relativePath v; thumbnail := thumbnail v;
     description := description v; rating := rating v; seen := seen v;
     tags := tags v; fileSize := fileSize v; duration := duration v;
     lastModified := lastModified v; isPlayable := isPlayable v;
     timesOpened := timesOpened v; dateAdded := dateAdded v;
     hearted := x; hidden := hidden v; deleted := deleted v;
     title := title v; contentHash := contentHash v;
     currentTime := currentTime v; notFound := notFound v |}.

Definition with_hidden (x : bool) (v : VideoData) : VideoData :=
  {| id := id v; relativePath := relativePath v; thumbnail := thumbnail v;
     description := description v; rating := rating v; seen := seen v;
     tags := tags v; fileSize := fileSize v; duration := duration v;
     lastModified := lastModified v; isPlayable := isPlayable v;
     timesOpened := timesOpened v; dateAdded := dateAdded v;
     hearted := hearted v; hidden := x; deleted := deleted v;
     title := title v; contentHash := contentHash v;
     currentTime := currentTime v; notFound := notFound v |}.

Definition with_currentTime (x : option Qc) (v : VideoData) : VideoData :=
  {| id := id v; relativePath := relativePath v; thumbnail := thumbnail v;
     description := description v; rating := rating v; seen := seen v;
     tags := tags v; fileSize := fileSize v; duration := duration v;
     lastModified := lastModified v; isPlayable := isPlayable v;
     timesOpened := timesOpened v; dateAdded := dateAdded v;
     hearted := hearted v; hidden := hidden v; deleted := deleted v;
     title := title v; contentHash := contentHash v;
     currentTime := x; notFound := notFound v |}.

(** A [File] of the folder the user selected. *)
Module File.
Record t := {
  name : string;
  webkitRelativePath : string;
  size : Z;
  lastModified : Z;
}.
End File.

(** The JS operator [x || d] on the operand types the sources use it with. *)
Definition or_number (x d : Z) : Z := if x =? 0 then d else x.
Definition or_string (x d : string) : string :=
  match x with EmptyString => d | _ => x end.
Definition or_null {A} (x : option A) (falsy : A -> bool) : option A :=
  match x with
  | Some a => if falsy a then None else Some a
  | None => None
  end.
Definition zero_seconds (d : Qc) : bool := bool_decide (d = 0%Qc).
Definition empty_string (s : string) : bool := bool_decide (s = "").

(** ** dbService.ts *)

Module dbService.

(** The three object stores: [videos] (key path [id]), [main_thumbnails]
    and [timeline_thumbnails] (key path [videoId]). *)
Record db := {
  VIDEOS : gmap string VideoData;
  MAIN_THUMBNAILS : gmap string string;
  TIMELINE_THUMBNAILS : gmap string (list string);
}.

(** [const { thumbnail, ...videoMetadata } = video]: the stored object has
    no thumbnail. *)
Definition videoMetadata (video : VideoData) : VideoData :=
  with_thumbnail None video.

Definition applyVideoDefaults (video : VideoData) : VideoData :=
  with_contentHash (or_null (contentHash video) empty_string)
    (with_dateAdded (or_number (dateAdded video) (or_number (lastModified video) 0))
       (with_thumbnail None video)).

Definition upsertVideo (video : VideoData) (d : db) : db :=
  {| VIDEOS := <[id video := videoMetadata video]> (VIDEOS d);
     MAIN_THUMBNAILS :=
       match thumbnail video with
       | Some thumbnail => <[id video := thumbnail]> (MAIN_THUMBNAILS d)
       | None => MAIN_THUMBNAILS d
       end;
     TIMELINE_THUMBNAILS := TIMELINE_THUMBNAILS d |}.

Definition updateVideo (video : VideoData) (d : db) : db := upsertVideo video d.

(** [videos.forEach(video => store.put(videoMetadata))]. *)
Definition put_all (videos : list VideoData) (store : gmap string VideoData)
    : gmap string VideoData :=
  fold_left (fun store video => <[id video := videoMetadata video]> store) videos store.

Definition batchUpdateVideos (videos : list VideoData) (d : db) : db :=
  {| VIDEOS := put_all videos (VIDEOS d);
     MAIN_THUMBNAILS := MAIN_THUMBNAILS d;
     TIMELINE_THUMBNAILS := TIMELINE_THUMBNAILS d |}.

Definition getMainThumbnail (videoId : string) (d : db) : option string :=
  MAIN_THUMBNAILS d !! videoId.

Definition getAllMainThumbnails (d : db) : gmap string string :=
  MAIN_THUMBNAILS d.

Definition getTimelineThumbnails (videoId : string) (d : db) : option (list string) :=
  TIMELINE_THUMBNAILS d !! videoId.

Definition setTimelineThumbnails (videoId : string) (thumbnails : list string) (d : db) : db :=
  {| VIDEOS := VIDEOS d; MAIN_THUMBNAILS := MAIN_THUMBNAILS d;
     TIMELINE_THUMBNAILS := <[videoId := thumbnails]> (TIMELINE_THUMBNAILS d) |}.

Definition deleteTimelineThumbnails (videoId : string) (d : db) : db :=
  {| VIDEOS := VIDEOS d; MAIN_THUMBNAILS := MAIN_THUMBNAILS d;
     TIMELINE_THUMBNAILS := base.delete videoId (TIMELINE_THUMBNAILS d) |}.

(** [store.getAll()] followed by [applyVideoDefaults] on every object. The
    order in which [getAll] lists the objects is the order of [map_to_list];
    nothing below depends on it. *)
Definition getAllVideos (d : db) : list VideoData :=
  map (fun kv => applyVideoDefaults (snd kv)) (map_to_list (VIDEOS d)).

End dbService.

(** ** String helpers used by the scan *)

Definition lower_ascii (c : ascii) : ascii :=
  let n := Ascii.nat_of_ascii c in
  if ((65 <=? n) && (n <=? 90))%nat then Ascii.ascii_of_nat (n + 32) else c.

(** [String.prototype.toLowerCase] on the ASCII letters. *)
Fixpoint toLowerCase (s : string) : string :=
  match s with
  | EmptyString => EmptyString
  | String c s' => String (lower_ascii c) (toLowerCase s')
  end.

Definition endsWith (s suffix : string) : bool :=
  let n := String.length s in
  let k := String.length suffix in
  ((k <=? n)%nat && String.eqb (substring (n - k) k s) suffix).

(** [s.includes('.')]. *)
Fixpoint includesDot (s : string) : bool :=
  match s with
  | EmptyString => false
  | String c s' => Ascii.eqb c "."%char || includesDot s'
  end.

(** ** Arrays of strings *)

(** [Array.prototype.sort()] without a comparator on strings: ascending in
    the order of [String.compare]. The order is total, so the sorted array is
    determined by its elements and insertion sort computes it. *)
Fixpoint Array_sort_insert (s : string) (l : list string) : list string :=
  match l with
  | [] => [s]
  | t :: l' => if String.leb s t then s :: l else t :: Array_sort_insert s l'
  end.

Definition Array_sort (l : list string) : list string :=
  fold_right Array_sort_insert [] l.

(** [[...new Set(l)]]: the first occurrence of every element, in order. *)
Definition Set_of (l : list string) : list string :=
  fold_left (fun seen s => if bool_decide (s ∈ seen) then seen else (seen ++ [s])%list) l [].

(** [l.includes(s)]. *)
Definition includes (s : string) (l : list string) : bool := bool_decide (s ∈ l).

(** ** transcodeService.ts *)

Module transcodeService.

Definition TRANSCODABLE_EXTENSIONS : list string :=
  [".mkv"; ".mov"; ".avi"; ".wmv"; ".flv"; ".webm"].

Definition isTranscodable (filename : string) : bool :=
  let lowerCaseName := toLowerCase filename in
  existsb (fun ext => endsWith lowerCaseName ext) TRANSCODABLE_EXTENSIONS.

End transcodeService.

(** ** The sync pass [scanFiles] (App.tsx) *)

Module Sync.

Definition playableExtensions : list string := [".mp4"; ".ogv"].

(** [new Map(existingVideos.map(v => [v.relativePath, v]))]. *)
Definition existingVideosMap (existingVideos : list VideoData) : JsMap.t VideoData :=
  JsMap.of_list (map (fun v => (relativePath v, v)) existingVideos).

Definition isJpg (file : File.t) : bool :=
  endsWith (toLowerCase (File.name file)) ".jpg".

(** [isNativelyPlayable], which is also the value of [isPlayable]. *)
Definition isNativelyPlayable (file : File.t) : bool :=
  existsb (endsWith (toLowerCase (File.name file))) playableExtensions
  || negb (includesDot (File.name file)).

(** [existingVideo?.duration || null]. *)
Definition newDuration (existingVideo : option VideoData) : option Qc :=
  match existingVideo with
  | Some e => or_null (duration e) zero_seconds
  | None => None
  end.

(** The flags [(needsUpdate, needsThumbProcessing)] the loop body computes. *)
Definition needs (existingVideo : option VideoData)
    (existingThumbnails : gmap string string) (file : File.t) : bool * bool :=
  match existingVideo with
  | None => (true, isNativelyPlayable file)
  | Some e =>
      if negb (lastModified e =? File.lastModified file) || notFound e
      then (true, isNativelyPlayable file)
      else if isNativelyPlayable file && negb (bool_decide (is_Some (existingThumbnails !! id e)))
      then (true, true)
      else (false, false)
  end.

(** The object literal [videoData] of the loop body. [randomUUID] and
    [DateNow] are the values [crypto.randomUUID()] and [Date.now()] return
    when the literal evaluates them. *)
Definition videoData (existingVideo : option VideoData) (randomUUID : string)
    (DateNow : Z) (path : string) (file : File.t) : VideoData :=
  {| id := or_string (from_option id "" existingVideo) randomUUID;
     relativePath := path;
     rating := or_number (from_option rating 0 existingVideo) 0;
     seen := from_option seen false existingVideo || false;
     tags := from_option tags [] existingVideo;
     fileSize := File.size file;
     duration := newDuration existingVideo;
     lastModified := File.lastModified file;
     dateAdded := or_number (from_option dateAdded 0 existingVideo) DateNow;
     timesOpened := or_number (from_option timesOpened 0 existingVideo) 0;
     hearted := from_option hearted false existingVideo || false;
     hidden := from_option hidden false existingVideo || isJpg file;
     deleted := from_option deleted false existingVideo || false;
     title := existingVideo ≫= title;
     contentHash := None;
     currentTime := existingVideo ≫= currentTime;
     isPlayable := isNativelyPlayable file;
     notFound := false;
     description :=
       if isNativelyPlayable file then "Generating thumbnails..."
       else if isJpg file then "JPG Image" else "Incompatible file format.";
     thumbnail := None |}.

(** One iteration of the loop over the observed files: what it pushes onto
    [videosToBatchUpdate] and onto [videosForThumbGen]. *)
Definition processFile (existing : JsMap.t VideoData)
    (existingThumbnails : gmap string string) (randomUUID : string) (DateNow : Z)
    (entry : string * File.t) : list VideoData * list VideoData :=
  let '(path, file) := entry in
  let existingVideo := JsMap.get path existing in
  let '(needsUpdate, needsThumbProcessing) :=
    needs existingVideo existingThumbnails file in
  if needsUpdate then
    let v := videoData existingVideo randomUUID DateNow path file in
    ([v], if needsThumbProcessing then [v] else [])
  else
    match existingVideo with
    | Some e =>
        if negb (bool_decide (duration e = newDuration existingVideo))
           && negb (bool_decide (newDuration existingVideo = None))
        then ([with_notFound false (with_duration (newDuration existingVideo) e)], [])
        else ([], [])
    | None => ([], [])
    end.

(** The loop "1. Process found files"; the [i]-th iteration draws
    [randomUUID i] and [DateNow i]. *)
Fixpoint processFiles (existing : JsMap.t VideoData)
    (existingThumbnails : gmap string string)
    (randomUUID : nat -> string) (DateNow : nat -> Z) (i : nat)
    (fileEntries : list (string * File.t)) : list VideoData * list VideoData :=
  match fileEntries with
  | [] => ([], [])
  | entry :: rest =>
      let '(b, g) := processFile existing existingThumbnails (randomUUID i) (DateNow i) entry in
      let '(bs, gs) :=
        processFiles existing existingThumbnails randomUUID DateNow (S i) rest in
      ((b ++ bs)%list, (g ++ gs)%list)
  end.

(** The loop "2. Mark not found files". *)
Definition markNotFound (foundFilePaths : list string) (existingVideos : list VideoData)
    : list VideoData :=
  flat_map (fun video =>
    if negb (bool_decide (relativePath video ∈ foundFilePaths)) && negb (notFound video)
    then [with_notFound true video] else []) existingVideos.

Definition fileEntries (files : list File.t) : list (string * File.t) :=
  filter (fun entry => fst entry ≠ "")
    (map (fun file => (File.webkitRelativePath file, file)) files).

(** The update plan of a pass: [videosToBatchUpdate] and [videosForThumbGen].
    The cancel flag is reset when the pass starts and only the Stop button
    sets it, so this is the pass that is not cancelled. *)
Definition plan (randomUUID : nat -> string) (DateNow : nat -> Z)
    (files : list File.t) (d : dbService.db) : list VideoData * list VideoData :=
  let entries := fileEntries files in
  let foundFilePaths := map fst entries in
  let existingVideos := dbService.getAllVideos d in
  let existingThumbnails := dbService.getAllMainThumbnails d in
  let existing := existingVideosMap existingVideos in
  let '(batch, gen) :=
    processFiles existing existingThumbnails randomUUID DateNow 0 entries in
  ((batch ++ markNotFound foundFilePaths existingVideos)%list, gen).

Definition videosToBatchUpdate randomUUID DateNow files d : list VideoData :=
  fst (plan randomUUID DateNow files d).

(** [scanFiles]: the store after "3. Batch update DB", the library
    [loadLibraryFromDB] then reads, and the records handed to
    [processInBackground]. *)
Definition scanFiles (randomUUID : nat -> string) (DateNow : nat -> Z)
    (files : list File.t) (d : dbService.db)
    : dbService.db * list VideoData * list VideoData :=
  let '(batch, gen) := plan randomUUID DateNow files d in
  let d' := dbService.batchUpdateVideos batch d in
  (d', dbService.getAllVideos d', gen).

Definition db_after randomUUID DateNow files d : dbService.db :=
  fst (fst (scanFiles randomUUID DateNow files d)).

(** *** What a pass may assume of its inputs

    The object store is keyed by [id] and no identifier is the empty string;
    the unique index on [relativePath] admits no path twice. *)
Definition wf_store (d : dbService.db) : Prop :=
  map_Forall (fun k v => id v = k /\ k <> "") (dbService.VIDEOS d)
  /\ NoDup (map relativePath (dbService.getAllVideos d)).

(** A folder holds no path twice. *)
Definition distinct_paths (files : list File.t) : Prop :=
  NoDup (map fst (fileEntries files)).

(** The identifiers [crypto.randomUUID] hands out during a pass over [n]
    entries are non-empty, pairwise different and not in use. *)
Definition fresh_ids (randomUUID : nat -> string) (n : nat) (d : dbService.db) : Prop :=
  NoDup (map randomUUID (seq 0 n))
  /\ Forall (fun u => u <> "" /\ dbService.VIDEOS d !! u = None) (map randomUUID (seq 0 n)).

(** [Date.now()] is not the epoch itself. *)
Definition clock_started (DateNow : nat -> Z) (n : nat) : Prop :=
  Forall (fun i => DateNow i <> 0) (seq 0 n).

End Sync.

(** ** The application state and its handlers (App.tsx) *)

Module App.

Record HistoryEntry := { videoId : string; state : VideoData }.

Definition HistoryBatch := list HistoryEntry.

Inductive ToastType := success | error | info.

(** The React state and refs the handlers below read and write. *)
Record State := {
  videos : list VideoData;
  isBatchEditMode : bool;
  undoStack : list HistoryBatch;
  redoStack : list HistoryBatch;
  playlist : list string;
  toastMessage : string;
  toastType : ToastType;
  isFolderSelected : bool;
  fileMap : JsMap.t File.t;
  cache : scrubCache.cache;
  database : dbService.db;
}.

Definition setVideos (f : list VideoData -> list VideoData) (st : State) : State :=
  {| videos := f (videos st); isBatchEditMode := isBatchEditMode st;
     undoStack := undoStack st; redoStack := redoStack st;
     playlist := playlist st; toastMessage := toastMessage st;
     toastType := toastType st; isFolderSelected := isFolderSelected st;
     fileMap := fileMap st; cache := cache st; database := database st |}.

Definition setUndoStack (f : list HistoryBatch -> list HistoryBatch) (st : State) : State :=
  {| videos := videos st; isBatchEditMode := isBatchEditMode st;
     undoStack := f (undoStack st); redoStack := redoStack st;
     playlist := playlist st; toastMessage := toastMessage st;
     toastType := toastType st; isFolderSelected := isFolderSelected st;
     fileMap := fileMap st; cache := cache st; database := database st |}.

Definition setRedoStack (f : list HistoryBatch -> list HistoryBatch) (st : State) : State :=
  {| videos := videos st; isBatchEditMode := isBatchEditMode st;
     undoStack := undoStack st; redoStack := f (redoStack st);
     playlist := playlist st; toastMessage := toastMessage st;
     toastType := toastType st; isFolderSelected := isFolderSelected st;
     fileMap := fileMap st; cache := cache st; database := database st |}.

Definition setPlaylist (ids : list string) (st : State) : State :=
  {| videos := videos st; isBatchEditMode := isBatchEditMode st;
     undoStack := undoStack st; redoStack := redoStack st;
     playlist := ids; toastMessage := toastMessage st;
     toastType := toastType st; isFolderSelected := isFolderSelected st;
     fileMap := fileMap st; cache := cache st; database := database st |}.

Definition showToast (message : string) (type : ToastType) (st : State) : State :=
  {| videos := videos st; isBatchEditMode := isBatchEditMode st;
     undoStack := undoStack st; redoStack := redoStack st;
     playlist := playlist st; toastMessage := message;
     toastType := type; isFolderSelected := isFolderSelected st;
     fileMap := fileMap st; cache := cache st; database := database st |}.

Definition setIsFolderSelected (b : bool) (st : State) : State :=
  {| videos := videos st; isBatchEditMode := isBatchEditMode st;
     undoStack := undoStack st; redoStack := redoStack st;
     playlist := playlist st; toastMessage := toastMessage st;
     toastType := toastType st; isFolderSelected := b;
     fileMap := fileMap st; cache := cache st; database := database st |}.

(** [handleBatchEditModeChange]. *)
Definition setIsBatchEditMode (enabled : bool) (st : State) : State :=
  {| videos := videos st; isBatchEditMode := enabled;
     undoStack := undoStack st; redoStack := redoStack st;
     playlist := playlist st; toastMessage := toastMessage st;
     toastType := toastType st; isFolderSelected := isFolderSelected st;
     fileMap := fileMap st; cache := cache st; database := database st |}.

Definition onCache (f : scrubCache.cache -> scrubCache.cache) (st : State) : State :=
  {| videos := videos st; isBatchEditMode := isBatchEditMode st;
     undoStack := undoStack st; redoStack := redoStack st;
     playlist := playlist st; toastMessage := toastMessage st;
     toastType := toastType st; isFolderSelected := isFolderSelected st;
     fileMap := fileMap st; cache := f (cache st); database := database st |}.

Definition onDatabase (f : dbService.db -> dbService.db) (st : State) : State :=
  {| videos := videos st; isBatchEditMode := isBatchEditMode st;
     undoStack := undoStack st; redoStack := redoStack st;
     playlist := playlist st; toastMessage := toastMessage st;
     toastType := toastType st; isFolderSelected := isFolderSelected st;
     fileMap := fileMap st; cache := cache st; database := f (database st) |}.

(** [videos.find(v => v.id === videoId)]. *)
Definition findVideo (videoId : string) (vs : list VideoData) : option VideoData :=
  List.find (fun v => String.eqb (id v) videoId) vs.

(** [prev.map(v => v.id === u.id ? u : v)]. *)
Definition replaceVideo (u : VideoData) (vs : list VideoData) : list VideoData :=
  map (fun v => if String.eqb (id v) (id u) then u else v) vs.

(** [prev.map(v => updatesMap.get(v.id) || v)] for
    [updatesMap = new Map(updates.map(v => [v.id, v]))]. *)
Definition applyUpdates (updates : list (string * VideoData)) (vs : list VideoData)
    : list VideoData :=
  map (fun v => default v (JsMap.get (id v) (JsMap.of_list updates))) vs.

(** [updatedVideo.currentTime && updatedVideo.currentTime > 1]. *)
Definition playedPastThreshold (updatedVideo : VideoData) : bool :=
  match currentTime updatedVideo with
  | Some t => negb (zero_seconds t) && bool_decide (1 < t)%Qc
  | None => false
  end.

(** *** Batch edit: the [changes] object

    [Partial<VideoData>] restricted to the keys that are not on the
    exclusion list of the batch branch; [None] is an absent key. An object
    handed to [handleUpdateVideo] is a spread of a library record, so it
    carries every key. *)
Record Changes := {
  c_thumbnail : option (option string);
  c_description : option string;
  c_rating : option Z;
  c_seen : option bool;
  c_tags : option (list string);
  c_hearted : option bool;
  c_hidden : option bool;
  c_deleted : option bool;
  c_title : option (option string);
  c_contentHash : option (option string);
}.

(** A key enters [changes] when the JSON text of its value differs. *)
Definition changed {A} `{EqDecision A} (previous updated : A) : option A :=
  if decide (previous = updated) then None else Some updated.

Definition changes (previousState updatedVideo : VideoData) : Changes :=
  {| c_thumbnail := changed (thumbnail previousState) (thumbnail updatedVideo);
     c_description := changed (description previousState) (description updatedVideo);
     c_rating := changed (rating previousState) (rating updatedVideo);
     c_seen :=
       if playedPastThreshold updatedVideo && negb (seen previousState)
       then Some true
       else changed (seen previousState) (seen updatedVideo);
     c_tags := changed (tags previousState) (tags updatedVideo);
     c_hearted := changed (hearted previousState) (hearted updatedVideo);
     c_hidden := changed (hidden previousState) (hidden updatedVideo);
     c_deleted := changed (deleted previousState) (deleted updatedVideo);
     c_title := changed (title previousState) (title updatedVideo);
     c_contentHash := changed (contentHash previousState) (contentHash updatedVideo) |}.

(** [Object.keys(changes).length === 0]. *)
Definition noChanges (c : Changes) : bool :=
  match c with
  | {| c_thumbnail := None; c_description := None; c_rating := None;
       c_seen := None; c_tags := None; c_hearted := None; c_hidden := None;
       c_deleted := None; c_title := None; c_contentHash := None |} => true
  | _ => false
  end.

(** [{ ...targetVideo, ...changes }]. *)
Definition applyChanges (c : Changes) (targetVideo : VideoData) : VideoData :=
  {| id := id targetVideo; relativePath := relativePath targetVideo;
     thumbnail := default (thumbnail targetVideo) (c_thumbnail c);
     description := default (description targetVideo) (c_description c);
     rating := default (rating targetVideo) (c_rating c);
     seen := default (seen targetVideo) (c_seen c);
     tags := default (tags targetVideo) (c_tags c);
     fileSize := fileSize targetVideo; duration := duration targetVideo;
     lastModified := lastModified targetVideo;
     isPlayable := isPlayable targetVideo;
     timesOpened := timesOpened targetVideo; dateAdded := dateAdded targetVideo;
     hearted := default (hearted targetVideo) (c_hearted c);
     hidden := default (hidden targetVideo) (c_hidden c);
     deleted := default (deleted targetVideo) (c_deleted c);
     title := default (title targetVideo) (c_title c);
     contentHash := default (contentHash targetVideo) (c_contentHash c);
     currentTime := currentTime targetVideo; notFound := notFound targetVideo |}.

(** *** [handleUpdateVideo]

    [displayedVideos] is the memoised filtered and sorted view of [videos]
    at the time of the call. *)
Definition handleUpdateVideo (displayedVideos : list VideoData)
    (updatedVideo : VideoData) (st : State) : State :=
  if isBatchEditMode st then
    match findVideo (id updatedVideo) (videos st) with
    | None => st
    | Some previousState =>
        let c := changes previousState updatedVideo in
        if noChanges c then st
        else
          let targets := displayedVideos in
          let historyBatch :=
            map (fun t => {| videoId := id t; state := t |}) targets in
          let videosToUpdate := map (applyChanges c) targets in
          match videosToUpdate with
          | [] => st
          | _ :: _ =>
              showToast
                ("Applied changes to " ++ pretty (length videosToUpdate) ++ " videos.")
                success
                (setRedoStack (fun _ => [])
                   (setUndoStack (fun prev => (prev ++ [historyBatch])%list)
                      (setVideos
                         (applyUpdates (map (fun v => (id v, v)) videosToUpdate))
                         (onDatabase (dbService.batchUpdateVideos videosToUpdate) st))))
          end
    end
  else
    match findVideo (id updatedVideo) (videos st) with
    | Some previousState =>
        let updatedVideo :=
          if playedPastThreshold updatedVideo && negb (seen previousState)
          then with_seen true updatedVideo else updatedVideo in
        let st1 :=
          if decide (previousState = updatedVideo) then st
          else
            setRedoStack (fun _ => [])
              (setUndoStack
                 (fun prev =>
                    (prev ++ [[{| videoId := id updatedVideo; state := previousState |}]])%list)
                 st) in
        setVideos (replaceVideo updatedVideo)
          (onDatabase (dbService.updateVideo updatedVideo) st1)
    | None =>
        setVideos (replaceVideo updatedVideo)
          (onDatabase (dbService.updateVideo updatedVideo) st)
    end.

(** [stack.pop()] on a copy: the remaining stack and the popped batch. *)
Definition pop {A} (stack : list A) : option (list A * A) :=
  match rev stack with
  | [] => None
  | x :: r => Some (rev r, x)
  end.

(** The current state of every record a batch names, for the opposite
    stack; a record that is no longer in [videos] is filtered out. *)
Definition currentStates (vs : list VideoData) (batch : HistoryBatch) : HistoryBatch :=
  omap (fun change =>
          match findVideo (videoId change) vs with
          | Some s => Some {| videoId := videoId change; state := s |}
          | None => None
          end) batch.

Definition restore (lastActionBatch : HistoryBatch) (st : State) : State :=
  setVideos (applyUpdates (map (fun c => (videoId c, state c)) lastActionBatch))
    (onDatabase (dbService.batchUpdateVideos (map state lastActionBatch)) st).

Definition handleUndo (st : State) : State :=
  match pop (undoStack st) with
  | None => st
  | Some (newUndoStack, lastActionBatch) =>
      let currentStatesForRedo := currentStates (videos st) lastActionBatch in
      let st1 :=
        match currentStatesForRedo with
        | [] => st
        | _ :: _ => setRedoStack (fun prev => (prev ++ [currentStatesForRedo])%list) st
        end in
      setUndoStack (fun _ => newUndoStack) (restore lastActionBatch st1)
  end.

Definition handleRedo (st : State) : State :=
  match pop (redoStack st) with
  | None => st
  | Some (newRedoStack, lastActionBatch) =>
      let currentStatesForUndo := currentStates (videos st) lastActionBatch in
      let st1 :=
        match currentStatesForUndo with
        | [] => st
        | _ :: _ => setUndoStack (fun prev => (prev ++ [currentStatesForUndo])%list) st
        end in
      setRedoStack (fun _ => newRedoStack) (restore lastActionBatch st1)
  end.

(** *** [handleImportPlaylist] *)

(** A parsed JSON document, as much of it as the import inspects. *)
#[warnings="-register-all"]
Inductive JSON :=
| JNull
| JBoolean (b : bool)
| JNumber (q : Qc)
| JString (s : string)
| JArray (elements : list JSON)
| JObject (members : list (string * JSON)).

(** [typeof x === 'string'], with the string. *)
Definition asString (x : JSON) : option string :=
  match x with JString s => Some s | _ => None end.

(** [Array.isArray(x) && x.every(id => typeof id === 'string')], with the
    array of strings. *)
Definition asStringArray (x : JSON) : option (list string) :=
  match x with
  | JArray elements => mapM asString elements
  | _ => None
  end.

(** What the file input delivers: no file, a file whose [text()] rejects, or
    the text of the file. *)
Inductive Upload :=
| NoFile
| Unreadable
| Text (text : string).

(** The [onchange] handler of the import. [JSON_parse] is [JSON.parse], with
    [None] for a [SyntaxError]. *)
Definition handleImportPlaylist (JSON_parse : string -> option JSON)
    (upload : Upload) (st : State) : State :=
  match upload with
  | NoFile => st
  | Unreadable => showToast "Failed to import playlist." error st
  | Text text =>
      match JSON_parse text with
      | None => showToast "Failed to import playlist." error st
      | Some importedIds =>
          match asStringArray importedIds with
          | Some ids =>
              let validIds :=
                List.filter
                  (fun i => existsb (fun v => String.eqb (id v) i) (videos st)) ids in
              showToast
                ("Imported " ++ pretty (length validIds) ++ " videos to playlist.")
                success (setPlaylist validIds st)
          | None => showToast "Invalid playlist file format." error st
          end
      end
  end.

(** *** [getFileForPlayback] and [handleRegenerateThumbnails] *)

Definition getFileForPlayback (video : VideoData) (st : State) : option File.t * State :=
  match JsMap.get (relativePath video) (fileMap st) with
  | Some file => (Some file, st)
  | None =>
      if (JsMap.size (fileMap st) =? 0)%nat then
        (None,
         setIsFolderSelected false
           (showToast "Please select your video folder again to grant access." info st))
      else
        (None,
         showToast
           ("Could not load file: " ++ relativePath video
            ++ ". It may have been moved or deleted. Please re-select the folder.")
           error st)
  end.

Definition newline : string := String (Ascii.ascii_of_nat 10) EmptyString.

(** [generateThumbnail] is [videoService.generateThumbnail], [None] for the
    [null] it resolves to on failure. The store operations are the ones of
    [dbService] above, which complete. *)
Definition handleRegenerateThumbnails (generateThumbnail : File.t -> option string)
    (videoToRegen : VideoData) (st : State) : State :=
  match getFileForPlayback videoToRegen st with
  | (None, st1) =>
      let errorMsg :=
        "Auto-regeneration failed for " ++ relativePath videoToRegen ++ newline
        ++ "File not available. Please re-select folder." in
      setVideos
        (map (fun v =>
                if String.eqb (id v) (id videoToRegen)
                then with_description errorMsg v else v)) st1
  | (Some file, st1) =>
      let st2 :=
        onCache (scrubCache.delete (id videoToRegen))
          (onDatabase (dbService.deleteTimelineThumbnails (id videoToRegen)) st1) in
      let st3 :=
        setVideos
          (map (fun v =>
                  if String.eqb (id v) (id videoToRegen)
                  then with_thumbnail None (with_description "Generating thumbnails..." v)
                  else v)) st2 in
      let thumbnail := generateThumbnail file in
      let isNowPlayable := bool_decide (thumbnail <> None) in
      let updatedVideo :=
        with_isPlayable isNowPlayable
          (with_description
             (if isNowPlayable then "" else "Failed to regenerate thumbnail.")
             (with_thumbnail thumbnail videoToRegen)) in
      let st4 := onDatabase (dbService.updateVideo updatedVideo) st3 in
      setVideos (fun _ => dbService.getAllVideos (database st4)) st4
  end.

(** *** [loadLibraryFromDB] and [processInBackground] *)

Definition loadLibraryFromDB (st : State) : State :=
  setVideos (fun _ => dbService.getAllVideos (database st)) st.

Definition thumbnailFailed : string :=
  "Could not generate thumbnail. File may be corrupt or in an unsupported format.".

(** One iteration of the loop of [processInBackground]: [video] is the
    record as the scan queued it, [files] is [fileMapRef.current]. *)
Definition processVideo (generateThumbnail : File.t -> option string)
    (files : JsMap.t File.t) (d : dbService.db) (video : VideoData) : dbService.db :=
  match JsMap.get (relativePath video) files with
  | Some file =>
      let thumbnail := generateThumbnail file in
      let isNowPlayable := bool_decide (thumbnail <> None) in
      let description := if isNowPlayable then "" else thumbnailFailed in
      let updatedVideoForDB :=
        with_isPlayable isNowPlayable
          (with_thumbnail thumbnail (with_description description video)) in
      dbService.updateVideo updatedVideoForDB d
  | None => d
  end.

(** The run that is not cancelled: every queued record is processed, then
    the library is read back from the store. *)
Definition processInBackground (generateThumbnail : File.t -> option string)
    (videosToProcess : list VideoData) (st : State) : State :=
  loadLibraryFromDB
    (onDatabase
       (fun d => fold_left (processVideo generateThumbnail (fileMap st)) videosToProcess d)
       st).

(** *** [handleFilesSelected] and [scanFiles]

    The state when the folder has been read, the library synchronised and
    the thumbnail run started by the scan has finished, no other handler
    having run in between. *)
Definition setFileMap (m : JsMap.t File.t) (st : State) : State :=
  {| videos := videos st; isBatchEditMode := isBatchEditMode st;
     undoStack := undoStack st; redoStack := redoStack st;
     playlist := playlist st; toastMessage := toastMessage st;
     toastType := toastType st; isFolderSelected := isFolderSelected st;
     fileMap := m; cache := cache st; database := database st |}.

Definition scanFiles (randomUUID : nat -> string) (DateNow : nat -> Z)
    (generateThumbnail : File.t -> option string) (files : list File.t)
    (st : State) : State :=
  let '(d, library, videosForThumbGen) :=
    Sync.scanFiles randomUUID DateNow files (database st) in
  let st1 := setVideos (fun _ => library) (onDatabase (fun _ => d) st) in
  match videosForThumbGen with
  | [] => st1
  | _ :: _ => processInBackground generateThumbnail videosForThumbGen st1
  end.

(** [files] is [event.target.files], empty when the dialog was dismissed. *)
Definition handleFilesSelected (randomUUID : nat -> string) (DateNow : nat -> Z)
    (generateThumbnail : File.t -> option string) (files : list File.t)
    (st : State) : State :=
  match files with
  | [] => st
  | _ :: _ =>
      let newFileMap := JsMap.of_list (Sync.fileEntries files) in
      let st1 := setFileMap newFileMap st in
      if (0 <? JsMap.size newFileMap)%nat
      then setIsFolderSelected true
             (scanFiles randomUUID DateNow generateThumbnail files st1)
      else showToast "Could not read folder contents. Please try again." error st1
  end.

(** *** Status filters and the default view ([displayedVideos]) *)

Inductive FilterMode := include | exclude.

Definition handleStatusFilterToggle (filter : string) (prev : JsMap.t FilterMode)
    : JsMap.t FilterMode :=
  match JsMap.get filter prev with
  | Some include => JsMap.set filter exclude prev
  | Some exclude => JsMap.delete filter prev
  | None => JsMap.set filter include prev
  end.

(** The [switch] over the filter name. *)
Definition conditionMet (filter : string) (video : VideoData) : bool :=
  if String.eqb filter "watched" then seen video
  else if String.eqb filter "tagged" then (0 <? length (tags video))%nat
  else if String.eqb filter "rated" then 0 <? rating video
  else if String.eqb filter "incompatible" then negb (isPlayable video)
  else if String.eqb filter "hearted" then hearted video
  else if String.eqb filter "duplicates" then includes "Duplicate" (tags video)
  else if String.eqb filter "hidden" then hidden video
  else if String.eqb filter "deleted" then deleted video
  else if String.eqb filter "renamed" then
    match title video with Some t => negb (empty_string t) | None => false end
  else if String.eqb filter "not-found" then notFound video
  else false.

(** The first test of the filter callback of [displayedVideos]: the status
    filters when there are any, the default view otherwise. The tests that
    follow it (selected tags, search query) only remove further records. *)
Definition matchesStatusFilters (statusFilters : JsMap.t FilterMode)
    (video : VideoData) : bool :=
  if (0 <? JsMap.size statusFilters)%nat then
    forallb (fun entry =>
               match snd entry with
               | include => conditionMet (fst entry) video
               | exclude => negb (conditionMet (fst entry) video)
               end) statusFilters
  else negb (hidden video || deleted video || notFound video).

(** *** Pages *)

Definition VIDEOS_PER_PAGE : Z := 100.

(** [Array.prototype.slice(start, end)] on integers: a negative index counts
    from the end, and both ends are clamped to the array. *)
Definition slice {A} (start final : Z) (l : list A) : list A :=
  let len := Z.of_nat (length l) in
  let k := if start <? 0 then Z.max (len + start) 0 else Z.min start len in
  let e := if final <? 0 then Z.max (len + final) 0 else Z.min final len in
  take (Z.to_nat (e - k)) (drop (Z.to_nat k) l).

Definition currentVideos (currentPage : Z) (displayedVideos : list VideoData)
    : list VideoData :=
  let firstPageIndex := (currentPage - 1) * VIDEOS_PER_PAGE in
  let lastPageIndex := firstPageIndex + VIDEOS_PER_PAGE in
  slice firstPageIndex lastPageIndex displayedVideos.

(** [Math.ceil(displayedVideos.length / VIDEOS_PER_PAGE)]. *)
Definition totalPages (displayedVideos : list VideoData) : Z :=
  (Z.of_nat (length displayedVideos) + VIDEOS_PER_PAGE - 1) / VIDEOS_PER_PAGE.

(** [l.findIndex(p)], [None] for [-1]. *)
Fixpoint findIndex {A} (p : A -> bool) (l : list A) : option nat :=
  match l with
  | [] => None
  | x :: l' => if p x then Some 0%nat else S <$> findIndex p l'
  end.

(** The page [handleGoToRandom] sets and the record it scrolls to.
    [randomIndex] is [Math.floor(Math.random() * playableVideos.length)], an
    index into [playableVideos]; with no playable record the handler returns
    at once and the page stays. *)
Definition handleGoToRandom (randomIndex : nat) (displayedVideos : list VideoData)
    (currentPage : Z) : Z * option VideoData :=
  let playableVideos := List.filter isPlayable displayedVideos in
  match playableVideos !! randomIndex with
  | None => (currentPage, None)
  | Some randomVideo =>
      match findIndex (fun v => String.eqb (id v) (id randomVideo)) displayedVideos with
      | Some videoIndex =>
          (Z.of_nat videoIndex / VIDEOS_PER_PAGE + 1, Some randomVideo)
      | None => (currentPage, Some randomVideo)
      end
  end.

(** *** The playlist *)

Definition handleAddToPlaylist (videoId : string) (st : State) : State :=
  if includes videoId (playlist st)
  then showToast "Video already in playlist." info st
  else
    showToast "Video added to playlist." success
      (setPlaylist (playlist st ++ [videoId])%list st).

(** The text [handleExportPlaylist] offers for download, and the state after
    it. [JSON_stringify] is [JSON.stringify(_, null, 2)]. *)
Definition handleExportPlaylist (JSON_stringify : JSON -> string) (st : State)
    : string * State :=
  (JSON_stringify (JArray (map JString (playlist st))),
   showToast "Playlist exported!" success st).

(** *** Library maintenance *)

Definition handleUnheartAllVideos (st : State) : State :=
  let videosToUpdate := map (with_hearted false) (List.filter hearted (videos st)) in
  match videosToUpdate with
  | [] => showToast "No videos were hearted." info st
  | _ :: _ =>
      showToast ("Unhearted " ++ pretty (length videosToUpdate) ++ " videos.") success
        (loadLibraryFromDB
           (onDatabase (dbService.batchUpdateVideos videosToUpdate) st))
  end.

Definition handleUnhideAllVideos (st : State) : State :=
  let videosToUpdate := map (with_hidden false) (List.filter hidden (videos st)) in
  match videosToUpdate with
  | [] => showToast "No videos were hidden." info st
  | _ :: _ =>
      showToast ("Unhid " ++ pretty (length videosToUpdate) ++ " videos.") success
        (loadLibraryFromDB
           (onDatabase (dbService.batchUpdateVideos videosToUpdate) st))
  end.

(** [s] between double quotes. *)
Definition quoted (s : string) : string :=
  String (Ascii.ascii_of_nat 34) (s ++ String (Ascii.ascii_of_nat 34) EmptyString).

Definition handleResetDuplicates (st : State) : State :=
  let videosToUpdate :=
    map (fun v =>
           with_tags (List.filter (fun t => negb (String.eqb t "Duplicate")) (tags v)) v)
      (List.filter (fun v => includes "Duplicate" (tags v)) (videos st)) in
  match videosToUpdate with
  | [] => showToast ("No videos were tagged as " ++ quoted "Duplicate" ++ ".") info st
  | _ :: _ =>
      showToast ("Removed " ++ quoted "Duplicate" ++ " tag from all videos.") success
        (loadLibraryFromDB
           (onDatabase (dbService.batchUpdateVideos videosToUpdate) st))
  end.

(** [Math.round] on a rational: the nearest integer, a half rounds up. *)
Definition Math_round (q : Qc) : Z := Qfloor (q + Q2Qc (1 # 2))%Qc.

(** [!video.duration]. *)
Definition noDuration (video : VideoData) : bool :=
  match duration video with
  | Some q => zero_seconds q
  | None => true
  end.

(** The key [`${video.fileSize}:${Math.round(video.duration)}`]. *)
Definition duplicateKey (video : VideoData) : string :=
  pretty (fileSize video) ++ ":" ++ pretty (Math_round (default 0%Qc (duration video))).

(** The loops that fill [sizeAndDurationMap] and [pathMap]: the record is
    pushed onto the array under its key, which is created empty first. *)
Definition pushUnder (key : VideoData -> string) (m : JsMap.t (list VideoData))
    (video : VideoData) : JsMap.t (list VideoData) :=
  let m1 := if JsMap.has (key video) m then m else JsMap.set (key video) [] m in
  JsMap.set (key video) (default [] (JsMap.get (key video) m1) ++ [video])%list m1.

Definition groupUnder (key : VideoData -> string) (vs : list VideoData)
    : JsMap.t (list VideoData) :=
  fold_left (pushUnder key) vs JsMap.empty.

Definition duplicatesToUpdate (vs : list VideoData) : list VideoData :=
  let sizeAndDurationMap :=
    groupUnder duplicateKey
      (List.filter (fun video => negb (noDuration video || deleted video || hidden video)) vs) in
  flat_map (fun entry =>
              let potentialDuplicates := snd entry in
              if (1 <? length potentialDuplicates)%nat then
                flat_map (fun video =>
                            if includes "Duplicate" (tags video) then []
                            else [with_tags (Array_sort (tags video ++ ["Duplicate"])%list) video])
                  potentialDuplicates
              else [])
    sizeAndDurationMap.

Definition handleFindDuplicates (st : State) : State :=
  let videosToUpdate := duplicatesToUpdate (videos st) in
  match videosToUpdate with
  | [] => showToast "No new duplicates found." info st
  | _ :: _ =>
      showToast
        ("Found and tagged " ++ pretty (length videosToUpdate) ++ " potential duplicates.")
        success
        (loadLibraryFromDB
           (onDatabase (dbService.batchUpdateVideos videosToUpdate) st))
  end.

(** [s.lastIndexOf('.')], [None] for [-1]. *)
Fixpoint lastIndexOfDot (s : string) : option nat :=
  match s with
  | EmptyString => None
  | String c s' =>
      match lastIndexOfDot s' with
      | Some i => Some (S i)
      | None => if Ascii.eqb c "."%char then Some 0%nat else None
      end
  end.

Definition pathWithoutExt (video : VideoData) : string :=
  match lastIndexOfDot (relativePath video) with
  | Some lastDotIndex => substring 0 lastDotIndex (relativePath video)
  | None => relativePath video
  end.

Definition transcodedToUpdate (vs : list VideoData) : list VideoData :=
  let pathMap := groupUnder pathWithoutExt vs in
  flat_map (fun entry =>
              let candidates := snd entry in
              if (1 <? length candidates)%nat then
                let hasMp4 :=
                  existsb (fun v => endsWith (toLowerCase (relativePath v)) ".mp4")
                    candidates in
                if hasMp4 then
                  flat_map (fun v =>
                              if transcodeService.isTranscodable (relativePath v)
                                 && negb (includes "Transcoded" (tags v))
                              then [with_tags (Array_sort (tags v ++ ["Transcoded"])%list) v]
                              else [])
                    candidates
                else []
              else [])
    pathMap.

Definition handleFindTranscoded (st : State) : State :=
  let videosToUpdate := transcodedToUpdate (videos st) in
  match videosToUpdate with
  | [] => showToast "No new transcoded source files found." info st
  | _ :: _ =>
      showToast
        ("Found and tagged " ++ pretty (length videosToUpdate)
         ++ " potential transcoded source files.")
        success
        (loadLibraryFromDB
           (onDatabase (dbService.batchUpdateVideos videosToUpdate) st))
  end.

(** *** [handleScanDurations]

    [getVideoDuration] is [videoService.getVideoDuration], [None] for the
    [null] it resolves to when the metadata cannot be read. *)
Definition scanDuration (getVideoDuration : File.t -> option Qc)
    (st : State) (video : VideoData) : State :=
  match getFileForPlayback video st with
  | (Some file, st1) =>
      match or_null (getVideoDuration file) zero_seconds with
      | Some duration =>
          onDatabase (dbService.updateVideo (with_duration (Some duration) video)) st1
      | None => st1
      end
  | (None, st1) => st1
  end.

Definition handleScanDurations (getVideoDuration : File.t -> option Qc)
    (st : State) : State :=
  let videosWithoutDuration :=
    List.filter
      (fun v => (bool_decide (duration v = None) || bool_decide (duration v = Some 0%Qc))
                && isPlayable v)
      (videos st) in
  match videosWithoutDuration with
  | [] => showToast "All playable videos have durations." info st
  | _ :: _ =>
      showToast "Duration scan complete." success
        (loadLibraryFromDB
           (fold_left (scanDuration getVideoDuration) videosWithoutDuration st))
  end.

End App.

(** ** HeaderPagination.tsx *)

Module HeaderPagination.

(** The page [goToPage] hands to [onPageChange]. [page] is
    [parseInt(pageInput, 10)], [None] for [NaN]. *)
Definition goToPage (page : option Z) (totalPages : Z) : Z :=
  let safeTotalPages := if 0 <? totalPages then totalPages else 1 in
  match page with
  | None => 1
  | Some page =>
      if page <? 1 then 1
      else if safeTotalPages <? page then safeTotalPages
      else page
  end.

End HeaderPagination.

(** ** Pagination.tsx *)

Module Pagination.

Inductive PageItem :=
| PageNumber (n : Z)
| Ellipsis.

(** [for (let i = start; i <= end; i++) pageNumbers.push(i)]. *)
Definition pagesFromTo (start final : Z) : list PageItem :=
  map PageNumber (seqZ start (final - start + 1)).

Definition getPageNumbers (currentPage totalPages : Z) : list PageItem :=
  let maxPagesToShow := 7 in
  if totalPages <=? maxPagesToShow then pagesFromTo 1 totalPages
  else
    let start := Z.max 2 (currentPage - 1) in
    let final := Z.min (totalPages - 1) (currentPage + 1) in
    let final := if currentPage <=? 3 then 4 else final in
    let start := if totalPages - 2 <=? currentPage then totalPages - 3 else start in
    ([PageNumber 1]
     ++ (if 4 <? currentPage then [Ellipsis] else [])
     ++ pagesFromTo start final
     ++ (if currentPage <? totalPages - 3 then [Ellipsis] else [])
     ++ [PageNumber totalPages])%list.

(** The page numbers among the items, in order. *)
Definition numbers (items : list PageItem) : list Z :=
  omap (fun item => match item with PageNumber n => Some n | Ellipsis => None end) items.

End Pagination.

(** ** PlayerView.tsx *)

Module PlayerView.

(** The records of the playlist: the identifiers the library resolves. *)
Definition playlist (playlistIds : list string) (allVideos : list VideoData)
    : list VideoData :=
  omap (fun i => App.findVideo i allVideos) playlistIds.

(** [playlist[validIndex] || null]. *)
Definition currentVideo (playlist : list VideoData) (currentIndex : Z)
    : option VideoData :=
  let validIndex := Z.max 0 (Z.min currentIndex (Z.of_nat (length playlist) - 1)) in
  playlist !! Z.to_nat validIndex.

(** The index after [playNext]; [%] is the remainder of the truncated
    division. *)
Definition playNext (playlist : list VideoData) (i : Z) : Z :=
  if (0 <? length playlist)%nat
  then Z.rem (i + 1) (Z.of_nat (length playlist))
  else i.

Definition playPrevious (playlist : list VideoData) (i : Z) : Z :=
  if (0 <? length playlist)%nat
  then Z.rem (i - 1 + Z.of_nat (length playlist)) (Z.of_nat (length playlist))
  else i.

Definition handleRemoveFromPlaylist (videoId : string) (playlistIds : list string)
    : list string :=
  List.filter (fun i => negb (String.eqb i videoId)) playlistIds.

End PlayerView.

(** ** VideoCard.tsx *)

Module VideoCard.

(** [handleApplyTags]: the record handed to [onUpdate], if any. [newTag] is
    [newTagInput.trim()]. *)
Definition handleApplyTags (newTag : string) (stagedTags : list string)
    (video : VideoData) : option VideoData :=
  let finalTags :=
    if negb (empty_string newTag) && negb (includes newTag stagedTags)
    then (stagedTags ++ [newTag])%list else stagedTags in
  let sortedFinal := Array_sort (Set_of finalTags) in
  let sortedCurrent := Array_sort (tags video) in
  if bool_decide (sortedFinal = sortedCurrent) then None
  else Some (with_tags sortedFinal video).

End VideoCard.

(** Decidable side conditions of the worked examples are settled by
    evaluation. *)
Ltac by_evaluation := apply (bool_decide_unpack _); by vm_compute.

(** ** Sample data for the worked examples *)

Module Sample.

Definition video (i path : string) : VideoData :=
  {| id := i; relativePath := path; thumbnail := None; description := "";
     rating := 4; seen := true; tags := ["holiday"]; fileSize := 10;
     duration := None; lastModified := 1; isPlayable := true;
     timesOpened := 2; dateAdded := 5; hearted := true; hidden := false;
     deleted := false; title := Some "Cat"; contentHash := None;
     currentTime := None; notFound := false |}.

Definition store (vs : list VideoData) : dbService.db :=
  dbService.batchUpdateVideos vs
    {| dbService.VIDEOS := ∅; dbService.MAIN_THUMBNAILS := ∅;
       dbService.TIMELINE_THUMBNAILS := ∅ |}.

Definition file (path name : string) (modified : Z) : File.t :=
  {| File.name := name; File.webkitRelativePath := path; File.size := 10;
     File.lastModified := modified |}.

Definition randomUUID (i : nat) : string := "uuid-" ++ pretty i.

Definition DateNow (i : nat) : Z := 1700000000000 + Z.of_nat i.

(** A picture the user has made visible again. *)
Definition cat : VideoData :=
  with_description "JPG Image" (with_isPlayable false (video "a" "pics/cat.jpg")).

Definition state (vs : list VideoData) : App.State :=
  {| App.videos := vs; App.isBatchEditMode := false; App.undoStack := [];
     App.redoStack := []; App.playlist := ["a"]; App.toastMessage := "";
     App.toastType := App.info; App.isFolderSelected := true;
     App.fileMap := []; App.cache := [("a", ["strip"])];
     App.database := store vs |}.

End Sample.

(** * Properties *)

(** ** JavaScript [Map] *)

Section JsMapFacts.
Context {V : Type}.
Implicit Types (m : JsMap.t V) (k : string) (v : V).

Lemma eqb_string_refl k : String.eqb k k = true.
Proof. apply String.eqb_refl. Qed.

Lemma get_None_keys k m : JsMap.get k m = None <-> k ∉ JsMap.keys m.
Proof.
  induction m as [|[k' v'] m IH]; simpl.
  - split; [intros _; apply not_elem_of_nil | done].
  - destruct (String.eqb_spec k' k) as [->|Hne].
    + split; [done | intros H; exfalso; apply H; left].
    + rewrite IH, not_elem_of_cons. split; [intros H; split; [congruence | done] | by intros [_ H]].
Qed.

Lemma has_keys k m : JsMap.has k m = true <-> k ∈ JsMap.keys m.
Proof.
  unfold JsMap.has. destruct (JsMap.get k m) eqn:E.
  - split; [intros _ | done].
    destruct (decide (k ∈ JsMap.keys m)) as [|Hn]; [done|].
    apply get_None_keys in Hn. congruence.
  - apply get_None_keys in E. split; [done | intros; contradiction].
Qed.

Lemma has_false_keys k m : JsMap.has k m = false <-> k ∉ JsMap.keys m.
Proof. rewrite <- has_keys. destruct (JsMap.has k m); naive_solver. Qed.

Lemma keys_set_present k v m :
  k ∈ JsMap.keys m -> JsMap.keys (JsMap.set k v m) = JsMap.keys m.
Proof.
  induction m as [|[k' v'] m IH]; simpl; intros Hin.
  - by apply elem_of_nil in Hin.
  - destruct (String.eqb_spec k' k) as [->|Hne]; simpl; [done|].
    f_equal. apply IH. apply elem_of_cons in Hin as [->|]; [contradiction | done].
Qed.

Lemma keys_set_absent k v m :
  k ∉ JsMap.keys m -> JsMap.keys (JsMap.set k v m) = (JsMap.keys m ++ [k])%list.
Proof.
  induction m as [|[k' v'] m IH]; simpl; intros Hin; [done|].
  apply not_elem_of_cons in Hin as [Hne Hin].
  destruct (String.eqb_spec k' k) as [->|_]; simpl; [contradiction|].
  f_equal. by apply IH.
Qed.

Lemma get_set_eq k v m : JsMap.get k (JsMap.set k v m) = Some v.
Proof.
  induction m as [|[k' v'] m IH]; simpl.
  - by rewrite eqb_string_refl.
  - destruct (String.eqb_spec k' k) as [->|Hne]; simpl.
    + by rewrite eqb_string_refl.
    + destruct (String.eqb_spec k' k); [contradiction | done].
Qed.

Lemma get_set_ne k k' v m :
  k ≠ k' -> JsMap.get k' (JsMap.set k v m) = JsMap.get k' m.
Proof.
  intros Hne. induction m as [|[k0 v0] m IH]; simpl.
  - destruct (String.eqb_spec k k'); [contradiction | done].
  - destruct (String.eqb_spec k0 k) as [->|Hk]; simpl.
    + destruct (String.eqb_spec k k'); [contradiction | done].
    + destruct (String.eqb_spec k0 k'); [done | apply IH].
Qed.

Lemma keys_delete_sublist k m :
  sublist (JsMap.keys (JsMap.delete k m)) (JsMap.keys m).
Proof.
  induction m as [|[k' v'] m IH]; simpl; [done|].
  destruct (String.eqb_spec k' k) as [->|_]; simpl.
  - by apply sublist_cons.
  - by apply sublist_skip.
Qed.

Lemma keys_delete_NoDup k m :
  NoDup (JsMap.keys m) -> k ∉ JsMap.keys (JsMap.delete k m).
Proof.
  induction m as [|[k' v'] m IH]; simpl; intros Hnd.
  - apply not_elem_of_nil.
  - apply NoDup_cons in Hnd as [Hk' Hnd].
    destruct (String.eqb_spec k' k) as [->|Hne]; simpl; [done|].
    apply not_elem_of_cons. split; [congruence | by apply IH].
Qed.

Lemma elem_of_keys_delete k k' m :
  k' ≠ k -> k' ∈ JsMap.keys m -> k' ∈ JsMap.keys (JsMap.delete k m).
Proof.
  intros Hne. induction m as [|[k0 v0] m IH]; simpl; [done|].
  intros Hin. apply elem_of_cons in Hin as [->|Hin].
  - destruct (String.eqb_spec k0 k); [contradiction | left].
  - destruct (String.eqb_spec k0 k); [done | right; by apply IH].
Qed.

Lemma get_delete_NoDup k m :
  NoDup (JsMap.keys m) -> JsMap.get k (JsMap.delete k m) = None.
Proof. intros. by apply get_None_keys, keys_delete_NoDup. Qed.

Lemma size_delete k m :
  k ∈ JsMap.keys m -> S (JsMap.size (JsMap.delete k m)) = JsMap.size m.
Proof.
  unfold JsMap.size.
  induction m as [|[k' v'] m IH]; simpl; intros Hin.
  - by apply elem_of_nil in Hin.
  - destruct (String.eqb_spec k' k) as [->|Hne]; simpl; [done|].
    f_equal. apply IH. apply elem_of_cons in Hin as [->|]; [contradiction | done].
Qed.

Lemma size_delete_le k m : (JsMap.size (JsMap.delete k m) <= JsMap.size m)%nat.
Proof.
  pose proof (sublist_length _ _ (keys_delete_sublist k m)) as H.
  unfold JsMap.keys, JsMap.size in *. by rewrite !length_map in H.
Qed.

Lemma size_keys m : JsMap.size m = length (JsMap.keys m).
Proof. unfold JsMap.size, JsMap.keys. by rewrite length_map. Qed.

Lemma delete_first_key k m :
  JsMap.first_key m = Some k -> JsMap.keys (JsMap.delete k m) = tail (JsMap.keys m).
Proof.
  destruct m as [|[k' v'] m]; simpl; [done|].
  intros [= ->]. by rewrite eqb_string_refl.
Qed.


End JsMapFacts.

(** ** [scrubCache] *)

Section ScrubCacheFacts.
Import scrubCache.
Implicit Types (c : cache) (h : history) (k key : string) (f : string -> nat).

Lemma ascending_sublist f l1 l2 : sublist l1 l2 -> ascending f l2 -> ascending f l1.
Proof.
  induction 1 as [|x l1 l2 Hsub IH|x l1 l2 Hsub IH]; simpl; [done| |].
  - intros [Hall Hasc]. split; [|by apply IH].
    eapply Forall_forall. intros y Hy.
    eapply Forall_forall in Hall; [exact Hall|].
    by apply (sublist_subseteq _ _ Hsub).
  - intros [_ Hasc]. by apply IH.
Qed.

Lemma ascending_snoc f l k :
  ascending f l -> Forall (fun k' => (f k' < f k)%nat) l -> ascending f (l ++ [k]).
Proof.
  induction l as [|x l IH]; simpl; [done|].
  intros [Hall Hasc] Hlt. apply Forall_cons in Hlt as [Hx Hlt].
  split; [|by apply IH].
  apply Forall_app. split; [done|]. by apply Forall_singleton.
Qed.

Lemma ascending_upd f l k n :
  k ∉ l -> ascending f l -> ascending (upd f k n) l.
Proof.
  induction l as [|x l IH]; simpl; [done|].
  intros Hnin [Hall Hasc]. apply not_elem_of_cons in Hnin as [Hne Hnin].
  split; [|by apply IH].
  apply Forall_forall. intros y Hy. unfold upd.
  destruct (String.eqb_spec k x) as [->|_]; [done|].
  destruct (String.eqb_spec k y) as [->|_]; [done|].
  eapply Forall_forall in Hall; eauto.
Qed.


Lemma upd_eq f k n : upd f k n k = n.
Proof. unfold upd. by rewrite String.eqb_refl. Qed.

Lemma upd_ne f k k' n : k ≠ k' -> upd f k n k' = f k'.
Proof. unfold upd. intros. by destruct (String.eqb_spec k k'). Qed.

Lemma keys_evict_sublist c : sublist (JsMap.keys (evict c)) (JsMap.keys c).
Proof.
  unfold evict. destruct (maxSize <=? JsMap.size c)%nat; [|done].
  destruct (JsMap.first_key c); [apply keys_delete_sublist | done].
Qed.

Lemma size_evict c :
  (JsMap.size c <= maxSize)%nat -> (JsMap.size (evict c) < maxSize)%nat.
Proof.
  intros Hle. unfold evict.
  destruct (Nat.leb_spec maxSize (JsMap.size c)) as [Hge|Hlt]; [|done].
  destruct c as [|[k v] c]; simpl in *; [unfold maxSize in *; lia|].
  rewrite String.eqb_refl. unfold JsMap.size in *. simpl in *. lia.
Qed.

Lemma size_set_le {V} k (v : V) (m : JsMap.t V) :
  (JsMap.size (JsMap.set k v m) <= S (JsMap.size m))%nat.
Proof.
  rewrite !size_keys. destruct (decide (k ∈ JsMap.keys m)).
  - rewrite keys_set_present by done. lia.
  - rewrite keys_set_absent by done. rewrite length_app. simpl. lia.
Qed.

Lemma Forall_sublist {A} (P : A -> Prop) (l1 l2 : list A) :
  sublist l1 l2 -> Forall P l2 -> Forall P l1.
Proof.
  intros Hsub Hall. apply Forall_forall. intros x Hx.
  eapply Forall_forall in Hall; [exact Hall|].
  by apply (sublist_subseteq _ _ Hsub).
Qed.

Lemma Forall_clock_lt f (n : nat) l :
  Forall (fun k => (f k <= n)%nat) l -> Forall (fun k => (f k < S n)%nat) l.
Proof. intros H. eapply Forall_impl; [exact H|]. simpl. intros; lia. Qed.

Lemma Forall_upd_le f k n (m : nat) l :
  (n <= m)%nat -> Forall (fun k' => (f k' <= m)%nat) l ->
  Forall (fun k' => (upd f k n k' <= m)%nat) l.
Proof.
  intros Hn H. eapply Forall_impl; [exact H|]. simpl. intros k' Hk'. unfold upd.
  by destruct (String.eqb k k').
Qed.

Lemma Forall_upd_lt f k n l :
  k ∉ l -> Forall (fun k' => (f k' < n)%nat) l ->
  Forall (fun k' => (upd f k n k' < upd f k n k)%nat) l.
Proof.
  intros Hnin Hall. apply Forall_forall. intros k' Hk'.
  rewrite upd_eq, upd_ne by (intros ->; contradiction).
  eapply Forall_forall in Hall; eauto.
Qed.

Lemma inv_hinit : inv hinit.
Proof.
  split; simpl; [apply NoDup_nil_2 | done | done | unfold maxSize; lia].
Qed.

(** Moving or adding a key at the end of the Map with the stamp of the
    current call keeps the keys distinct and in stamp order. *)
Lemma touch_at_end f l k (now : nat) :
  NoDup l -> ascending f l -> Forall (fun k' => (f k' <= now)%nat) l -> k ∉ l ->
  NoDup (l ++ [k])
  /\ ascending (upd f k (S now)) (l ++ [k])
  /\ Forall (fun k' => (upd f k (S now) k' <= S now)%nat) (l ++ [k]).
Proof.
  intros Hnd Hasc Hclk Hnin. split_and!.
  - apply NoDup_app. split_and!; [done | | apply NoDup_singleton].
    intros x Hx Hx'. apply list_elem_of_singleton in Hx' as ->. contradiction.
  - apply ascending_snoc; [by apply ascending_upd|].
    apply Forall_upd_lt; [done|]. by apply Forall_clock_lt.
  - apply Forall_app. split.
    + apply Forall_upd_le; [lia|].
      eapply Forall_impl; [exact Hclk|]. simpl. intros; lia.
    + apply Forall_singleton. by rewrite upd_eq.
Qed.

(** Dropping keys keeps them distinct and in stamp order. *)
Lemma keep_sublist f l l' (now : nat) :
  sublist l' l ->
  NoDup l -> ascending f l -> Forall (fun k' => (f k' <= now)%nat) l ->
  NoDup l' /\ ascending f l' /\ Forall (fun k' => (f k' <= now)%nat) l'.
Proof.
  intros Hsub Hnd Hasc Hclk. split_and!.
  - eapply sublist_NoDup; eauto.
  - eapply ascending_sublist; eauto.
  - eapply Forall_sublist; eauto.
Qed.

Lemma Forall_clock_S f (now : nat) l :
  Forall (fun k => (f k <= now)%nat) l -> Forall (fun k => (f k <= S now)%nat) l.
Proof. intros H. eapply Forall_impl; [exact H|]. simpl. intros; lia. Qed.

Lemma inv_hstep h o : inv h -> inv (hstep h o).
Proof.
  intros [Hnd Hasc Hclk Hsz]. destruct o as [k|k v|k|]; simpl.
  - (* get *)
    unfold get, JsMap.has.
    destruct (JsMap.get k (contents h)) as [item|] eqn:Hget; simpl.
    + assert (Hin : k ∈ JsMap.keys (contents h)).
      { apply has_keys. unfold JsMap.has. by rewrite Hget. }
      destruct (keep_sublist _ _ _ _ (keys_delete_sublist k (contents h)) Hnd Hasc Hclk)
        as (Hnd' & Hasc' & Hclk').
      destruct (touch_at_end _ _ k _ Hnd' Hasc' Hclk' (keys_delete_NoDup k _ Hnd))
        as (H1 & H2 & H3).
      split; simpl; rewrite ?keys_set_absent by (by apply keys_delete_NoDup);
        [done | done | done |].
      pose proof (size_set_le k item (JsMap.delete k (contents h))).
      pose proof (size_delete k _ Hin). lia.
    + split; simpl; [done | done | by apply Forall_clock_S | done].
  - (* set *)
    unfold set, creates.
    destruct (keep_sublist _ _ _ _ (keys_evict_sublist (contents h)) Hnd Hasc Hclk)
      as (Hnd' & Hasc' & Hclk').
    pose proof (size_evict _ Hsz) as Hlt.
    destruct (JsMap.has k (evict (contents h))) eqn:Hhas; simpl.
    + apply has_keys in Hhas.
      split; simpl; rewrite ?keys_set_present by done;
        [done | done | by apply Forall_clock_S |].
      rewrite size_keys, keys_set_present, <- size_keys by done. lia.
    + apply has_false_keys in Hhas.
      destruct (touch_at_end _ _ k _ Hnd' Hasc' Hclk' Hhas) as (H1 & H2 & H3).
      split; simpl; rewrite ?keys_set_absent by done; [done | done | done |].
      pose proof (size_set_le k v (evict (contents h))). lia.
  - (* delete *)
    unfold delete.
    destruct (keep_sublist _ _ _ _ (keys_delete_sublist k (contents h)) Hnd Hasc Hclk)
      as (Hnd' & Hasc' & Hclk').
    split; simpl; [done | done | by apply Forall_clock_S |].
    pose proof (size_delete_le k (contents h)). lia.
  - (* clear *)
    split; simpl; [apply NoDup_nil_2 | done | done | unfold maxSize; lia].
Qed.

Lemma fold_left_snoc {A B} (f : A -> B -> A) l x a :
  fold_left f (l ++ [x]) a = f (fold_left f l a) x.
Proof. by rewrite fold_left_app. Qed.

Lemma inv_hrun ops : inv (hrun ops).
Proof.
  induction ops as [|o ops IH] using rev_ind; [apply inv_hinit|].
  unfold hrun. rewrite fold_left_snoc. by apply inv_hstep.
Qed.

Lemma contents_hstep h o : contents (hstep h o) = step (contents h) o.
Proof. by destruct o. Qed.

Lemma contents_hrun ops : contents (hrun ops) = run ops.
Proof.
  induction ops as [|o ops IH] using rev_ind; [done|].
  unfold hrun, run in *. by rewrite !fold_left_snoc, contents_hstep, IH.
Qed.

Lemma evicted_first c o :
  evicted c = Some o -> JsMap.first_key c = Some o /\ (maxSize <= JsMap.size c)%nat.
Proof.
  unfold evicted. destruct (Nat.leb_spec maxSize (JsMap.size c)); [|done]. done.
Qed.

Lemma evict_evicted c o : evicted c = Some o -> evict c = JsMap.delete o c.
Proof.
  intros H. destruct (evicted_first _ _ H) as [Hf Hsz]. unfold evict.
  destruct (Nat.leb_spec maxSize (JsMap.size c)); [|lia]. by rewrite Hf.
Qed.

Lemma evict_not_evicted c : evicted c = None -> evict c = c.
Proof.
  unfold evicted, evict. destruct (maxSize <=? JsMap.size c)%nat; [|done].
  by intros ->.
Qed.

Lemma keys_get_hit key c :
  NoDup (JsMap.keys c) -> key ∈ JsMap.keys c ->
  JsMap.keys (snd (get key c)) = (JsMap.keys (JsMap.delete key c) ++ [key])%list.
Proof.
  intros Hnd Hin. unfold get.
  destruct (JsMap.get key c) as [item|] eqn:Hget.
  - simpl. apply keys_set_absent. by apply keys_delete_NoDup.
  - apply get_None_keys in Hget. contradiction.
Qed.



(** C10 (what the code does). A set on a key that is already cached still
    evicts the oldest entry when the cache is full, and leaves the order of
    the remaining keys as it was, so the overwritten key is not promoted;
    below capacity the Map order does not change at all. The one exception:
    when the key is itself the oldest entry of a full cache, it is evicted
    and inserted again, which puts it at the most-recently-used end. A get
    that hits always moves its key to that end. And there is a run in which
    the key of the latest set is the entry the next eviction removes. *)
Theorem scrubCache_overwrite_keeps_order :
  (forall ops key value,
      key ∈ JsMap.keys (run ops) ->
      (forall o, evicted (run ops) = Some o -> o <> key ->
         JsMap.has o (set key value (run ops)) = false
         /\ JsMap.keys (set key value (run ops)) = JsMap.keys (JsMap.delete o (run ops)))
      /\ (evicted (run ops) = None ->
          JsMap.keys (set key value (run ops)) = JsMap.keys (run ops))
      /\ (evicted (run ops) = Some key ->
          JsMap.keys (set key value (run ops)) = (tail (JsMap.keys (run ops)) ++ [key])%list)
      /\ JsMap.keys (snd (get key (run ops)))
         = (JsMap.keys (JsMap.delete key (run ops)) ++ [key])%list)
  /\ (exists ops key value fresh,
        key ∈ JsMap.keys (run ops)
        /\ evicted (run (ops ++ [Set_ key value])) = None
        /\ evicted (run (ops ++ [Set_ key value; Set_ fresh []])) = Some key).
Proof.
  split.
  - intros ops key value Hin.
    pose proof (inv_hrun ops) as [Hnd _ _ _]. rewrite contents_hrun in Hnd.
    split_and!.
    + intros o Hev Hne. unfold set. rewrite (evict_evicted _ _ Hev). split.
      * unfold JsMap.has. rewrite get_set_ne by done.
        by rewrite get_delete_NoDup.
      * apply keys_set_present. apply elem_of_keys_delete; [congruence | done].
    + intros Hev. unfold set. rewrite (evict_not_evicted _ Hev).
      by apply keys_set_present.
    + intros Hev. unfold set. rewrite (evict_evicted _ _ Hev).
      destruct (evicted_first _ _ Hev) as [Hfirst _].
      rewrite keys_set_absent by (by apply keys_delete_NoDup).
      by rewrite (delete_first_key _ _ Hfirst).
    + by apply keys_get_hit.
  - exists (fill 150), "1", ["x"], "new". split_and!.
    + apply has_keys. by vm_compute.
    + by vm_compute.
    + by vm_compute.
Qed.

Lemma scrubCache_overwrite_keeps_order_witness :
  JsMap.keys (set "1" ["x"] (run (fill 3))) = ["0"; "1"; "2"].
Proof.
  assert (Hin : "1" ∈ JsMap.keys (run (fill 3))) by (apply has_keys; by vm_compute).
  destruct (proj1 scrubCache_overwrite_keeps_order (fill 3) "1" ["x"] Hin)
    as (_ & H & _).
  rewrite H; [by vm_compute | by vm_compute].
Defined.

(** C10 as stated fails when the overwritten key is the oldest entry of a
    full cache: the set moves it from the least- to the most-recently-used
    end. *)
Lemma scrubCache_overwrite_promotes_oldest :
  let c := run (fill 150) in
  JsMap.has "0" c = true
  /\ head (JsMap.keys c) = Some "0"
  /\ last (JsMap.keys c) = Some "149"
  /\ last (JsMap.keys (set "0" ["x"] c)) = Some "0".
Proof. by vm_compute. Qed.

End ScrubCacheFacts.

(** ** dbService *)

Section StoreFacts.
Import dbService.
Implicit Types (d : db) (v video : VideoData) (vs videos : list VideoData).

Lemma put_all_snoc vs v store :
  put_all (vs ++ [v]) store = <[id v := videoMetadata v]> (put_all vs store).
Proof. unfold put_all. by rewrite fold_left_app. Qed.

Lemma VIDEOS_batch vs d : VIDEOS (batchUpdateVideos vs d) = put_all vs (VIDEOS d).
Proof. done. Qed.

(** A key no record of the batch has keeps its stored object. *)
Lemma put_all_untouched vs store k :
  (forall x, x ∈ vs -> id x <> k) -> put_all vs store !! k = store !! k.
Proof.
  induction vs as [|v vs IH] using rev_ind; intros Hk; [done|].
  rewrite put_all_snoc, lookup_insert_ne.
  - apply IH. intros x Hx. apply Hk, elem_of_app. by left.
  - apply Hk, elem_of_app. right. by apply list_elem_of_singleton.
Qed.

(** What is stored under a key afterwards was either written by the batch or
    was there before and not written. *)
Lemma put_all_lookup vs store k s :
  put_all vs store !! k = Some s ->
  (exists x, x ∈ vs /\ id x = k /\ s = videoMetadata x)
  \/ (store !! k = Some s /\ forall x, x ∈ vs -> id x <> k).
Proof.
  induction vs as [|v vs IH] using rev_ind; intros Hk.
  - right. split; [done|]. intros x Hx. by apply elem_of_nil in Hx.
  - rewrite put_all_snoc in Hk. destruct (decide (id v = k)) as [<-|Hne].
    + rewrite lookup_insert_eq in Hk. injection Hk as <-.
      left. exists v. split_and!; [|done|done].
      apply elem_of_app. right. by apply list_elem_of_singleton.
    + rewrite lookup_insert_ne in Hk by done.
      destruct (IH Hk) as [(x & Hx & Hid & Hs)|[Hs Hall]].
      * left. exists x. split_and!; [|done|done]. apply elem_of_app. by left.
      * right. split; [done|]. intros x Hx.
        apply elem_of_app in Hx as [Hx|Hx]; [by apply Hall|].
        apply list_elem_of_singleton in Hx as ->. done.
Qed.

(** A record of the batch whose key no other record of the batch shares is
    what the store holds under that key afterwards. *)
Lemma put_all_written vs store x :
  x ∈ vs -> (forall y, y ∈ vs -> id y = id x -> y = x) ->
  put_all vs store !! id x = Some (videoMetadata x).
Proof.
  induction vs as [|v vs IH] using rev_ind; intros Hx Huniq.
  - by apply elem_of_nil in Hx.
  - rewrite put_all_snoc. destruct (decide (id v = id x)) as [Heq|Hne].
    + assert (v = x) as ->.
      { apply Huniq; [|done]. apply elem_of_app. right.
        by apply list_elem_of_singleton. }
      by rewrite lookup_insert_eq.
    + rewrite lookup_insert_ne by done. apply IH.
      * apply elem_of_app in Hx as [Hx|Hx]; [done|].
        apply list_elem_of_singleton in Hx as ->. done.
      * intros y Hy. apply Huniq, elem_of_app. by left.
Qed.

(** A batch never removes a key. *)
Lemma put_all_is_Some vs store k :
  is_Some (store !! k) -> is_Some (put_all vs store !! k).
Proof.
  induction vs as [|v vs IH] using rev_ind; intros Hk; [done|].
  rewrite put_all_snoc. destruct (decide (id v = k)) as [<-|Hne].
  - rewrite lookup_insert_eq. by eexists.
  - rewrite lookup_insert_ne by done. by apply IH.
Qed.

(** Writing what is stored already changes nothing. *)
Lemma put_all_same vs store :
  (forall x, x ∈ vs -> store !! id x = Some (videoMetadata x)) ->
  put_all vs store = store.
Proof.
  induction vs as [|v vs IH] using rev_ind; intros Hall; [done|].
  rewrite put_all_snoc, IH.
  - apply insert_id, Hall, elem_of_app. right. by apply list_elem_of_singleton.
  - intros x Hx. apply Hall, elem_of_app. by left.
Qed.

(** C8. An upsert of a record whose [thumbnail] is [null] writes the metadata
    object and leaves the primary-thumbnail store (and the timeline store) as
    it was; a batch update stores every record without its thumbnail and
    leaves both thumbnail stores as they were, whatever the records carry. *)
Theorem upsert_without_thumbnail_keeps_thumbnail_store :
  (forall video d,
      thumbnail video = None ->
      MAIN_THUMBNAILS (upsertVideo video d) = MAIN_THUMBNAILS d
      /\ TIMELINE_THUMBNAILS (upsertVideo video d) = TIMELINE_THUMBNAILS d
      /\ VIDEOS (upsertVideo video d) = <[id video := videoMetadata video]> (VIDEOS d))
  /\ (forall videos d,
        MAIN_THUMBNAILS (batchUpdateVideos videos d) = MAIN_THUMBNAILS d
        /\ TIMELINE_THUMBNAILS (batchUpdateVideos videos d) = TIMELINE_THUMBNAILS d
        /\ forall k s,
             VIDEOS (batchUpdateVideos videos d) !! k = Some s ->
             VIDEOS d !! k = Some s
             \/ thumbnail s = None /\ exists x, x ∈ videos /\ id x = k /\ s = videoMetadata x).
Proof.
  split.
  - intros video d Hnull. unfold upsertVideo. simpl. by rewrite Hnull.
  - intros videos d. split_and!; [done | done |].
    intros k s Hk. rewrite VIDEOS_batch in Hk.
    destruct (put_all_lookup _ _ _ _ Hk) as [(x & Hx & Hid & ->)|[Hs _]].
    + right. split; [done|]. by exists x.
    + by left.
Qed.

Lemma upsert_without_thumbnail_keeps_thumbnail_store_witness :
  MAIN_THUMBNAILS (upsertVideo Sample.cat (Sample.store [Sample.cat]))
  = MAIN_THUMBNAILS (Sample.store [Sample.cat]).
Proof.
  apply (proj1 upsert_without_thumbnail_keeps_thumbnail_store).
  reflexivity.
Defined.

End StoreFacts.

(** ** The sync pass *)

Section ListFacts.

Lemma map_fmap {A B} (f : A -> B) (l : list A) : map f l = f <$> l.
Proof. induction l; simpl; by f_equal. Qed.

Lemma elem_of_map {A B} (f : A -> B) (l : list A) y :
  y ∈ map f l <-> exists x, y = f x /\ x ∈ l.
Proof. rewrite map_fmap. apply list_elem_of_fmap. Qed.

Lemma elem_of_flat_map {A B} (f : A -> list B) (l : list A) y :
  y ∈ flat_map f l <-> exists x, x ∈ l /\ y ∈ f x.
Proof.
  rewrite list_elem_of_In, in_flat_map.
  split; intros (x & H1 & H2); exists x; split; by apply list_elem_of_In.
Qed.

(** Elements of a list that [f] maps without repetition are told apart by
    [f]. *)
Lemma NoDup_map_inj {A B} (f : A -> B) (l : list A) x y :
  NoDup (map f l) -> x ∈ l -> y ∈ l -> f x = f y -> x = y.
Proof.
  induction l as [|a l IH]; simpl; intros Hnd Hx Hy Heq.
  - by apply elem_of_nil in Hx.
  - apply NoDup_cons in Hnd as [Ha Hnd].
    apply elem_of_cons in Hx as [->|Hx]; apply elem_of_cons in Hy as [->|Hy].
    + done.
    + exfalso. apply Ha. rewrite Heq. apply elem_of_map. by exists y.
    + exfalso. apply Ha. rewrite <- Heq. apply elem_of_map. by exists x.
    + by apply IH.
Qed.

Lemma NoDup_map_lookup {A B} (f : A -> B) (l : list A) i j x y :
  NoDup (map f l) -> l !! i = Some x -> l !! j = Some y -> f x = f y -> i = j.
Proof.
  intros Hnd Hi Hj Heq. rewrite map_fmap in Hnd.
  eapply NoDup_lookup; [exact Hnd| |].
  - rewrite list_lookup_fmap, Hi. reflexivity.
  - rewrite list_lookup_fmap, Hj. simpl. by rewrite Heq.
Qed.

End ListFacts.

Section JsMapOfList.
Context {V : Type}.
Implicit Types (l : list (string * V)) (k : string) (v : V).

Lemma of_list_snoc l k v :
  JsMap.of_list (l ++ [(k, v)]) = JsMap.set k v (JsMap.of_list l).
Proof. unfold JsMap.of_list. by rewrite fold_left_app. Qed.

Lemma get_of_list_Some l k v :
  JsMap.get k (JsMap.of_list l) = Some v -> (k, v) ∈ l.
Proof.
  induction l as [|[k' v'] l IH] using rev_ind; [done|].
  rewrite of_list_snoc. destruct (decide (k' = k)) as [->|Hne].
  - rewrite get_set_eq. intros [= ->]. apply elem_of_app. right.
    by apply list_elem_of_singleton.
  - rewrite get_set_ne by done. intros H. apply elem_of_app. left. by apply IH.
Qed.

Lemma get_of_list_None l k v :
  JsMap.get k (JsMap.of_list l) = None -> (k, v) ∉ l.
Proof.
  induction l as [|[k' v'] l IH] using rev_ind; [intros _; apply not_elem_of_nil|].
  rewrite of_list_snoc. destruct (decide (k' = k)) as [->|Hne].
  - by rewrite get_set_eq.
  - rewrite get_set_ne by done. intros H Hin.
    apply elem_of_app in Hin as [Hin|Hin]; [by apply IH in Hin|].
    apply list_elem_of_singleton in Hin. congruence.
Qed.

(** With one value per key in the list of pairs, the Map returns it. *)
Lemma get_of_list_unique l k v :
  (k, v) ∈ l -> (forall v', (k, v') ∈ l -> v' = v) ->
  JsMap.get k (JsMap.of_list l) = Some v.
Proof.
  intros Hin Huniq.
  destruct (JsMap.get k (JsMap.of_list l)) as [v'|] eqn:Hget.
  - f_equal. by apply Huniq, get_of_list_Some.
  - by apply (get_of_list_None _ _ v) in Hget.
Qed.

End JsMapOfList.

Section VideoDataFacts.
Import dbService.
Implicit Types (v s : VideoData).

Lemma or_number_zero x : or_number x 0 = x.
Proof. unfold or_number. destruct (Z.eqb_spec x 0); congruence. Qed.

Lemma or_number_nonzero x y : x <> 0 -> or_number x y = x.
Proof. unfold or_number. intros. by destruct (Z.eqb_spec x 0). Qed.

Lemma or_string_nonempty x y : x <> "" -> or_string x y = x.
Proof. by destruct x. Qed.

Lemma or_null_idem {A} (o : option A) falsy : or_null (or_null o falsy) falsy = or_null o falsy.
Proof.
  destruct o as [a|]; simpl; [|done].
  destruct (falsy a) eqn:E; simpl; [done | by rewrite E].
Qed.

Lemma id_applyVideoDefaults s : id (applyVideoDefaults s) = id s.
Proof. done. Qed.

Lemma relativePath_applyVideoDefaults s :
  relativePath (applyVideoDefaults s) = relativePath s.
Proof. done. Qed.

Lemma notFound_applyVideoDefaults s : notFound (applyVideoDefaults s) = notFound s.
Proof. done. Qed.

Lemma elem_of_getAllVideos d v :
  v ∈ getAllVideos d <-> exists k s, VIDEOS d !! k = Some s /\ v = applyVideoDefaults s.
Proof.
  unfold getAllVideos. rewrite elem_of_map. split.
  - intros ([k s] & -> & Hin). apply elem_of_map_to_list in Hin. by exists k, s.
  - intros (k & s & Hk & ->). exists (k, s). split; [done|].
    by apply elem_of_map_to_list.
Qed.

End VideoDataFacts.

Section SyncFacts.
Import dbService Sync.
Implicit Types (e r x w : VideoData) (f : File.t) (p u : string) (n : Z).

(** The branch that would write a refreshed duration can never fire:
    [newDuration] is the stored duration unless that is 0, and then it is
    [null]. *)
Lemma duration_branch_dead e :
  negb (bool_decide (duration e = newDuration (Some e)))
  && negb (bool_decide (newDuration (Some e) = None)) = false.
Proof.
  unfold newDuration, or_null. destruct (duration e) as [q|]; [|done].
  destruct (zero_seconds q).
  - rewrite (bool_decide_eq_true_2 (None = None)) by done. apply andb_false_r.
  - by rewrite bool_decide_eq_true_2.
Qed.

Lemma processFile_unneeded E thumbs u n p f g :
  needs (JsMap.get p E) thumbs f = (false, g) ->
  processFile E thumbs u n (p, f) = ([], []).
Proof.
  intros Hneeds. unfold processFile. rewrite Hneeds.
  destruct (JsMap.get p E) as [e|]; [|done].
  by rewrite duration_branch_dead.
Qed.

Lemma processFile_needed E thumbs u n p f g :
  needs (JsMap.get p E) thumbs f = (true, g) ->
  fst (processFile E thumbs u n (p, f)) = [videoData (JsMap.get p E) u n p f].
Proof. intros Hneeds. unfold processFile. by rewrite Hneeds. Qed.

Lemma fst_processFile E thumbs u n p f :
  fst (processFile E thumbs u n (p, f))
  = if fst (needs (JsMap.get p E) thumbs f)
    then [videoData (JsMap.get p E) u n p f] else [].
Proof.
  destruct (needs (JsMap.get p E) thumbs f) as [[] g] eqn:Hneeds.
  - by rewrite (processFile_needed _ _ _ _ _ _ g Hneeds).
  - by rewrite (processFile_unneeded _ _ _ _ _ _ g Hneeds).
Qed.

Lemma fst_processFiles_cons E thumbs uuid now i entry rest :
  fst (processFiles E thumbs uuid now i (entry :: rest))
  = (fst (processFile E thumbs (uuid i) (now i) entry)
     ++ fst (processFiles E thumbs uuid now (S i) rest))%list.
Proof.
  simpl. destruct (processFile _ _ _ _ entry) as [b g].
  by destruct (processFiles _ _ _ _ (S i) rest) as [bs gs].
Qed.

Lemma elem_of_processFiles E thumbs uuid now i0 entries x :
  x ∈ fst (processFiles E thumbs uuid now i0 entries) <->
  exists j p f,
    entries !! j = Some (p, f)
    /\ fst (needs (JsMap.get p E) thumbs f) = true
    /\ x = videoData (JsMap.get p E) (uuid (i0 + j)%nat) (now (i0 + j)%nat) p f.
Proof.
  revert i0. induction entries as [|[p0 f0] rest IH]; intros i0.
  - simpl. split; [intros H; by apply elem_of_nil in H|].
    by intros (j & p & f & Hj & _).
  - rewrite fst_processFiles_cons, elem_of_app, fst_processFile, IH. split.
    + intros [Hx|(j & p & f & Hj & Hn & ->)].
      * destruct (fst (needs (JsMap.get p0 E) thumbs f0)) eqn:Hn;
          [|by apply elem_of_nil in Hx].
        apply list_elem_of_singleton in Hx as ->.
        exists 0%nat, p0, f0. by rewrite Nat.add_0_r.
      * exists (S j), p, f. split_and!; [done | done |].
        by replace (i0 + S j)%nat with (S i0 + j)%nat by lia.
    + intros ([|j] & p & f & Hj & Hn & ->).
      * injection Hj as -> ->. left. rewrite Hn, Nat.add_0_r.
        by apply list_elem_of_singleton.
      * right. exists j, p, f. split_and!; [done | done |].
        by replace (i0 + S j)%nat with (S i0 + j)%nat by lia.
Qed.

Lemma elem_of_markNotFound paths R x :
  x ∈ markNotFound paths R <->
  exists r, r ∈ R /\ (relativePath r ∉ paths) /\ notFound r = false
            /\ x = with_notFound true r.
Proof.
  unfold markNotFound. rewrite elem_of_flat_map. split.
  - intros (r & Hr & Hx). exists r.
    destruct (decide (relativePath r ∈ paths)) as [Hin|Hnin].
    + rewrite bool_decide_eq_true_2 in Hx by done. by apply elem_of_nil in Hx.
    + rewrite bool_decide_eq_false_2 in Hx by done.
      destruct (notFound r); simpl in Hx; [by apply elem_of_nil in Hx|].
      apply list_elem_of_singleton in Hx. done.
  - intros (r & Hr & Hnin & Hnf & ->). exists r. split; [done|].
    rewrite bool_decide_eq_false_2 by done. rewrite Hnf. simpl.
    by apply list_elem_of_singleton.
Qed.

Lemma id_videoData_existing e u n p f :
  id e <> "" -> id (videoData (Some e) u n p f) = id e.
Proof. intros. simpl. by apply or_string_nonempty. Qed.

Lemma id_videoData_new u n p f : id (videoData None u n p f) = u.
Proof. done. Qed.

Lemma dateAdded_videoData o u n p f : n <> 0 -> dateAdded (videoData o u n p f) <> 0.
Proof.
  intros Hn. simpl. unfold or_number.
  by destruct (Z.eqb_spec (from_option dateAdded 0 o) 0).
Qed.

(** Reading back a record the pass has written gives the record. *)
Lemma defaults_videoData o u n p f :
  n <> 0 ->
  applyVideoDefaults (videoMetadata (videoData o u n p f)) = videoData o u n p f.
Proof.
  intros Hn. pose proof (dateAdded_videoData o u n p f Hn) as Hd.
  unfold applyVideoDefaults, videoMetadata, with_contentHash, with_dateAdded,
    with_thumbnail. simpl in *.
  by rewrite (or_number_nonzero _ _ Hd).
Qed.

(** Rebuilding a record the pass has built, for the same file, gives it
    again. *)
Lemma videoData_idem o u n u' n' p f :
  id (videoData o u n p f) <> "" -> n <> 0 ->
  videoData (Some (videoData o u n p f)) u' n' p f = videoData o u n p f.
Proof.
  intros Hid Hn. pose proof (dateAdded_videoData o u n p f Hn) as Hd.
  unfold videoData in *. simpl in *.
  rewrite (or_string_nonempty _ _ Hid), (or_number_nonzero _ _ Hd).
  rewrite !or_number_zero, !orb_false_r, <- !orb_assoc, orb_diag.
  f_equal. destruct o as [e|]; simpl; [apply or_null_idem | done].
Qed.

(** What the rebuilt record of an observed file takes over from the stored
    one: everything the user entered, except that [hidden] is or-ed with
    [isJpg]. *)
Remark videoData_existing_fields e u n p f :
  let w := videoData (Some e) u n p f in
  rating w = rating e /\ seen w = seen e /\ tags w = tags e
  /\ hearted w = hearted e /\ deleted w = deleted e /\ title w = title e
  /\ currentTime w = currentTime e /\ timesOpened w = timesOpened e
  /\ hidden w = hidden e || isJpg f.
Proof.
  simpl. rewrite !or_number_zero, !orb_false_r. done.
Qed.


(** *** Two passes over the same folder *)

Section TwoPasses.
Variables (d : db) (files : list File.t).
Variables (uuid1 : nat -> string) (now1 : nat -> Z).
Hypothesis Hwf : wf_store d.
Hypothesis Hpaths : distinct_paths files.
Hypothesis Hfresh : fresh_ids uuid1 (length (fileEntries files)) d.
Hypothesis Hclock : clock_started now1 (length (fileEntries files)).

Local Abbreviation R := (getAllVideos d).
Local Abbreviation E := (existingVideosMap (getAllVideos d)).
Local Abbreviation entries := (fileEntries files).
Local Abbreviation paths := (map fst (fileEntries files)).
Local Abbreviation thumbs := (getAllMainThumbnails d).
Local Abbreviation batch1 := (videosToBatchUpdate uuid1 now1 files d).
Local Abbreviation d' := (db_after uuid1 now1 files d).
Local Abbreviation R' := (getAllVideos (db_after uuid1 now1 files d)).
Local Abbreviation E' := (existingVideosMap (getAllVideos (db_after uuid1 now1 files d))).

Lemma plan_unfold uuid now fs (d0 : db) :
  fst (plan uuid now fs d0)
  = (fst (processFiles (existingVideosMap (getAllVideos d0)) (getAllMainThumbnails d0)
            uuid now 0 (fileEntries fs))
     ++ markNotFound (map fst (fileEntries fs)) (getAllVideos d0))%list.
Proof. unfold plan. by destruct (processFiles _ _ _ _ _ _). Qed.

Lemma db_after_unfold uuid now fs (d0 : db) :
  db_after uuid now fs d0 = batchUpdateVideos (videosToBatchUpdate uuid now fs d0) d0.
Proof.
  unfold db_after, scanFiles, videosToBatchUpdate.
  by destruct (plan uuid now fs d0).
Qed.

Lemma R_stored e : e ∈ R -> exists s, VIDEOS d !! id e = Some s /\ e = applyVideoDefaults s.
Proof.
  intros (k & s & Hk & ->)%elem_of_getAllVideos. exists s. split; [|done].
  destruct Hwf as [Hkey _]. destruct (Hkey _ _ Hk) as [Hid _].
  by rewrite id_applyVideoDefaults, Hid.
Qed.

Lemma R_id_nonempty e : e ∈ R -> id e <> "".
Proof.
  intros (k & s & Hk & ->)%elem_of_getAllVideos.
  destruct Hwf as [Hkey _]. destruct (Hkey _ _ Hk) as [Hid Hne].
  by rewrite id_applyVideoDefaults, Hid.
Qed.

Lemma R_id_inj e e' : e ∈ R -> e' ∈ R -> id e = id e' -> e = e'.
Proof.
  intros (s & Hs & ->)%R_stored (s' & Hs' & ->)%R_stored Hid.
  rewrite !id_applyVideoDefaults in *. rewrite Hid in Hs. congruence.
Qed.

Lemma R_path_inj e e' : e ∈ R -> e' ∈ R -> relativePath e = relativePath e' -> e = e'.
Proof. destruct Hwf as [_ Hnd]. by apply NoDup_map_inj. Qed.

Lemma lookup_E p e : JsMap.get p E = Some e -> e ∈ R /\ relativePath e = p.
Proof.
  intros H%get_of_list_Some. apply elem_of_map in H as (e' & [= -> ->] & He').
  done.
Qed.

Lemma lookup_E_elem e : e ∈ R -> JsMap.get (relativePath e) E = Some e.
Proof.
  intros He. apply get_of_list_unique.
  - apply elem_of_map. by exists e.
  - intros e' (e0 & [= Hp ->] & He0)%elem_of_map. by apply R_path_inj.
Qed.

Lemma entry_path j p f : entries !! j = Some (p, f) -> paths !! j = Some p /\ p ∈ paths.
Proof.
  intros Hj. assert (paths !! j = Some p) as Hp.
  { by rewrite map_fmap, list_lookup_fmap, Hj. }
  split; [done | by eapply list_elem_of_lookup_2].
Qed.

Lemma entry_inj i j p f f' :
  entries !! i = Some (p, f) -> entries !! j = Some (p, f') -> i = j /\ f = f'.
Proof.
  intros Hi Hj.
  assert (i = j) as ->.
  { eapply (NoDup_map_lookup fst entries); [exact Hpaths | exact Hi | exact Hj | done]. }
  split; [done | congruence].
Qed.

Lemma entry_index j p f : entries !! j = Some (p, f) -> (j < length (fileEntries files))%nat.
Proof. intros H. by apply lookup_lt_Some in H. Qed.

Lemma uuid1_fresh j :
  (j < length (fileEntries files))%nat -> uuid1 j <> "" /\ VIDEOS d !! uuid1 j = None.
Proof.
  intros Hj. destruct Hfresh as [_ Hall].
  eapply Forall_forall in Hall; [exact Hall|].
  apply elem_of_map. exists j. split; [done|]. apply elem_of_seq. lia.
Qed.

Lemma uuid1_inj i j :
  (i < length (fileEntries files))%nat -> (j < length (fileEntries files))%nat ->
  uuid1 i = uuid1 j -> i = j.
Proof.
  intros Hi Hj Heq. destruct Hfresh as [Hnd _].
  eapply (NoDup_map_inj uuid1 (seq 0 (length (fileEntries files)))); eauto;
    apply elem_of_seq; lia.
Qed.

Lemma now1_started j : (j < length (fileEntries files))%nat -> now1 j <> 0.
Proof.
  intros Hj. eapply Forall_forall in Hclock; [exact Hclock|].
  apply elem_of_seq. lia.
Qed.

(** The records of the first plan: one per observed file that needs an
    update, and one per stored record whose path was not observed. *)
Lemma batch1_elem x :
  x ∈ batch1 <->
  (exists j p f,
      entries !! j = Some (p, f)
      /\ fst (needs (JsMap.get p E) thumbs f) = true
      /\ x = videoData (JsMap.get p E) (uuid1 j) (now1 j) p f)
  \/ (exists r, r ∈ R /\ (relativePath r ∉ paths) /\ notFound r = false
                 /\ x = with_notFound true r).
Proof.
  unfold videosToBatchUpdate. rewrite plan_unfold, elem_of_app.
  by rewrite elem_of_processFiles, elem_of_markNotFound.
Qed.

(** The identifier of a record written for an observed file: the one of the
    stored record with that path, or else a fresh one. *)
Lemma id_written_file j p f :
  entries !! j = Some (p, f) ->
  (exists e, JsMap.get p E = Some e /\ e ∈ R /\ relativePath e = p
             /\ id (videoData (JsMap.get p E) (uuid1 j) (now1 j) p f) = id e)
  \/ (JsMap.get p E = None
      /\ id (videoData (JsMap.get p E) (uuid1 j) (now1 j) p f) = uuid1 j
      /\ VIDEOS d !! uuid1 j = None /\ uuid1 j <> "").
Proof.
  intros Hj. destruct (JsMap.get p E) as [e|] eqn:Hget.
  - left. exists e. destruct (lookup_E _ _ Hget) as [He Hp].
    split_and!; [done | done | done |].
    apply id_videoData_existing. by apply R_id_nonempty.
  - right. destruct (uuid1_fresh j (entry_index _ _ _ Hj)) as [Hne Hnone].
    done.
Qed.

Lemma id_written_file_nonempty j p f :
  entries !! j = Some (p, f) ->
  id (videoData (JsMap.get p E) (uuid1 j) (now1 j) p f) <> "".
Proof.
  intros Hj.
  destruct (id_written_file _ _ _ Hj) as [(e & _ & He & _ & ->)|(_ & -> & _ & Hne)];
    [by apply R_id_nonempty | done].
Qed.

Lemma stored_not_fresh e j :
  e ∈ R -> (j < length entries)%nat -> id e <> uuid1 j.
Proof.
  intros (s & Hs & _)%R_stored Hj Heq.
  destruct (uuid1_fresh j Hj) as [_ Hnone]. congruence.
Qed.

(** No two records of the first plan share an identifier. *)
Lemma batch1_id_inj x y : x ∈ batch1 -> y ∈ batch1 -> id x = id y -> x = y.
Proof.
  intros [(j & p & f & Hj & Hn & ->)|(r & Hr & Hp & Hnf & ->)]%batch1_elem
         [(j' & p' & f' & Hj' & Hn' & ->)|(r' & Hr' & Hp' & Hnf' & ->)]%batch1_elem Hid.
  - destruct (id_written_file _ _ _ Hj) as [(e & Hg & He & Hpe & Hide)|(Hg & Hide & _)];
    destruct (id_written_file _ _ _ Hj') as [(e' & Hg' & He' & Hpe' & Hide')|(Hg' & Hide' & _)];
    rewrite Hide, Hide' in Hid.
    + assert (e = e') as <- by by apply R_id_inj.
      assert (p = p') as <- by congruence.
      destruct (entry_inj _ _ _ _ _ Hj Hj') as [<- <-]. done.
    + exfalso. eapply stored_not_fresh; [exact He | | exact Hid].
      by eapply entry_index.
    + exfalso. eapply stored_not_fresh; [exact He' | | symmetry; exact Hid].
      by eapply entry_index.
    + assert (j = j') as <-.
      { apply uuid1_inj; [by eapply entry_index | by eapply entry_index | done]. }
      assert ((p, f) = (p', f')) as [= <- <-] by congruence. done.
  - exfalso. change (id (with_notFound true r')) with (id r') in Hid.
    destruct (id_written_file _ _ _ Hj) as [(e & Hg & He & Hpe & Hide)|(Hg & Hide & _)];
      rewrite Hide in Hid.
    + assert (e = r') as -> by by apply R_id_inj.
      apply Hp'. rewrite Hpe. by eapply entry_path.
    + eapply stored_not_fresh; [exact Hr' | | symmetry; exact Hid].
      by eapply entry_index.
  - exfalso. change (id (with_notFound true r)) with (id r) in Hid.
    destruct (id_written_file _ _ _ Hj') as [(e & Hg & He & Hpe & Hide)|(Hg & Hide & _)];
      rewrite Hide in Hid.
    + assert (r = e) as -> by by apply R_id_inj.
      apply Hp. rewrite Hpe. by eapply entry_path.
    + eapply stored_not_fresh; [exact Hr | | exact Hid].
      by eapply entry_index.
  - change (id r = id r') in Hid. f_equal. by apply R_id_inj.
Qed.

(** Every record of the first plan is what the store holds under its
    identifier after the pass. *)
Lemma stored_after x : x ∈ batch1 -> VIDEOS d' !! id x = Some (videoMetadata x).
Proof.
  intros Hx. rewrite db_after_unfold, VIDEOS_batch.
  apply put_all_written; [done|]. intros y Hy Hid. by apply batch1_id_inj.
Qed.

Lemma untouched_after k :
  (forall x, x ∈ batch1 -> id x <> k) -> VIDEOS d' !! k = VIDEOS d !! k.
Proof. intros H. rewrite db_after_unfold, VIDEOS_batch. by apply put_all_untouched. Qed.

(** A record read after the first pass was written by it, or was stored
    before and not written. *)
Lemma R'_elem r' :
  r' ∈ R' ->
  (exists x, x ∈ batch1 /\ r' = applyVideoDefaults (videoMetadata x))
  \/ (r' ∈ R /\ forall x, x ∈ batch1 -> id x <> id r').
Proof.
  intros (k & s & Hk & ->)%elem_of_getAllVideos.
  rewrite db_after_unfold, VIDEOS_batch in Hk.
  destruct (put_all_lookup _ _ _ _ Hk) as [(x & Hx & Hid & ->)|[Hs Hall]].
  - left. by exists x.
  - right. destruct Hwf as [Hkey _]. destruct (Hkey _ _ Hs) as [Hid _].
    split; [apply elem_of_getAllVideos; by exists k, s|].
    by rewrite id_applyVideoDefaults, Hid.
Qed.

(** The second pass finds, under the path of a file the first pass wrote a
    record for, that record. *)
Lemma lookup_E'_written j p f :
  entries !! j = Some (p, f) ->
  fst (needs (JsMap.get p E) thumbs f) = true ->
  JsMap.get p E' = Some (videoData (JsMap.get p E) (uuid1 j) (now1 j) p f).
Proof.
  intros Hj Hn. set (w := videoData (JsMap.get p E) (uuid1 j) (now1 j) p f).
  assert (Hw : w ∈ batch1) by (apply batch1_elem; left; by exists j, p, f).
  assert (Hnow : now1 j <> 0) by (eapply now1_started, entry_index; eauto).
  assert (Hdef : applyVideoDefaults (videoMetadata w) = w)
    by by apply defaults_videoData.
  apply get_of_list_unique.
  - apply elem_of_map. exists w. split; [done|].
    apply elem_of_getAllVideos. exists (id w), (videoMetadata w).
    split; [by apply stored_after | done].
  - intros r' (r0 & [= Hp ->] & Hr')%elem_of_map.
    destruct (R'_elem _ Hr') as [(x & Hx & ->)|[HrR Hall]].
    + apply batch1_elem in Hx
        as [(j' & p' & f' & Hj' & Hn' & ->)|(r & Hr & Hpr & Hnf & ->)].
      * simpl in Hp. subst p'.
        destruct (entry_inj _ _ _ _ _ Hj Hj') as [<- <-]. exact Hdef.
      * exfalso. apply Hpr. change (relativePath r) with
          (relativePath (applyVideoDefaults (videoMetadata (with_notFound true r)))).
        rewrite <- Hp. by eapply entry_path.
    + exfalso. apply (Hall w Hw). unfold w.
      rewrite Hp, (lookup_E_elem _ HrR).
      apply id_videoData_existing. by apply R_id_nonempty.
Qed.

(** A stored record whose file is observed and needs no update is not
    written by the first pass. *)
Lemma unneeded_untouched j p f e x :
  entries !! j = Some (p, f) ->
  JsMap.get p E = Some e ->
  fst (needs (Some e) thumbs f) = false ->
  x ∈ batch1 -> id x <> id e.
Proof.
  intros Hj Hg Hn Hx Hid. destruct (lookup_E _ _ Hg) as [He Hpe].
  apply batch1_elem in Hx
    as [(j' & p' & f' & Hj' & Hn' & ->)|(r & Hr & Hpr & Hnf & ->)].
  - destruct (id_written_file _ _ _ Hj') as [(e' & Hg' & He' & Hpe' & Hide')|(Hg' & Hide' & _)];
      rewrite Hide' in Hid.
    + assert (e' = e) as -> by by apply R_id_inj.
      assert (p' = p) as -> by congruence.
      destruct (entry_inj _ _ _ _ _ Hj Hj') as [<- <-].
      rewrite Hg in Hn'. congruence.
    + eapply stored_not_fresh; [exact He | | symmetry; exact Hid].
      by eapply entry_index.
  - change (id r = id e) in Hid. assert (r = e) as -> by by apply R_id_inj.
    apply Hpr. rewrite Hpe. by eapply entry_path.
Qed.

(** ... and the second pass finds it as it was. *)
Lemma lookup_E'_kept j p f :
  entries !! j = Some (p, f) ->
  fst (needs (JsMap.get p E) thumbs f) = false ->
  JsMap.get p E' = JsMap.get p E.
Proof.
  intros Hj Hn. destruct (JsMap.get p E) as [e|] eqn:Hg; [|done].
  destruct (lookup_E _ _ Hg) as [He Hpe].
  apply get_of_list_unique.
  - apply elem_of_map. exists e. split; [by rewrite Hpe|].
    destruct (R_stored _ He) as (s & Hs & Hes).
    apply elem_of_getAllVideos. exists (id e), s. split; [|done].
    rewrite untouched_after; [done|].
    intros x Hx. by eapply unneeded_untouched.
  - intros r' (r0 & [= Hp ->] & Hr')%elem_of_map.
    destruct (R'_elem _ Hr') as [(x & Hx & ->)|[HrR Hall]].
    + exfalso. apply batch1_elem in Hx
        as [(j' & p' & f' & Hj' & Hn' & ->)|(r & Hr & Hpr & Hnf & ->)].
      * simpl in Hp. subst p'.
        destruct (entry_inj _ _ _ _ _ Hj Hj') as [<- <-].
        rewrite Hg in Hn'. congruence.
      * apply Hpr. change (relativePath r) with
          (relativePath (applyVideoDefaults (videoMetadata (with_notFound true r)))).
        rewrite <- Hp. by eapply entry_path.
    + apply R_path_inj; [done | done | congruence].
Qed.

(** The thumbnails the second pass sees are those the first one saw. *)
Lemma thumbs_after : getAllMainThumbnails d' = thumbs.
Proof. by rewrite db_after_unfold. Qed.

Lemma second_pass_files uuid2 now2 x :
  x ∈ fst (processFiles E' (getAllMainThumbnails d') uuid2 now2 0 entries) ->
  VIDEOS d' !! id x = Some (videoMetadata x).
Proof.
  intros (j & p & f & Hj & Hn & ->)%elem_of_processFiles.
  rewrite thumbs_after in Hn.
  destruct (fst (needs (JsMap.get p E) thumbs f)) eqn:Hn1.
  - rewrite (lookup_E'_written _ _ _ Hj Hn1).
    rewrite videoData_idem.
    + apply stored_after, batch1_elem. left. by exists j, p, f.
    + by apply id_written_file_nonempty.
    + eapply now1_started, entry_index; eauto.
  - rewrite (lookup_E'_kept _ _ _ Hj Hn1) in Hn. congruence.
Qed.

(** After the first pass every record whose path was not observed is marked
    not found, so the second pass has none to mark. *)
Lemma missing_marked r' :
  r' ∈ R' -> relativePath r' ∉ paths -> notFound r' = true.
Proof.
  intros Hr' Hp. destruct (R'_elem _ Hr') as [(x & Hx & ->)|[HrR Hall]].
  - apply batch1_elem in Hx
      as [(j' & p' & f' & Hj' & Hn' & ->)|(r & Hr & Hpr & Hnf & ->)]; [|done].
    exfalso. apply Hp. simpl. by eapply entry_path.
  - destruct (notFound r') eqn:Hnf; [done|]. exfalso.
    apply (Hall (with_notFound true r')); [|done].
    apply batch1_elem. right. by exists r'.
Qed.

Lemma second_pass_missing : markNotFound paths R' = [].
Proof.
  destruct (markNotFound paths R') as [|x l] eqn:Hm; [done|].
  assert (Hx : x ∈ markNotFound paths R') by (rewrite Hm; left).
  apply elem_of_markNotFound in Hx as (r & Hr & Hp & Hnf & _).
  rewrite (missing_marked r Hr Hp) in Hnf. done.
Qed.

Lemma second_pass_stable uuid2 now2 :
  (forall x, x ∈ videosToBatchUpdate uuid2 now2 files d' ->
             VIDEOS d' !! id x = Some (videoMetadata x))
  /\ db_after uuid2 now2 files d' = d'.
Proof.
  assert (H : forall x, x ∈ videosToBatchUpdate uuid2 now2 files d' ->
                        VIDEOS d' !! id x = Some (videoMetadata x)).
  { intros x. unfold videosToBatchUpdate at 1. rewrite plan_unfold.
    rewrite second_pass_missing, app_nil_r. apply second_pass_files. }
  split; [exact H|].
  rewrite (db_after_unfold uuid2 now2 files d').
  unfold batchUpdateVideos. rewrite (put_all_same _ _ H). by destruct d'.
Qed.

(** What one pass does to a stored record, whatever the folder holds: the
    record stays under its identifier with its path, and rating, seen, tags,
    hearted, deleted, title, playback position and open count are the stored
    ones; [hidden] is the stored flag, or [true]. *)
Lemma first_pass_keeps_user_fields k s :
  VIDEOS d !! k = Some s ->
  exists s',
    VIDEOS d' !! k = Some s'
    /\ id s' = id s /\ relativePath s' = relativePath s
    /\ rating s' = rating s /\ seen s' = seen s /\ tags s' = tags s
    /\ hearted s' = hearted s /\ deleted s' = deleted s /\ title s' = title s
    /\ currentTime s' = currentTime s /\ timesOpened s' = timesOpened s
    /\ (hidden s' = hidden s \/ hidden s' = true).
Proof.
  intros Hs.
  assert (He : applyVideoDefaults s ∈ R) by (apply elem_of_getAllVideos; by exists k, s).
  assert (Hk : id s = k) by (destruct Hwf as [Hkey _]; by destruct (Hkey _ _ Hs)).
  destruct (put_all_is_Some batch1 (VIDEOS d) k) as [s' Hs']; [by eexists|].
  exists s'. rewrite db_after_unfold, VIDEOS_batch. split; [done|].
  destruct (put_all_lookup _ _ _ _ Hs') as [(x & Hx & Hid & ->)|[Hsame _]].
  - apply batch1_elem in Hx
      as [(j & p & f & Hj & Hn & ->)|(r & Hr & Hpr & Hnf & ->)].
    + destruct (id_written_file _ _ _ Hj) as [(e & Hg & HeR & Hpe & Hide)|(Hg & Hide & Hnone & _)];
        rewrite Hide in Hid.
      * assert (e = applyVideoDefaults s) as ->
          by (apply R_id_inj; [done | done | by rewrite id_applyVideoDefaults, Hk]).
        rewrite Hg.
        destruct (videoData_existing_fields (applyVideoDefaults s) (uuid1 j) (now1 j) p f)
          as (H1 & H2 & H3 & H4 & H5 & H6 & H7 & H8 & H9).
        split_and!; try done.
        -- simpl. by rewrite or_string_nonempty by (by apply (R_id_nonempty _ HeR)).
        -- simpl. destruct (hidden s); simpl; [by left|].
           destruct (isJpg f); [by right | by left].
      * congruence.
    + change (id r = k) in Hid.
      assert (r = applyVideoDefaults s) as ->
        by (apply R_id_inj; [done | done | by rewrite id_applyVideoDefaults, Hk]).
      split_and!; try done. by left.
  - assert (s' = s) as -> by congruence. split_and!; try done. by left.
Qed.

(** A stored record whose path the folder lacks ends the pass marked not
    found. *)
Lemma first_pass_marks_missing k s :
  VIDEOS d !! k = Some s -> relativePath s ∉ paths ->
  exists s', VIDEOS d' !! k = Some s' /\ notFound s' = true.
Proof.
  intros Hs Hp.
  assert (He : applyVideoDefaults s ∈ R) by (apply elem_of_getAllVideos; by exists k, s).
  assert (Hk : id s = k) by (destruct Hwf as [Hkey _]; by destruct (Hkey _ _ Hs)).
  destruct (notFound s) eqn:Hnf.
  - exists s. split; [|done]. rewrite untouched_after; [done|].
    intros x Hx Hid.
    apply batch1_elem in Hx
      as [(j & p & f & Hj & Hn & ->)|(r & Hr & Hpr & Hnf' & ->)].
    + destruct (id_written_file _ _ _ Hj) as [(e & Hg & HeR & Hpe & Hide)|(Hg & Hide & Hnone & _)];
        rewrite Hide in Hid.
      * assert (e = applyVideoDefaults s) as ->
          by (apply R_id_inj; [done | done | by rewrite id_applyVideoDefaults, Hk]).
        apply Hp. rewrite <- (relativePath_applyVideoDefaults s), Hpe.
        by eapply entry_path.
      * congruence.
    + change (id r = k) in Hid.
      assert (r = applyVideoDefaults s) as ->
        by (apply R_id_inj; [done | done | by rewrite id_applyVideoDefaults, Hk]).
      rewrite notFound_applyVideoDefaults in Hnf'. congruence.
  - exists (videoMetadata (with_notFound true (applyVideoDefaults s))).
    split; [|done]. rewrite <- Hk.
    apply (stored_after (with_notFound true (applyVideoDefaults s))).
    apply batch1_elem. right. exists (applyVideoDefaults s). done.
Qed.

(** A stored record marked not found whose path the folder holds again ends
    the pass with the mark cleared. *)
Lemma first_pass_clears_mark k s :
  VIDEOS d !! k = Some s -> notFound s = true -> relativePath s ∈ paths ->
  exists s', VIDEOS d' !! k = Some s' /\ notFound s' = false.
Proof.
  intros Hs Hnf Hp.
  assert (He : applyVideoDefaults s ∈ R) by (apply elem_of_getAllVideos; by exists k, s).
  assert (Hk : id s = k) by (destruct Hwf as [Hkey _]; by destruct (Hkey _ _ Hs)).
  apply list_elem_of_lookup in Hp as [j Hj].
  rewrite map_fmap, list_lookup_fmap in Hj.
  destruct (fileEntries files !! j) as [[p f]|] eqn:Hentry; [|done].
  simpl in Hj. injection Hj as ->.
  pose proof (lookup_E_elem _ He) as Hg.
  rewrite relativePath_applyVideoDefaults in Hg.
  exists (videoMetadata (videoData (Some (applyVideoDefaults s)) (uuid1 j) (now1 j)
                           (relativePath s) f)).
  split; [|done].
  assert (Hid : id (videoData (Some (applyVideoDefaults s)) (uuid1 j) (now1 j)
                       (relativePath s) f) = k).
  { rewrite id_videoData_existing by (by apply R_id_nonempty).
    by rewrite id_applyVideoDefaults. }
  rewrite <- Hid at 1. apply stored_after, batch1_elem. left.
  exists j, (relativePath s), f. rewrite Hg. split_and!; [done | | done].
  simpl. rewrite Hnf. by rewrite orb_true_r.
Qed.

End TwoPasses.

(** C3. Two passes over the same folder, the second on the store the first
    one left: every record the second pass writes is equal to the object the
    store already holds under its identifier, so the second pass leaves the
    store as it is; and every record whose path the folder lacks is already
    marked not found. The store is keyed by non-empty identifiers with
    unique paths, the folder has no path twice, and the first pass draws
    fresh identifiers and a clock past the epoch. *)
Theorem scanFiles_second_pass_changes_nothing :
  forall (d : db) (files : list File.t)
         (uuid1 uuid2 : nat -> string) (now1 now2 : nat -> Z),
    wf_store d ->
    distinct_paths files ->
    fresh_ids uuid1 (length (fileEntries files)) d ->
    clock_started now1 (length (fileEntries files)) ->
    (forall x, x ∈ videosToBatchUpdate uuid2 now2 files (db_after uuid1 now1 files d) ->
         VIDEOS (db_after uuid1 now1 files d) !! id x = Some (videoMetadata x))
    /\ db_after uuid2 now2 files (db_after uuid1 now1 files d)
       = db_after uuid1 now1 files d
    /\ (forall r, r ∈ getAllVideos (db_after uuid1 now1 files d) ->
           relativePath r ∉ map fst (fileEntries files) -> notFound r = true).
Proof.
  intros d files uuid1 uuid2 now1 now2 Hwf Hpaths Hfresh Hclock.
  destruct (second_pass_stable d files uuid1 now1 Hwf Hpaths Hfresh Hclock uuid2 now2)
    as [H1 H2].
  split_and!; [exact H1 | exact H2 |].
  intros r. by apply missing_marked.
Qed.

(** C2 at a concrete library: the picture [cat.jpg], which the user has made
    visible, is hidden again by a pass that finds the file modified. Its path
    is in the store before and after the pass. *)
Example scanFiles_hides_visible_jpg :
  let d := Sample.store [Sample.cat] in
  let files := [Sample.file "pics/cat.jpg" "cat.jpg" 2] in
  let d1 := db_after Sample.randomUUID Sample.DateNow files d in
  (relativePath <$> VIDEOS d !! "a") = Some "pics/cat.jpg"
  /\ (hidden <$> VIDEOS d !! "a") = Some false
  /\ (relativePath <$> VIDEOS d1 !! "a") = Some "pics/cat.jpg"
  /\ (hidden <$> VIDEOS d1 !! "a") = Some true.
Proof. by vm_compute. Qed.

(** C4 at a concrete library: the picture [cat.jpg] is visible and marked not
    found; a pass that observes the file again clears [notFound], keeps the
    identifier and the rest of what the user entered, and hides the
    picture. *)
Example scanFiles_reappearing_jpg_is_hidden :
  let d := Sample.store [with_notFound true Sample.cat] in
  let files := [Sample.file "pics/cat.jpg" "cat.jpg" 1] in
  let d1 := db_after Sample.randomUUID Sample.DateNow files d in
  (notFound <$> VIDEOS d !! "a") = Some true
  /\ (hidden <$> VIDEOS d !! "a") = Some false
  /\ (notFound <$> VIDEOS d1 !! "a") = Some false
  /\ (rating <$> VIDEOS d1 !! "a") = (rating <$> VIDEOS d !! "a")
  /\ (hidden <$> VIDEOS d1 !! "a") = Some true.
Proof. by vm_compute. Qed.

End SyncFacts.

Section SyncExamples.
Import dbService Sync.

Lemma scanFiles_second_pass_changes_nothing_witness :
  let d := Sample.store [Sample.video "a" "clips/a.mp4"; Sample.video "c" "clips/gone.mp4"] in
  let files := [Sample.file "clips/a.mp4" "a.mp4" 1; Sample.file "clips/b.mp4" "b.mp4" 3] in
  let d1 := db_after Sample.randomUUID Sample.DateNow files d in
  length (videosToBatchUpdate Sample.randomUUID Sample.DateNow files d1) = 2%nat
  /\ db_after Sample.randomUUID Sample.DateNow files d1 = d1.
Proof.
  intros d files d1. split; [by vm_compute|].
  apply (scanFiles_second_pass_changes_nothing d files
           Sample.randomUUID Sample.randomUUID Sample.DateNow Sample.DateNow).
  - unfold wf_store. split; by_evaluation.
  - unfold distinct_paths. by_evaluation.
  - unfold fresh_ids. split; by_evaluation.
  - unfold clock_started. by_evaluation.
Defined.

End SyncExamples.

(** ** Regeneration on demand *)

Section RegenerateFacts.
Import dbService App.

Lemma Forall2_map_self {A} (P : A -> A -> Prop) (k : A -> A) (l : list A) :
  (forall x, x ∈ l -> P x (k x)) -> Forall2 P l (map k l).
Proof.
  induction l as [|a l IH]; simpl; intros H; [constructor|].
  constructor; [apply H; left | apply IH; intros x Hx; apply H; by right].
Qed.

(** C9. When the session file map has no file for the record, regeneration
    leaves the store (primary thumbnails, timeline strips, metadata) and the
    preview cache as they are; in the library every record keeps its
    thumbnail and its playability flag and differs from before at most in its
    description, and only the record with the identifier asked for gets the
    diagnostic. *)
Theorem regenerate_without_file_touches_description_only :
  forall (generateThumbnail : File.t -> option string)
         (videoToRegen : VideoData) (st : State),
    JsMap.get (relativePath videoToRegen) (fileMap st) = None ->
    let st1 := handleRegenerateThumbnails generateThumbnail videoToRegen st in
    database st1 = database st
    /\ cache st1 = cache st
    /\ undoStack st1 = undoStack st /\ redoStack st1 = redoStack st
    /\ playlist st1 = playlist st
    /\ Forall2
         (fun v v' =>
            thumbnail v' = thumbnail v /\ isPlayable v' = isPlayable v
            /\ with_description (description v) v' = v
            /\ (id v <> id videoToRegen -> v' = v)
            /\ (id v = id videoToRegen ->
                description v'
                = "Auto-regeneration failed for " ++ relativePath videoToRegen
                  ++ newline ++ "File not available. Please re-select folder."))
         (videos st) (videos st1).
Proof.
  intros gen videoToRegen st Hfile st1. subst st1.
  unfold handleRegenerateThumbnails, getFileForPlayback. rewrite Hfile.
  destruct (JsMap.size (fileMap st) =? 0)%nat; simpl;
    (split_and!; [done | done | done | done | done |];
     apply Forall2_map_self; intros v _;
     destruct (String.eqb_spec (id v) (id videoToRegen)) as [Heq|Hne];
     [split_and!; [done | done | by destruct v | done | done]
     |split_and!; [done | done | by destruct v | done | done]]).
Qed.

Lemma regenerate_without_file_touches_description_only_witness :
  let st := Sample.state [Sample.cat] in
  let st1 := handleRegenerateThumbnails (fun _ => Some "jpeg") Sample.cat st in
  database st1 = database st /\ cache st1 = cache st.
Proof.
  intros st st1.
  destruct (regenerate_without_file_touches_description_only
              (fun _ => Some "jpeg") Sample.cat st eq_refl) as (H1 & H2 & _).
  split; [exact H1 | exact H2].
Defined.

End RegenerateFacts.

(** ** Playlist import *)

Section ImportFacts.
Import App.

Lemma asString_Some x s : asString x = Some s <-> x = JString s.
Proof. destruct x; simpl; split; congruence. Qed.

Lemma asStringArray_Some x ids :
  asStringArray x = Some ids <-> x = JArray (map JString ids).
Proof.
  destruct x as [| | | |elements|]; simpl; try (split; [done | discriminate]).
  rewrite mapM_Some. split.
  - intros H. f_equal. induction H as [|x i elements ids Hx _ IH]; [done|].
    apply asString_Some in Hx as ->. simpl. by f_equal.
  - intros [= ->]. induction ids as [|i ids IH]; simpl; by constructor.
Qed.

Lemma validIds_filter (vs : list VideoData) (ids : list string) :
  List.filter (fun i => existsb (fun v => String.eqb (id v) i) vs) ids
  = filter (fun i => i ∈ map id vs) ids.
Proof.
  induction ids as [|i ids IH]; [done|]. simpl.
  rewrite filter_cons, IH.
  destruct (existsb (fun v => String.eqb (id v) i) vs) eqn:Hex.
  - apply existsb_exists in Hex as (v & Hv & Heq%String.eqb_eq).
    rewrite decide_True; [done|]. apply elem_of_map. exists v.
    split; [done | by apply list_elem_of_In].
  - rewrite decide_False; [done|]. intros (v & -> & Hv)%elem_of_map.
    assert (existsb (fun v0 => String.eqb (id v0) (id v)) vs = true) as Hex'.
    { apply existsb_exists. exists v. split; [by apply list_elem_of_In|].
      apply String.eqb_refl. }
    congruence.
Qed.



End ImportFacts.

(** ** Edit history *)

Section HistoryFacts.
Import dbService App.
Implicit Types (st : State) (v u p t : VideoData) (vs T : list VideoData)
  (k h g : VideoData -> VideoData).

Lemma pop_snoc {A} (l : list A) (x : A) : pop (l ++ [x]) = Some (l, x).
Proof. unfold pop. rewrite rev_app_distr. simpl. by rewrite rev_involutive. Qed.

Lemma pop_nil {A} : pop (@nil A) = None.
Proof. done. Qed.

Lemma NoDup_id_inj vs v v' :
  NoDup (map id vs) -> v ∈ vs -> v' ∈ vs -> id v = id v' -> v = v'.
Proof. apply NoDup_map_inj. Qed.

(** Looking a library record up in the Map of updates built from the
    targets: the update of the record itself, if it is a target. *)
Lemma get_updates vs T h v :
  NoDup (map id vs) -> T ⊆ vs -> v ∈ vs ->
  JsMap.get (id v) (JsMap.of_list (map (fun t => (id t, h t)) T))
  = if decide (v ∈ T) then Some (h v) else None.
Proof.
  intros Hnd Hsub Hv. destruct (decide (v ∈ T)) as [Hin|Hnin].
  - apply get_of_list_unique.
    + apply elem_of_map. by exists v.
    + intros y (t & [= Hid ->] & Ht)%elem_of_map.
      f_equal. symmetry. eapply NoDup_id_inj; eauto.
  - destruct (JsMap.get _ _) as [y|] eqn:Hget; [|done].
    apply get_of_list_Some, elem_of_map in Hget as (t & [= Hid ->] & Ht).
    exfalso. apply Hnin.
    by rewrite (NoDup_id_inj vs v t Hnd Hv (Hsub _ Ht) Hid).
Qed.

Lemma applyUpdates_map vs T h k :
  NoDup (map id vs) -> T ⊆ vs -> (forall v, v ∈ vs -> id (k v) = id v) ->
  applyUpdates (map (fun t => (id t, h t)) T) (map k vs)
  = map (fun v => if decide (v ∈ T) then h v else k v) vs.
Proof.
  intros Hnd Hsub Hk. unfold applyUpdates. rewrite map_map.
  apply map_ext_in. intros v Hv%list_elem_of_In.
  rewrite (Hk v Hv), (get_updates vs T h v Hnd Hsub Hv).
  by destruct (decide (v ∈ T)).
Qed.

Lemma findVideo_map vs k v :
  NoDup (map id vs) -> v ∈ vs -> (forall x, x ∈ vs -> id (k x) = id x) ->
  findVideo (id v) (map k vs) = Some (k v).
Proof.
  unfold findVideo. induction vs as [|a vs IH]; simpl; intros Hnd Hv Hk.
  - by apply elem_of_nil in Hv.
  - apply NoDup_cons in Hnd as [Ha Hnd].
    rewrite (Hk a) by left.
    destruct (String.eqb_spec (id a) (id v)) as [Heq|Hne].
    + apply elem_of_cons in Hv as [->|Hv]; [done|].
      exfalso. apply Ha. rewrite Heq. apply elem_of_map. by exists v.
    + apply elem_of_cons in Hv as [->|Hv]; [done|].
      apply IH; [done | done |]. intros x Hx. apply Hk. by right.
Qed.

Lemma findVideo_Some i vs v : findVideo i vs = Some v -> v ∈ vs /\ id v = i.
Proof.
  unfold findVideo. intros [Hin Heq]%find_some.
  split; [by apply list_elem_of_In | by apply String.eqb_eq].
Qed.

Lemma findVideo_elem vs v :
  NoDup (map id vs) -> v ∈ vs -> findVideo (id v) vs = Some v.
Proof.
  intros Hnd Hv.
  pose proof (findVideo_map vs (fun x => x) v Hnd Hv (fun _ _ => eq_refl)) as H.
  by rewrite map_id in H.
Qed.

Lemma currentStates_map vs T k h :
  NoDup (map id vs) -> T ⊆ vs -> (forall x, x ∈ vs -> id (k x) = id x) ->
  currentStates (map k vs) (map (fun t => {| videoId := id t; state := h t |}) T)
  = map (fun t => {| videoId := id t; state := k t |}) T.
Proof.
  intros Hnd Hsub Hk. unfold currentStates.
  induction T as [|t T IH]; [done|]. simpl.
  rewrite (findVideo_map vs k t Hnd) by (try done; apply Hsub; left).
  simpl. f_equal. apply IH. intros x Hx. apply Hsub. by right.
Qed.

Lemma restore_videos vs T h k st :
  NoDup (map id vs) -> T ⊆ vs -> (forall v, v ∈ vs -> id (k v) = id v) ->
  videos st = map k vs ->
  videos (restore (map (fun t => {| videoId := id t; state := h t |}) T) st)
  = map (fun v => if decide (v ∈ T) then h v else k v) vs.
Proof.
  intros Hnd Hsub Hk Hvs. unfold restore. simpl. rewrite Hvs, map_map. simpl.
  by apply applyUpdates_map.
Qed.

Lemma restore_database T h st :
  database (restore (map (fun t => {| videoId := id t; state := h t |}) T) st)
  = batchUpdateVideos (map h T) (database st).
Proof. unfold restore. simpl. by rewrite map_map. Qed.

(** Undo and redo of a committed batch, told for any state whose library is
    [map k vs] and whose stack ends with the snapshots [h t] of the targets
    [T]: the targets go to their snapshot, the rest stays, and the opposite
    stack receives what the targets were. *)
Lemma handleUndo_batch st vs T k h U :
  NoDup (map id vs) -> T ⊆ vs -> T <> [] ->
  (forall v, v ∈ vs -> id (k v) = id v) ->
  videos st = map k vs ->
  undoStack st = (U ++ [map (fun t => {| videoId := id t; state := h t |}) T])%list ->
  videos (handleUndo st) = map (fun v => if decide (v ∈ T) then h v else k v) vs
  /\ undoStack (handleUndo st) = U
  /\ redoStack (handleUndo st)
     = (redoStack st ++ [map (fun t => {| videoId := id t; state := k t |}) T])%list
  /\ database (handleUndo st) = batchUpdateVideos (map h T) (database st).
Proof.
  intros Hnd Hsub Hne Hk Hvs Hundo. unfold handleUndo.
  rewrite Hundo, pop_snoc, Hvs, (currentStates_map vs T k h Hnd Hsub Hk).
  destruct T as [|t T'] eqn:HT; [done|]. rewrite <- HT in *.
  assert (map (fun t0 => {| videoId := id t0; state := k t0 |}) T <> []) as Hne'
    by (rewrite HT; done).
  destruct (map (fun t0 => {| videoId := id t0; state := k t0 |}) T) as [|c cs] eqn:Hm;
    [done|]. rewrite <- Hm.
  split_and!.
  - change (videos (setUndoStack ?f ?s)) with (videos s).
    by apply restore_videos.
  - done.
  - done.
  - change (database (setUndoStack ?f ?s)) with (database s).
    by rewrite restore_database.
Qed.

Lemma handleRedo_batch st vs T k h U :
  NoDup (map id vs) -> T ⊆ vs -> T <> [] ->
  (forall v, v ∈ vs -> id (k v) = id v) ->
  videos st = map k vs ->
  redoStack st = (U ++ [map (fun t => {| videoId := id t; state := h t |}) T])%list ->
  videos (handleRedo st) = map (fun v => if decide (v ∈ T) then h v else k v) vs
  /\ redoStack (handleRedo st) = U
  /\ undoStack (handleRedo st)
     = (undoStack st ++ [map (fun t => {| videoId := id t; state := k t |}) T])%list
  /\ database (handleRedo st) = batchUpdateVideos (map h T) (database st).
Proof.
  intros Hnd Hsub Hne Hk Hvs Hredo. unfold handleRedo.
  rewrite Hredo, pop_snoc, Hvs, (currentStates_map vs T k h Hnd Hsub Hk).
  destruct T as [|t T'] eqn:HT; [done|]. rewrite <- HT in *.
  destruct (map (fun t0 => {| videoId := id t0; state := k t0 |}) T) as [|c cs] eqn:Hm;
    [by rewrite HT in Hm|]. rewrite <- Hm.
  split_and!.
  - change (videos (setRedoStack ?f ?s)) with (videos s).
    by apply restore_videos.
  - done.
  - done.
  - change (database (setRedoStack ?f ?s)) with (database s).
    by rewrite restore_database.
Qed.

Lemma applyUpdates_targets vs T h :
  NoDup (map id vs) -> T ⊆ vs ->
  applyUpdates (map (fun t => (id t, h t)) T) vs
  = map (fun v => if decide (v ∈ T) then h v else v) vs.
Proof.
  intros Hnd Hsub.
  pose proof (applyUpdates_map vs T h (fun x => x) Hnd Hsub (fun _ _ => eq_refl)) as H.
  by rewrite map_id in H.
Qed.

Lemma findVideo_None i vs v : findVideo i vs = None -> v ∈ vs -> id v <> i.
Proof.
  unfold findVideo. intros Hnone Hv%list_elem_of_In Heq.
  pose proof (find_none _ _ Hnone v Hv) as H. simpl in H.
  apply String.eqb_neq in H. done.
Qed.

Lemma replaceVideo_absent u vs :
  findVideo (id u) vs = None -> replaceVideo u vs = vs.
Proof.
  intros Hnone. unfold replaceVideo. rewrite <- (map_id vs) at 2.
  apply map_ext_in. intros v Hv%list_elem_of_In.
  pose proof (findVideo_None _ _ v Hnone Hv) as Hne.
  by destruct (String.eqb_spec (id v) (id u)).
Qed.

Lemma replaceVideo_target u p vs :
  NoDup (map id vs) -> p ∈ vs -> id u = id p ->
  replaceVideo u vs = map (fun v => if decide (v ∈ [p]) then u else v) vs.
Proof.
  intros Hnd Hp Hid. unfold replaceVideo.
  apply map_ext_in. intros v Hv%list_elem_of_In.
  destruct (String.eqb_spec (id v) (id u)) as [Heq|Hne].
  - rewrite decide_True; [done|]. apply list_elem_of_singleton.
    eapply NoDup_id_inj; eauto. congruence.
  - rewrite decide_False; [done|]. intros ->%list_elem_of_singleton. congruence.
Qed.

Lemma map_singleton_same p vs :
  map (fun v => if decide (v ∈ [p]) then p else v) vs = vs.
Proof.
  rewrite <- (map_id vs) at 2. apply map_ext. intros v.
  by destruct (decide _) as [->%list_elem_of_singleton|].
Qed.

(** What an update does to the history: either nothing is committed and
    library and stacks are as before, or one batch with the snapshots of the
    targets [T] is pushed, the redo stack is emptied, and library and store
    hold [g t] for every target [t]. *)
Lemma handleUpdateVideo_cases displayed u st :
  NoDup (map id (videos st)) -> displayed ⊆ videos st ->
  (undoStack (handleUpdateVideo displayed u st) = undoStack st
   /\ redoStack (handleUpdateVideo displayed u st) = redoStack st
   /\ videos (handleUpdateVideo displayed u st) = videos st)
  \/ (exists T g,
        T ⊆ videos st /\ T <> [] /\ (forall t, t ∈ T -> id (g t) = id t)
        /\ undoStack (handleUpdateVideo displayed u st)
           = (undoStack st ++ [map (fun t => {| videoId := id t; state := t |}) T])%list
        /\ redoStack (handleUpdateVideo displayed u st) = []
        /\ videos (handleUpdateVideo displayed u st)
           = map (fun v => if decide (v ∈ T) then g v else v) (videos st)
        /\ (forall t, t ∈ T ->
              VIDEOS (database (handleUpdateVideo displayed u st)) !! id t
              = Some (videoMetadata (g t)))).
Proof.
  intros Hnd Hsub. unfold handleUpdateVideo.
  destruct (isBatchEditMode st).
  - (* batch edit *)
    destruct (findVideo (id u) (videos st)) as [p|]; [|by left].
    destruct (noChanges (changes p u)); [by left|].
    set (c := changes p u).
    destruct displayed as [|t0 T0] eqn:HT; [by left|]. rewrite <- HT in *.
    assert (map (applyChanges c) displayed <> []) as Hne by (rewrite HT; done).
    destruct (map (applyChanges c) displayed) as [|x xs] eqn:Hm; [done|].
    rewrite <- Hm. right. exists displayed, (applyChanges c).
    split_and!; [done | by rewrite HT | done | done | done | |].
    + simpl. rewrite map_map. simpl. by apply applyUpdates_targets.
    + intros t Ht. simpl. apply (put_all_written _ _ (applyChanges c t)).
      * apply elem_of_map. by exists t.
      * intros y (t' & -> & Ht')%elem_of_map Hid. f_equal.
        eapply NoDup_id_inj; eauto.
  - (* single edit *)
    destruct (findVideo (id u) (videos st)) as [p|] eqn:Hfind.
    + destruct (findVideo_Some _ _ _ Hfind) as [Hp Hidp].
      set (u' := if playedPastThreshold u && negb (seen p)
                 then with_seen true u else u).
      assert (Hid : id u' = id p).
      { unfold u'. by destruct (playedPastThreshold u && negb (seen p)). }
      destruct (decide (p = u')) as [Heq|Hne].
      * left. simpl. split_and!; [done | done |].
        rewrite (replaceVideo_target u' p _ Hnd Hp Hid), <- Heq.
        apply map_singleton_same.
      * right. exists [p], (fun _ => u'). simpl.
        split_and!; [| done | | by rewrite Hid | done | |].
        -- intros x ->%list_elem_of_singleton. done.
        -- intros t ->%list_elem_of_singleton. done.
        -- by apply replaceVideo_target.
        -- intros t ->%list_elem_of_singleton. unfold updateVideo, upsertVideo.
           simpl. rewrite Hid. apply lookup_insert_eq.
    + left. simpl. split_and!; [done | done |]. by apply replaceVideo_absent.
Qed.

Lemma batchUpdate_lookup vs T h (d : db) t :
  NoDup (map id vs) -> T ⊆ vs -> (forall x, x ∈ T -> id (h x) = id x) -> t ∈ T ->
  VIDEOS (batchUpdateVideos (map h T) d) !! id t = Some (videoMetadata (h t)).
Proof.
  intros Hnd Hsub Hh Ht. rewrite VIDEOS_batch, <- (Hh t Ht).
  apply put_all_written.
  - apply elem_of_map. by exists t.
  - intros y (t' & -> & Ht')%elem_of_map Hid. f_equal.
    eapply NoDup_id_inj; eauto. by rewrite <- (Hh t' Ht'), <- (Hh t Ht).
Qed.

(** The record a single edit writes: the update, with [seen] set when it
    carries a position past the threshold for a record not seen before. *)
Lemma edited_id u p :
  id (if playedPastThreshold u && negb (seen p) then with_seen true u else u) = id u.
Proof. by destruct (playedPastThreshold u && negb (seen p)). Qed.

Lemma app_singleton_inv {A} (l : list A) (x y : A) :
  (l ++ [x])%list = (l ++ [y])%list -> x = y.
Proof. intros H. apply app_inv_head in H. by injection H. Qed.

Lemma app_singleton_neq {A} (l : list A) (x : A) : l <> (l ++ [x])%list.
Proof.
  intros H. apply (f_equal length) in H. rewrite length_app in H. simpl in H. lia.
Qed.

(** C5. When an update commits, and what. Outside batch mode an update of a
    library record commits when it changes the record: the undo stack grows
    by the one-entry batch that holds the record as it was, and library and
    store hold the update. In batch mode an update of a library record
    commits when it changes a field that a batch edit carries and a record
    is displayed: the undo stack grows by the batch of all displayed
    records as they were, and library and store hold every displayed record
    with the change applied. Every other update commits nothing: library and
    stacks are as before (outside batch mode the store is written all the
    same, with the record as the library has it, or with the update when the
    library has no such record).

    For every batch an update commits: it is not empty, the redo stack is
    empty afterwards, and the batch holds for every record it names the
    record as the library had it before the update. Undo right after the
    commit gives back the library and the undo stack of before and stores
    every snapshot of the batch under its identifier; redo right after that
    undo gives back the library and the undo stack of after the commit, with
    an empty redo stack, and stores what the commit had stored. With an
    empty stack undo, respectively redo, returns the state it was given.

    The library has no identifier twice and the displayed records are
    records of the library. *)
Theorem undo_redo_restore_snapshots :
  forall (displayed : list VideoData) (u : VideoData) (st : State),
    NoDup (map id (videos st)) ->
    displayed ⊆ videos st ->
    let st1 := handleUpdateVideo displayed u st in
    let st2 := handleUndo st1 in
    let st3 := handleRedo st2 in
    let snapshot := fun x => {| videoId := id x; state := x |} in
    let edited := fun p =>
      if playedPastThreshold u && negb (seen p) then with_seen true u else u in
    (forall p,
        isBatchEditMode st = false ->
        findVideo (id u) (videos st) = Some p ->
        p <> edited p ->
        undoStack st1 = (undoStack st ++ [[snapshot p]])%list
        /\ redoStack st1 = []
        /\ videos st1
           = map (fun v => if decide (v = p) then edited p else v) (videos st)
        /\ VIDEOS (database st1) !! id p = Some (videoMetadata (edited p)))
    /\ (forall p,
          isBatchEditMode st = true ->
          findVideo (id u) (videos st) = Some p ->
          noChanges (changes p u) = false ->
          displayed <> [] ->
          undoStack st1 = (undoStack st ++ [map snapshot displayed])%list
          /\ redoStack st1 = []
          /\ videos st1
             = map (fun v => if decide (v ∈ displayed)
                             then applyChanges (changes p u) v else v) (videos st)
          /\ Forall (fun x => VIDEOS (database st1) !! id x
                              = Some (videoMetadata (applyChanges (changes p u) x)))
               displayed)
    /\ (forall p,
          isBatchEditMode st = false ->
          findVideo (id u) (videos st) = Some p ->
          p = edited p ->
          undoStack st1 = undoStack st /\ redoStack st1 = redoStack st
          /\ videos st1 = videos st
          /\ database st1 = updateVideo p (database st))
    /\ (isBatchEditMode st = false ->
        findVideo (id u) (videos st) = None ->
        undoStack st1 = undoStack st /\ redoStack st1 = redoStack st
        /\ videos st1 = videos st
        /\ database st1 = updateVideo u (database st))
    /\ (isBatchEditMode st = true ->
        findVideo (id u) (videos st) = None
        \/ (exists p, findVideo (id u) (videos st) = Some p
                      /\ noChanges (changes p u) = true)
        \/ displayed = [] ->
        st1 = st)
    /\ (forall batch,
          undoStack st1 = (undoStack st ++ [batch])%list ->
          batch <> []
          /\ redoStack st1 = []
          /\ Forall (fun c => findVideo (videoId c) (videos st) = Some (state c)) batch
          /\ videos st2 = videos st
          /\ undoStack st2 = undoStack st
          /\ Forall (fun c => VIDEOS (database st2) !! videoId c
                              = Some (videoMetadata (state c))) batch
          /\ videos st3 = videos st1
          /\ undoStack st3 = undoStack st1
          /\ redoStack st3 = []
          /\ Forall (fun c => VIDEOS (database st3) !! videoId c
                              = VIDEOS (database st1) !! videoId c) batch)
    /\ (undoStack st = [] -> handleUndo st = st)
    /\ (redoStack st = [] -> handleRedo st = st).
Proof.
  intros displayed u st Hnd Hsub st1 st2 st3 snapshot edited. split_and!.
  - (* a single edit that commits *)
    intros p Hmode Hfind Hne. subst st1. unfold handleUpdateVideo.
    rewrite Hmode, Hfind. fold (edited p).
    destruct (findVideo_Some _ _ _ Hfind) as [Hp Hidp].
    assert (Hid : id (edited p) = id p) by (unfold edited; by rewrite edited_id).
    rewrite decide_False by done. simpl. split_and!.
    + unfold snapshot. by rewrite Hid.
    + done.
    + rewrite (replaceVideo_target (edited p) p _ Hnd Hp Hid).
      apply map_ext. intros v.
      destruct (decide (v ∈ [p])) as [->%list_elem_of_singleton|Hn].
      * by rewrite decide_True.
      * rewrite decide_False; [done|]. intros ->. apply Hn. by left.
    + unfold updateVideo, upsertVideo. simpl. rewrite Hid. apply lookup_insert_eq.
  - (* a batch edit that commits *)
    intros p Hmode Hfind Hch Hdisp. subst st1. unfold handleUpdateVideo.
    rewrite Hmode, Hfind, Hch.
    destruct displayed as [|t0 T0] eqn:HT; [done|]. rewrite <- HT in *.
    destruct (map (applyChanges (changes p u)) displayed) as [|x xs] eqn:Hm;
      [by rewrite HT in Hm|]. rewrite <- Hm. split_and!.
    + done.
    + done.
    + simpl. rewrite map_map. simpl. by apply applyUpdates_targets.
    + apply Forall_forall. intros y Hy. simpl.
      by apply (batchUpdate_lookup (videos st) displayed).
  - (* a single edit that changes nothing *)
    intros p Hmode Hfind Heq. subst st1. unfold handleUpdateVideo.
    rewrite Hmode, Hfind. fold (edited p).
    destruct (findVideo_Some _ _ _ Hfind) as [Hp Hidp].
    rewrite <- Heq. rewrite decide_True by done. simpl.
    split_and!; [done | done | | done].
    rewrite (replaceVideo_target p p _ Hnd Hp eq_refl).
    apply map_singleton_same.
  - (* a single edit of a record the library does not have *)
    intros Hmode Hfind. subst st1. unfold handleUpdateVideo.
    rewrite Hmode, Hfind. simpl.
    split_and!; [done | done | | done]. by apply replaceVideo_absent.
  - (* a batch edit that commits nothing *)
    intros Hmode Hcase. subst st1. unfold handleUpdateVideo. rewrite Hmode.
    destruct (findVideo (id u) (videos st)) as [p|] eqn:Hfind; [|done].
    destruct (noChanges (changes p u)) eqn:Hch; [done|].
    destruct Hcase as [?|[(p' & [= <-] & Hch')| ->]]; [done | congruence | done].
  - (* undo and redo of what was committed *)
    intros batch Hbatch.
    destruct (handleUpdateVideo_cases displayed u st Hnd Hsub)
      as [(Hsame & _)|(T & g & HT & Hne & Hg & Hundo & Hredo & Hvs & Hdb)].
    { fold st1 in Hsame. rewrite Hsame in Hbatch.
      by apply app_singleton_neq in Hbatch. }
    fold st1 in Hundo, Hredo, Hvs, Hdb.
    assert (batch = map (fun t => {| videoId := id t; state := t |}) T) as ->.
    { rewrite Hundo in Hbatch. symmetry. by apply app_singleton_inv in Hbatch. }
    set (k := fun v => if decide (v ∈ T) then g v else v) in *.
    assert (Hk : forall v, v ∈ videos st -> id (k v) = id v).
    { intros v _. unfold k. destruct (decide (v ∈ T)); [by apply Hg | done]. }
    assert (HkT : forall t, t ∈ T -> k t = g t).
    { intros t Ht. unfold k. by rewrite decide_True. }
    destruct (handleUndo_batch st1 (videos st) T k (fun t => t) (undoStack st)
                Hnd HT Hne Hk Hvs Hundo) as (Hvs2 & Hundo2 & Hredo2 & Hdb2).
    fold st2 in Hvs2, Hundo2, Hredo2, Hdb2.
    assert (Hvs2' : videos st2 = videos st).
    { rewrite Hvs2. rewrite <- (map_id (videos st)) at 2. apply map_ext.
      intros v. unfold k. by destruct (decide (v ∈ T)). }
    assert (Hredo2' : redoStack st2
                      = ([] ++ [map (fun t => {| videoId := id t; state := g t |}) T])%list).
    { rewrite Hredo2, Hredo. do 2 f_equal. apply map_ext_in.
      intros t Ht%list_elem_of_In. by rewrite (HkT t Ht). }
    assert (Hvs2'' : videos st2 = map (fun x => x) (videos st))
      by by rewrite map_id.
    destruct (handleRedo_batch st2 (videos st) T (fun x => x) g []
                Hnd HT Hne (fun _ _ => eq_refl) Hvs2'' Hredo2')
      as (Hvs3 & Hredo3 & Hundo3 & Hdb3).
    fold st3 in Hvs3, Hredo3, Hundo3, Hdb3.
    split_and!.
    + by destruct T.
    + done.
    + apply Forall_forall. intros c (t & -> & Ht)%elem_of_map. simpl.
      apply findVideo_elem; [done | by apply HT].
    + done.
    + done.
    + apply Forall_forall. intros c (t & -> & Ht)%elem_of_map. simpl.
      rewrite Hdb2.
      by apply (batchUpdate_lookup (videos st) T (fun t => t)).
    + by rewrite Hvs3, Hvs.
    + by rewrite Hundo3, Hundo2, Hundo.
    + done.
    + apply Forall_forall. intros c (t & -> & Ht)%elem_of_map. simpl.
      rewrite Hdb3, (Hdb t Ht).
      by apply (batchUpdate_lookup (videos st) T g).
  - intros Hempty. unfold handleUndo. by rewrite Hempty.
  - intros Hempty. unfold handleRedo. by rewrite Hempty.
Qed.


Lemma undo_redo_restore_snapshots_witness :
  let A := with_rating 0 (Sample.video "a" "clips/a.mp4") in
  let B := with_rating 0 (Sample.video "b" "clips/b.mp4") in
  let st0 := setIsBatchEditMode true (Sample.state [A; B]) in
  let st := handleUndo (handleUpdateVideo [A; B] (with_hearted false A) st0) in
  let st1 := handleUpdateVideo (videos st) (with_rating 5 A) st in
  videos st = [A; B]
  /\ redoStack st <> []
  /\ undoStack st1 = [[{| videoId := "a"; state := A |}; {| videoId := "b"; state := B |}]]
  /\ redoStack st1 = []
  /\ videos st1 = [with_rating 5 A; with_rating 5 B]
  /\ videos (handleUndo st1) = [A; B]
  /\ videos (handleRedo (handleUndo st1)) = [with_rating 5 A; with_rating 5 B].
Proof.
  intros A B st0 st st1.
  assert (Hnd : NoDup (map id (videos st))) by (by_evaluation).
  assert (Hsub : videos st ⊆ videos st) by done.
  destruct (undo_redo_restore_snapshots (videos st) (with_rating 5 A) st Hnd Hsub)
    as (_ & Hbatch & _ & _ & _ & Hundo & _).
  destruct (Hbatch A) as (H1 & _ & H2 & _);
    [by vm_compute | by vm_compute | by vm_compute | by vm_compute |].
  destruct (Hundo _ H1) as (_ & H3 & _ & H4 & _ & _ & H5 & _).
  split_and!.
  - by vm_compute.
  - by vm_compute.
  - exact H1.
  - exact H3.
  - exact H2.
  - exact H4.
  - exact (eq_trans H5 H2).
Defined.

Lemma playedPastThreshold_true u (t : Qc) :
  currentTime u = Some t -> (1 < t)%Qc -> playedPastThreshold u = true.
Proof.
  intros Ht Hlt. unfold playedPastThreshold. rewrite Ht.
  rewrite (bool_decide_eq_true_2 _ Hlt), andb_true_r.
  apply negb_true_iff, bool_decide_eq_false_2. intros ->. done.
Qed.

Lemma seen_applyChanges c x : seen (applyChanges c x) = default (seen x) (c_seen c).
Proof. done. Qed.

Lemma noChanges_seen c : c_seen c <> None -> noChanges c = false.
Proof. destruct c as [[] [] [] [] [] [] [] [] [] []]; simpl; done. Qed.

(** One undo after an update that committed gives the library back. *)
Lemma undo_after_commit displayed u st batch :
  NoDup (map id (videos st)) -> displayed ⊆ videos st ->
  undoStack (handleUpdateVideo displayed u st) = (undoStack st ++ [batch])%list ->
  videos (handleUndo (handleUpdateVideo displayed u st)) = videos st
  /\ undoStack (handleUndo (handleUpdateVideo displayed u st)) = undoStack st.
Proof.
  intros Hnd Hsub Hbatch.
  destruct (handleUpdateVideo_cases displayed u st Hnd Hsub)
    as [(Hsame & _)|(T & g & HT & Hne & Hg & Hundo & Hredo & Hvs & Hdb)].
  { rewrite Hsame in Hbatch. apply (f_equal length) in Hbatch.
    rewrite length_app in Hbatch. simpl in Hbatch. lia. }
  set (k := fun v => if decide (v ∈ T) then g v else v) in *.
  assert (Hk : forall v, v ∈ videos st -> id (k v) = id v).
  { intros v _. unfold k. destruct (decide (v ∈ T)); [by apply Hg | done]. }
  destruct (handleUndo_batch _ (videos st) T k (fun t => t) (undoStack st)
              Hnd HT Hne Hk Hvs Hundo) as (Hvs2 & Hundo2 & _).
  split; [|done].
  rewrite Hvs2. rewrite <- (map_id (videos st)) at 2. apply map_ext.
  intros v. unfold k. by destruct (decide (v ∈ T)).
Qed.

(** C6 (what the code does). An update that carries a playback position above one
    second for a record the library has with [seen] false. Outside batch
    mode the record is written to the library and to the store as the update
    has it (position included) with [seen] set, and the undo stack grows by
    the one entry that holds the record as it was. In batch mode, when the
    record is among the displayed ones, the undo stack grows by the one batch
    of the displayed records as they were, which holds the record with
    [seen] false, and the record is written to the library and to the store
    with [seen] set and its position as it was (a batch edit does not carry
    the position). In both cases a single undo gives the record back as it
    was, so no second entry holds the flag. *)
Theorem played_update_sets_seen_in_the_same_entry :
  forall (displayed : list VideoData) (u p : VideoData) (t : Qc) (st : State),
    NoDup (map id (videos st)) ->
    displayed ⊆ videos st ->
    findVideo (id u) (videos st) = Some p ->
    seen p = false ->
    currentTime u = Some t ->
    (1 < t)%Qc ->
    let st1 := handleUpdateVideo displayed u st in
    (isBatchEditMode st = false ->
       undoStack st1 = (undoStack st ++ [[{| videoId := id u; state := p |}]])%list
       /\ findVideo (id u) (videos st1) = Some (with_seen true u)
       /\ VIDEOS (database st1) !! id u = Some (videoMetadata (with_seen true u)))
    /\ (isBatchEditMode st = true ->
        p ∈ displayed ->
        let v := applyChanges (changes p u) p in
        undoStack st1
        = (undoStack st
           ++ [map (fun x => {| videoId := id x; state := x |}) displayed])%list
        /\ {| videoId := id u; state := p |}
           ∈ map (fun x => {| videoId := id x; state := x |}) displayed
        /\ findVideo (id u) (videos st1) = Some v
        /\ seen v = true
        /\ currentTime v = currentTime p
        /\ VIDEOS (database st1) !! id u = Some (videoMetadata v))
    /\ (isBatchEditMode st = false \/ p ∈ displayed ->
        findVideo (id u) (videos (handleUndo st1)) = Some p
        /\ undoStack (handleUndo st1) = undoStack st).
Proof.
  intros displayed u p t st Hnd Hsub Hfind Hseen Ht Hlt st1.
  pose proof (playedPastThreshold_true u t Ht Hlt) as Hplayed.
  destruct (findVideo_Some _ _ _ Hfind) as [Hp Hidp].
  assert (Hsingle : isBatchEditMode st = false ->
            undoStack st1 = (undoStack st ++ [[{| videoId := id u; state := p |}]])%list
            /\ findVideo (id u) (videos st1) = Some (with_seen true u)
            /\ VIDEOS (database st1) !! id u = Some (videoMetadata (with_seen true u))).
  { subst st1. unfold handleUpdateVideo. rewrite Hfind.
    intros ->. rewrite Hplayed, Hseen. simpl.
    rewrite decide_False by (intros ->; done). simpl.
    split_and!; [done | |].
    + rewrite (replaceVideo_target (with_seen true u) p _ Hnd Hp) by done.
      rewrite <- Hidp.
      rewrite (findVideo_map (videos st)
                 (fun v => if decide (v ∈ [p]) then with_seen true u else v) p Hnd Hp).
      * rewrite decide_True; [done | by apply list_elem_of_singleton].
      * intros x _. destruct (decide (x ∈ [p])) as [->%list_elem_of_singleton|]; done.
    + unfold updateVideo, upsertVideo. simpl. apply lookup_insert_eq. }
  assert (Hc : c_seen (changes p u) = Some true).
  { unfold changes. simpl. by rewrite Hplayed, Hseen. }
  assert (Hbatch : isBatchEditMode st = true -> p ∈ displayed ->
            undoStack st1
            = (undoStack st
               ++ [map (fun x => {| videoId := id x; state := x |}) displayed])%list
            /\ findVideo (id u) (videos st1) = Some (applyChanges (changes p u) p)
            /\ VIDEOS (database st1) !! id u
               = Some (videoMetadata (applyChanges (changes p u) p))).
  { subst st1. unfold handleUpdateVideo. rewrite Hfind.
    intros -> Hin. rewrite noChanges_seen by (by rewrite Hc).
    destruct displayed as [|t0 T0] eqn:HT; [by apply elem_of_nil in Hin|].
    rewrite <- HT in *.
    destruct (map (applyChanges (changes p u)) displayed) as [|x xs] eqn:Hm;
      [by rewrite HT in Hm|]. rewrite <- Hm. rewrite <- Hidp.
    split_and!.
    + done.
    + simpl. rewrite map_map. simpl.
      rewrite (applyUpdates_targets _ _ _ Hnd Hsub).
      rewrite (findVideo_map (videos st) _ p Hnd Hp).
      * by rewrite decide_True.
      * intros y _. by destruct (decide (y ∈ displayed)).
    + simpl. by apply (batchUpdate_lookup (videos st) displayed). }
  split_and!.
  - exact Hsingle.
  - intros Hmode Hin v. destruct (Hbatch Hmode Hin) as (H1 & H2 & H3).
    split_and!; [done | | done | | done | done].
    + rewrite <- Hidp. apply elem_of_map. by exists p.
    + unfold v. by rewrite seen_applyChanges, Hc.
  - intros Hcase.
    assert (exists batch, undoStack st1 = (undoStack st ++ [batch])%list)
      as [batch Hpush].
    { destruct (isBatchEditMode st) eqn:Hmode.
      - destruct Hcase as [|Hin]; [done|].
        destruct (Hbatch eq_refl Hin) as (H1 & _). by eexists.
      - destruct (Hsingle eq_refl) as (H1 & _). by eexists. }
    destruct (undo_after_commit displayed u st batch Hnd Hsub Hpush) as [Hvs Hundo].
    fold st1 in Hvs, Hundo. split; [|done].
    rewrite Hvs, <- Hidp. by apply findVideo_elem.
Qed.

Lemma played_update_sets_seen_in_the_same_entry_witness :
  let a := with_seen false (Sample.video "a" "clips/a.mp4") in
  let b := with_seen false (Sample.video "b" "clips/b.mp4") in
  let st := setIsBatchEditMode true (Sample.state [a; b]) in
  let u := with_seen true (with_currentTime (Some (Q2Qc 2.5)) a) in
  let st1 := handleUpdateVideo [a; b] u st in
  undoStack st1
  = [[{| videoId := "a"; state := a |}; {| videoId := "b"; state := b |}]]
  /\ findVideo "a" (videos st1) = Some (with_seen true a)
  /\ findVideo "a" (videos (handleUndo st1)) = Some a.
Proof.
  intros a b st u st1.
  assert (Hnd : NoDup (map id (videos st))) by (by_evaluation).
  assert (Hsub : [a; b] ⊆ videos st) by done.
  assert (Hlt : (1 < Q2Qc 2.5)%Qc) by done.
  assert (Hin : a ∈ [a; b]) by left.
  destruct (played_update_sets_seen_in_the_same_entry
              [a; b] u a (Q2Qc 2.5) st Hnd Hsub eq_refl eq_refl eq_refl Hlt)
    as (_ & Hbatch & Hundo).
  destruct (Hbatch eq_refl Hin) as (H1 & _ & H2 & _).
  destruct (Hundo (or_intror Hin)) as (H3 & _).
  split_and!; [exact H1 | exact H2 | exact H3].
Defined.

(** C6 as stated fails in batch mode for a record that is not displayed:
    the player reports a position of 2.5 s for record a while only b is
    displayed. An entry is committed, for b; record a keeps [seen] false and
    no position, in the library and in the store. *)
Lemma played_update_in_batch_mode_skips_undisplayed :
  let a := with_seen false (Sample.video "a" "clips/a.mp4") in
  let b := with_seen false (Sample.video "b" "clips/b.mp4") in
  let st := setIsBatchEditMode true (Sample.state [a; b]) in
  let u := with_seen true (with_currentTime (Some (Q2Qc 2.5)) a) in
  let st1 := handleUpdateVideo [b] u st in
  findVideo (id u) (videos st) = Some a
  /\ seen a = false
  /\ currentTime u = Some (Q2Qc 2.5)
  /\ playedPastThreshold u = true
  /\ isBatchEditMode st = true
  /\ undoStack st1 = [[{| videoId := "b"; state := b |}]]
  /\ findVideo "a" (videos st1) = Some a
  /\ VIDEOS (database st1) !! "a" = Some (videoMetadata a)
  /\ findVideo "b" (videos st1) = Some (with_seen true b).
Proof. by vm_compute. Qed.

End HistoryFacts.

(** ** More on the sync pass *)

Section ScanQueue.
Import dbService Sync.
Implicit Types (x : VideoData) (f : File.t) (p u : string) (n : Z).

Lemma needs_thumb_playable o thumbs f :
  snd (needs o thumbs f) = true ->
  fst (needs o thumbs f) = true /\ isNativelyPlayable f = true.
Proof.
  unfold needs. destruct o as [e|]; [|done].
  destruct (negb (lastModified e =? File.lastModified f) || notFound e); [done|].
  destruct (isNativelyPlayable f); [|done]. simpl.
  by destruct (negb (bool_decide (is_Some (thumbs !! id e)))).
Qed.

Lemma snd_processFile E thumbs u n p f :
  snd (processFile E thumbs u n (p, f))
  = if snd (needs (JsMap.get p E) thumbs f)
    then [videoData (JsMap.get p E) u n p f] else [].
Proof.
  destruct (needs (JsMap.get p E) thumbs f) as [b g] eqn:Hneeds.
  destruct b.
  - unfold processFile. by rewrite Hneeds.
  - rewrite (processFile_unneeded _ _ _ _ _ _ g Hneeds). simpl.
    destruct g; [|done].
    pose proof (needs_thumb_playable (JsMap.get p E) thumbs f) as H.
    rewrite Hneeds in H. by destruct H.
Qed.

Lemma snd_processFiles_cons E thumbs uuid now i entry rest :
  snd (processFiles E thumbs uuid now i (entry :: rest))
  = (snd (processFile E thumbs (uuid i) (now i) entry)
     ++ snd (processFiles E thumbs uuid now (S i) rest))%list.
Proof.
  simpl. destruct (processFile _ _ _ _ entry) as [b g].
  by destruct (processFiles _ _ _ _ (S i) rest) as [bs gs].
Qed.

Lemma elem_of_queue E thumbs uuid now i0 entries x :
  x ∈ snd (processFiles E thumbs uuid now i0 entries) <->
  exists j p f,
    entries !! j = Some (p, f)
    /\ snd (needs (JsMap.get p E) thumbs f) = true
    /\ x = videoData (JsMap.get p E) (uuid (i0 + j)%nat) (now (i0 + j)%nat) p f.
Proof.
  revert i0. induction entries as [|[p0 f0] rest IH]; intros i0.
  - simpl. split; [intros H; by apply elem_of_nil in H|].
    by intros (j & p & f & Hj & _).
  - rewrite snd_processFiles_cons, elem_of_app, snd_processFile, IH. split.
    + intros [Hx|(j & p & f & Hj & Hn & ->)].
      * destruct (snd (needs (JsMap.get p0 E) thumbs f0)) eqn:Hn;
          [|by apply elem_of_nil in Hx].
        apply list_elem_of_singleton in Hx as ->.
        exists 0%nat, p0, f0. by rewrite Nat.add_0_r.
      * exists (S j), p, f. split_and!; [done | done |].
        by replace (i0 + S j)%nat with (S i0 + j)%nat by lia.
    + intros ([|j] & p & f & Hj & Hn & ->).
      * injection Hj as -> ->. left. rewrite Hn, Nat.add_0_r.
        by apply list_elem_of_singleton.
      * right. exists j, p, f. split_and!; [done | done |].
        by replace (i0 + S j)%nat with (S i0 + j)%nat by lia.
Qed.

(** The queue holds at most one record per observed file, in the order of
    the files. *)
Lemma queue_paths_sublist E thumbs uuid now i0 entries :
  sublist (map relativePath (snd (processFiles E thumbs uuid now i0 entries)))
    (map fst entries).
Proof.
  revert i0. induction entries as [|[p0 f0] rest IH]; intros i0; [done|].
  rewrite snd_processFiles_cons, snd_processFile, map_app. simpl.
  destruct (snd (needs (JsMap.get p0 E) thumbs f0)); simpl.
  - apply sublist_skip, IH.
  - apply sublist_cons, IH.
Qed.

Lemma queue_unfold uuid now files (d : db) :
  snd (plan uuid now files d)
  = snd (processFiles (existingVideosMap (getAllVideos d)) (getAllMainThumbnails d)
           uuid now 0 (fileEntries files)).
Proof. unfold plan. by destruct (processFiles _ _ _ _ _ _). Qed.

(** X1. Every record the pass queues for thumbnail generation is one of the
    records it writes to the store, belongs to an observed file that is
    playable by its name, and is queued as playable, found, without a
    thumbnail and with the description of a record in progress. *)
Theorem scan_queue_is_written_and_playable :
  forall (uuid : nat -> string) (now : nat -> Z) (files : list File.t) (d : db) x,
    x ∈ snd (plan uuid now files d) ->
    x ∈ videosToBatchUpdate uuid now files d
    /\ (exists f, (relativePath x, f) ∈ fileEntries files
                  /\ isNativelyPlayable f = true)
    /\ isPlayable x = true /\ notFound x = false /\ thumbnail x = None
    /\ description x = "Generating thumbnails...".
Proof.
  intros uuid now files d x Hx.
  rewrite queue_unfold in Hx.
  apply elem_of_queue in Hx as (j & p & f & Hj & Hn & ->).
  destruct (needs_thumb_playable _ _ _ Hn) as [Hfst Hplay].
  split_and!; try done.
  - unfold videosToBatchUpdate. rewrite plan_unfold. apply elem_of_app. left.
    apply elem_of_processFiles. by exists j, p, f.
  - exists f. split; [|done]. simpl. by eapply list_elem_of_lookup_2.
  - simpl. by rewrite Hplay.
Qed.

Lemma scan_queue_is_written_and_playable_witness :
  let d := Sample.store [Sample.video "a" "clips/a.mp4"] in
  let files := [Sample.file "clips/a.mp4" "a.mp4" 1; Sample.file "clips/b.mp4" "b.mp4" 3] in
  let x := videoData None (Sample.randomUUID 1) (Sample.DateNow 1) "clips/b.mp4"
             (Sample.file "clips/b.mp4" "b.mp4" 3) in
  x ∈ videosToBatchUpdate Sample.randomUUID Sample.DateNow files d
  /\ isPlayable x = true.
Proof.
  intros d files x.
  destruct (scan_queue_is_written_and_playable
              Sample.randomUUID Sample.DateNow files d x) as (H1 & _ & H2 & _);
    [by_evaluation | by split].
Defined.

End ScanQueue.

Section ScanStore.
Import dbService Sync.

(** X2. A pass never removes a record from the store, whatever the folder
    holds, and it leaves the two thumbnail stores as they are. *)
Theorem scan_never_deletes :
  forall (uuid : nat -> string) (now : nat -> Z) (files : list File.t) (d : db),
    dom (VIDEOS d) ⊆ dom (VIDEOS (db_after uuid now files d))
    /\ MAIN_THUMBNAILS (db_after uuid now files d) = MAIN_THUMBNAILS d
    /\ TIMELINE_THUMBNAILS (db_after uuid now files d) = TIMELINE_THUMBNAILS d.
Proof.
  intros uuid now files d. rewrite db_after_unfold. split_and!; [|done|done].
  intros k. rewrite !elem_of_dom, VIDEOS_batch. apply put_all_is_Some.
Qed.

(** X3. A file whose path no stored record has gets a record of its own
    under the identifier drawn for it, which was not in use: the record has
    the path, size and modification time of the file, the time of the pass
    as [dateAdded], and nothing a user could have entered: no rating, not
    seen, no tags, not hearted, not deleted, no title, no playback position.
    It is hidden exactly when the file is a JPG. *)
Theorem scan_adds_unknown_file :
  forall (d : db) (files : list File.t) (uuid1 : nat -> string) (now1 : nat -> Z),
    wf_store d ->
    distinct_paths files ->
    fresh_ids uuid1 (length (fileEntries files)) d ->
    forall (j : nat) (p : string) (f : File.t),
      fileEntries files !! j = Some (p, f) ->
      p ∉ map relativePath (getAllVideos d) ->
      VIDEOS d !! uuid1 j = None
      /\ exists s',
           VIDEOS (db_after uuid1 now1 files d) !! uuid1 j = Some s'
           /\ id s' = uuid1 j /\ relativePath s' = p
           /\ fileSize s' = File.size f /\ lastModified s' = File.lastModified f
           /\ dateAdded s' = now1 j
           /\ rating s' = 0 /\ seen s' = false /\ tags s' = [] /\ hearted s' = false
           /\ deleted s' = false /\ title s' = None /\ currentTime s' = None
           /\ timesOpened s' = 0 /\ notFound s' = false
           /\ hidden s' = isJpg f /\ isPlayable s' = isNativelyPlayable f.
Proof.
  intros d files uuid1 now1 Hwf Hpaths Hfresh j p f Hj Hp.
  destruct (id_written_file d files uuid1 now1 Hwf Hfresh j p f Hj)
    as [(e & _ & He & Hpe & _)|(Hget & Hid & Hnone & _)].
  { exfalso. apply Hp. rewrite <- Hpe. apply elem_of_map. by exists e. }
  split; [done|].
  exists (videoMetadata (videoData None (uuid1 j) (now1 j) p f)).
  split; [|by split_and!].
  rewrite Hget in Hid. rewrite <- Hid at 1.
  apply (stored_after d files uuid1 now1 Hwf Hpaths Hfresh).
  apply batch1_elem. left. exists j, p, f. by rewrite Hget.
Qed.

Lemma scan_adds_unknown_file_witness :
  let d := Sample.store [Sample.video "a" "clips/a.mp4"] in
  let files := [Sample.file "clips/a.mp4" "a.mp4" 1; Sample.file "clips/b.mp4" "b.mp4" 3] in
  exists s',
    VIDEOS (db_after Sample.randomUUID Sample.DateNow files d) !! "uuid-1" = Some s'
    /\ relativePath s' = "clips/b.mp4" /\ rating s' = 0 /\ tags s' = [].
Proof.
  intros d files.
  destruct (scan_adds_unknown_file d files Sample.randomUUID Sample.DateNow)
    with (j := 1%nat) (p := "clips/b.mp4") (f := Sample.file "clips/b.mp4" "b.mp4" 3)
    as (_ & s' & H1 & _ & H2 & _ & _ & _ & H3 & _ & H4 & _).
  - unfold wf_store. split; by_evaluation.
  - unfold distinct_paths. by_evaluation.
  - unfold fresh_ids. split; by_evaluation.
  - by vm_compute.
  - by_evaluation.
  - exists s'. by split_and!.
Defined.

(** X4. One pass keeps what the user entered. Whatever the folder holds, a
    stored record stays under its identifier with its path, and rating, seen,
    tags, hearted, deleted, title, playback position and open count are the
    stored ones; [hidden] is the stored flag, or [true]. The store is keyed
    by non-empty identifiers with unique paths and the pass draws fresh
    identifiers. *)
Theorem scan_keeps_user_fields :
  forall (d : db) (files : list File.t) (uuid1 : nat -> string) (now1 : nat -> Z),
    wf_store d ->
    fresh_ids uuid1 (length (fileEntries files)) d ->
    forall (k : string) (s : VideoData),
      VIDEOS d !! k = Some s ->
      exists s',
        VIDEOS (db_after uuid1 now1 files d) !! k = Some s'
        /\ id s' = id s /\ relativePath s' = relativePath s
        /\ rating s' = rating s /\ seen s' = seen s /\ tags s' = tags s
        /\ hearted s' = hearted s /\ deleted s' = deleted s /\ title s' = title s
        /\ currentTime s' = currentTime s /\ timesOpened s' = timesOpened s
        /\ (hidden s' = hidden s \/ hidden s' = true).
Proof.
  intros d files uuid1 now1 Hwf Hfresh k s Hs.
  by apply first_pass_keeps_user_fields.
Qed.

Lemma scan_keeps_user_fields_witness :
  let d := Sample.store [Sample.video "a" "clips/a.mp4"; Sample.video "c" "clips/gone.mp4"] in
  let files := [Sample.file "clips/a.mp4" "a.mp4" 7; Sample.file "clips/b.mp4" "b.mp4" 3] in
  exists s',
    VIDEOS (db_after Sample.randomUUID Sample.DateNow files d) !! "a" = Some s'
    /\ rating s' = 4 /\ tags s' = ["holiday"] /\ hearted s' = true.
Proof.
  intros d files.
  destruct (scan_keeps_user_fields d files Sample.randomUUID Sample.DateNow)
    with (k := "a") (s := videoMetadata (Sample.video "a" "clips/a.mp4"))
    as (s' & H1 & _ & _ & H2 & _ & H3 & H4 & _).
  - unfold wf_store. split; by_evaluation.
  - unfold fresh_ids. split; by_evaluation.
  - by vm_compute.
  - exists s'. by split_and!.
Defined.

(** X5. A stored record whose path the folder lacks is marked not found in
    the store after the pass, under the same assumptions and for a folder
    without a path twice. *)
Theorem scan_marks_missing_records :
  forall (d : db) (files : list File.t) (uuid1 : nat -> string) (now1 : nat -> Z),
    wf_store d ->
    distinct_paths files ->
    fresh_ids uuid1 (length (fileEntries files)) d ->
    forall (k : string) (s : VideoData),
      VIDEOS d !! k = Some s ->
      relativePath s ∉ map fst (fileEntries files) ->
      exists s',
        VIDEOS (db_after uuid1 now1 files d) !! k = Some s' /\ notFound s' = true.
Proof.
  intros d files uuid1 now1 Hwf Hpaths Hfresh k s Hs Hp.
  by apply (first_pass_marks_missing d files uuid1 now1 Hwf Hpaths Hfresh k s).
Qed.

Lemma scan_marks_missing_records_witness :
  let d := Sample.store [Sample.video "a" "clips/a.mp4"; Sample.video "c" "clips/gone.mp4"] in
  let files := [Sample.file "clips/a.mp4" "a.mp4" 7; Sample.file "clips/b.mp4" "b.mp4" 3] in
  exists s',
    VIDEOS (db_after Sample.randomUUID Sample.DateNow files d) !! "c" = Some s'
    /\ notFound s' = true.
Proof.
  intros d files.
  apply (scan_marks_missing_records d files Sample.randomUUID Sample.DateNow)
    with (s := videoMetadata (Sample.video "c" "clips/gone.mp4")).
  - unfold wf_store. split; by_evaluation.
  - unfold distinct_paths. by_evaluation.
  - unfold fresh_ids. split; by_evaluation.
  - by vm_compute.
  - by_evaluation.
Defined.

(** X6. A stored record marked not found whose path the folder holds again
    has the mark cleared in the store after the pass, under the same
    assumptions. *)
Theorem scan_clears_mark_of_reappearing_record :
  forall (d : db) (files : list File.t) (uuid1 : nat -> string) (now1 : nat -> Z),
    wf_store d ->
    distinct_paths files ->
    fresh_ids uuid1 (length (fileEntries files)) d ->
    forall (k : string) (s : VideoData),
      VIDEOS d !! k = Some s ->
      notFound s = true ->
      relativePath s ∈ map fst (fileEntries files) ->
      exists s',
        VIDEOS (db_after uuid1 now1 files d) !! k = Some s' /\ notFound s' = false.
Proof.
  intros d files uuid1 now1 Hwf Hpaths Hfresh k s Hs Hnf Hp.
  by apply (first_pass_clears_mark d files uuid1 now1 Hwf Hpaths Hfresh k s).
Qed.

Lemma scan_clears_mark_of_reappearing_record_witness :
  let d := Sample.store [with_notFound true (Sample.video "a" "clips/a.mp4")] in
  let files := [Sample.file "clips/a.mp4" "a.mp4" 1] in
  exists s',
    VIDEOS (db_after Sample.randomUUID Sample.DateNow files d) !! "a" = Some s'
    /\ notFound s' = false.
Proof.
  intros d files.
  apply (scan_clears_mark_of_reappearing_record d files Sample.randomUUID Sample.DateNow)
    with (s := videoMetadata (with_notFound true (Sample.video "a" "clips/a.mp4"))).
  - unfold wf_store. split; by_evaluation.
  - unfold distinct_paths. by_evaluation.
  - unfold fresh_ids. split; by_evaluation.
  - by vm_compute.
  - done.
  - by_evaluation.
Defined.

End ScanStore.

(** ** The thumbnail pipeline *)

Section PipelineFacts.
Import dbService App.
Implicit Types (v x : VideoData) (d : db) (k : string).

Lemma lookup_upsertVideo_ne x d k :
  id x <> k ->
  VIDEOS (upsertVideo x d) !! k = VIDEOS d !! k
  /\ MAIN_THUMBNAILS (upsertVideo x d) !! k = MAIN_THUMBNAILS d !! k.
Proof.
  intros Hne. unfold upsertVideo. simpl. split.
  - by rewrite lookup_insert_ne.
  - destruct (thumbnail x); [by rewrite lookup_insert_ne | done].
Qed.

Lemma processVideo_other gen files d x k :
  id x <> k ->
  VIDEOS (processVideo gen files d x) !! k = VIDEOS d !! k
  /\ MAIN_THUMBNAILS (processVideo gen files d x) !! k = MAIN_THUMBNAILS d !! k.
Proof.
  intros Hne. unfold processVideo.
  destruct (JsMap.get (relativePath x) files); [|done].
  by apply lookup_upsertVideo_ne.
Qed.

Lemma processVideo_timeline gen files d x :
  TIMELINE_THUMBNAILS (processVideo gen files d x) = TIMELINE_THUMBNAILS d.
Proof. unfold processVideo. by destruct (JsMap.get (relativePath x) files). Qed.

Lemma fold_processVideo_other gen files vs d k :
  k ∉ map id vs ->
  VIDEOS (fold_left (processVideo gen files) vs d) !! k = VIDEOS d !! k
  /\ MAIN_THUMBNAILS (fold_left (processVideo gen files) vs d) !! k
     = MAIN_THUMBNAILS d !! k.
Proof.
  revert d. induction vs as [|x vs IH]; intros d Hk; [done|].
  simpl in *. apply not_elem_of_cons in Hk as [Hx Hk].
  destruct (IH (processVideo gen files d x) Hk) as [-> ->].
  by apply processVideo_other.
Qed.

Lemma fold_processVideo_timeline gen files vs d :
  TIMELINE_THUMBNAILS (fold_left (processVideo gen files) vs d) = TIMELINE_THUMBNAILS d.
Proof.
  revert d. induction vs as [|x vs IH]; intros d; [done|].
  simpl. by rewrite IH, processVideo_timeline.
Qed.

(** What one iteration leaves under the identifier of its record. *)
Lemma processVideo_self gen files d v :
  match JsMap.get (relativePath v) files with
  | None =>
      VIDEOS (processVideo gen files d v) !! id v = VIDEOS d !! id v
      /\ MAIN_THUMBNAILS (processVideo gen files d v) !! id v
         = MAIN_THUMBNAILS d !! id v
  | Some file =>
      match gen file with
      | Some t =>
          VIDEOS (processVideo gen files d v) !! id v
          = Some (videoMetadata (with_isPlayable true (with_description "" v)))
          /\ MAIN_THUMBNAILS (processVideo gen files d v) !! id v = Some t
      | None =>
          VIDEOS (processVideo gen files d v) !! id v
          = Some (videoMetadata (with_isPlayable false (with_description thumbnailFailed v)))
          /\ MAIN_THUMBNAILS (processVideo gen files d v) !! id v
             = MAIN_THUMBNAILS d !! id v
      end
  end.
Proof.
  unfold processVideo. destruct (JsMap.get (relativePath v) files) as [file|]; [|done].
  destruct (gen file) as [t|]; simpl.
  - split; by rewrite lookup_insert_eq.
  - split; [by rewrite lookup_insert_eq | done].
Qed.

Lemma fold_processVideo_self gen files vs d v :
  NoDup (map id vs) ->
  v ∈ vs ->
  let d' := fold_left (processVideo gen files) vs d in
  match JsMap.get (relativePath v) files with
  | None =>
      VIDEOS d' !! id v = VIDEOS d !! id v
      /\ MAIN_THUMBNAILS d' !! id v = MAIN_THUMBNAILS d !! id v
  | Some file =>
      match gen file with
      | Some t =>
          VIDEOS d' !! id v
          = Some (videoMetadata (with_isPlayable true (with_description "" v)))
          /\ MAIN_THUMBNAILS d' !! id v = Some t
      | None =>
          VIDEOS d' !! id v
          = Some (videoMetadata
                    (with_isPlayable false (with_description thumbnailFailed v)))
          /\ MAIN_THUMBNAILS d' !! id v = MAIN_THUMBNAILS d !! id v
      end
  end.
Proof.
  intros Hnd Hv. simpl. revert d.
  induction vs as [|x vs IH]; intros d; [by apply elem_of_nil in Hv|].
  simpl in Hnd. apply NoDup_cons in Hnd as [Hx Hnd].
  apply elem_of_cons in Hv as [->|Hv].
  - simpl. destruct (fold_processVideo_other gen files vs (processVideo gen files d x) (id x) Hx)
      as [-> ->].
    apply processVideo_self.
  - assert (Hne : id x <> id v).
    { intros Heq. apply Hx. rewrite Heq. apply elem_of_map. by exists v. }
    simpl. specialize (IH Hnd Hv (processVideo gen files d x)).
    destruct (processVideo_other gen files d x (id v) Hne) as [HV HM].
    destruct (JsMap.get (relativePath v) files) as [file|]; [|by rewrite <- HV, <- HM].
    destruct (gen file); [done|]. by rewrite <- HM.
Qed.

(** X7. The thumbnail pipeline, record by record. The queued records have
    pairwise different identifiers. A record whose file the selected folder
    lacks is left alone. A record whose file yields a thumbnail is stored as
    queued, playable and with an empty description, and the thumbnail is
    stored under its identifier. A record whose file yields none is stored
    as queued, not playable and with the diagnostic as description, and the
    thumbnail stored under its identifier, if any, stays. *)
Theorem processInBackground_outcome :
  forall (generateThumbnail : File.t -> option string) (vs : list VideoData)
         (st : State) (v : VideoData),
    NoDup (map id vs) ->
    v ∈ vs ->
    let d := database st in
    let d' := database (processInBackground generateThumbnail vs st) in
    match JsMap.get (relativePath v) (fileMap st) with
    | None =>
        VIDEOS d' !! id v = VIDEOS d !! id v
        /\ MAIN_THUMBNAILS d' !! id v = MAIN_THUMBNAILS d !! id v
    | Some file =>
        match generateThumbnail file with
        | Some t =>
            VIDEOS d' !! id v
            = Some (videoMetadata (with_isPlayable true (with_description "" v)))
            /\ MAIN_THUMBNAILS d' !! id v = Some t
        | None =>
            VIDEOS d' !! id v
            = Some (videoMetadata
                      (with_isPlayable false (with_description thumbnailFailed v)))
            /\ MAIN_THUMBNAILS d' !! id v = MAIN_THUMBNAILS d !! id v
        end
    end.
Proof.
  intros gen vs st v Hnd Hv. simpl.
  apply (fold_processVideo_self gen (fileMap st) vs (database st) v Hnd Hv).
Qed.

Lemma processInBackground_outcome_witness :
  let v := Sample.video "a" "clips/a.mp4" in
  let st :=
    onDatabase (fun d => updateVideo (with_thumbnail (Some "old") v) d)
      (Sample.state [v]) in
  let st' := processInBackground (fun _ => None) [v] st in
  VIDEOS (database st') !! "a" = VIDEOS (database st) !! "a"
  /\ MAIN_THUMBNAILS (database st') !! "a" = Some "old".
Proof.
  intros v st st'.
  apply (processInBackground_outcome (fun _ => None) [v] st v).
  - by_evaluation.
  - by_evaluation.
Defined.

(** X8. The pipeline writes nothing else: the timeline strips stay, a
    record that is not queued keeps its stored object and its thumbnail, the
    edit history and the playlist stay, and the library shown afterwards is
    the store read back. *)
Theorem processInBackground_frame :
  forall (generateThumbnail : File.t -> option string) (vs : list VideoData)
         (st : State),
    let st' := processInBackground generateThumbnail vs st in
    TIMELINE_THUMBNAILS (database st') = TIMELINE_THUMBNAILS (database st)
    /\ (forall k, k ∉ map id vs ->
          VIDEOS (database st') !! k = VIDEOS (database st) !! k
          /\ MAIN_THUMBNAILS (database st') !! k = MAIN_THUMBNAILS (database st) !! k)
    /\ undoStack st' = undoStack st /\ redoStack st' = redoStack st
    /\ playlist st' = playlist st
    /\ videos st' = getAllVideos (database st').
Proof.
  intros gen vs st. simpl. split_and!; try done.
  - apply fold_processVideo_timeline.
  - intros k Hk. by apply fold_processVideo_other.
Qed.

End PipelineFacts.

(** ** Regeneration on demand, with the file at hand *)

Section RegenerateWithFile.
Import dbService App.

Lemma get_delete_ne {V} k k' (m : JsMap.t V) :
  k' <> k -> JsMap.get k' (JsMap.delete k m) = JsMap.get k' m.
Proof.
  intros Hne. induction m as [|[k0 v0] m IH]; simpl; [done|].
  destruct (String.eqb_spec k0 k) as [->|Hk0].
  - destruct (String.eqb_spec k k'); [congruence | done].
  - simpl. by rewrite IH.
Qed.

(** X9. When the session file map has the file of the record, regeneration
    drops the timeline strip of the record from the store and from the
    preview cache and writes the record as it was handed in: with a new
    primary thumbnail, playable and an empty description when the generator
    yields one; not playable, with a diagnostic and the old primary
    thumbnail still in the store when it yields none. Strips, thumbnails,
    stored objects and cache entries of other identifiers stay, the library
    shown is the store read back, and the edit history and the playlist are
    not touched. *)
Theorem regenerate_with_file_replaces_thumbnails :
  forall (generateThumbnail : File.t -> option string)
         (videoToRegen : VideoData) (st : State) (file : File.t),
    JsMap.get (relativePath videoToRegen) (fileMap st) = Some file ->
    NoDup (JsMap.keys (cache st)) ->
    let st1 := handleRegenerateThumbnails generateThumbnail videoToRegen st in
    let d := database st in
    let d1 := database st1 in
    TIMELINE_THUMBNAILS d1 !! id videoToRegen = None
    /\ JsMap.get (id videoToRegen) (cache st1) = None
    /\ match generateThumbnail file with
       | Some t =>
           VIDEOS d1 !! id videoToRegen
           = Some (videoMetadata (with_isPlayable true (with_description "" videoToRegen)))
           /\ MAIN_THUMBNAILS d1 !! id videoToRegen = Some t
       | None =>
           VIDEOS d1 !! id videoToRegen
           = Some (videoMetadata
                     (with_isPlayable false
                        (with_description "Failed to regenerate thumbnail." videoToRegen)))
           /\ MAIN_THUMBNAILS d1 = MAIN_THUMBNAILS d
       end
    /\ (forall k, k <> id videoToRegen ->
          VIDEOS d1 !! k = VIDEOS d !! k
          /\ MAIN_THUMBNAILS d1 !! k = MAIN_THUMBNAILS d !! k
          /\ TIMELINE_THUMBNAILS d1 !! k = TIMELINE_THUMBNAILS d !! k
          /\ JsMap.get k (cache st1) = JsMap.get k (cache st))
    /\ videos st1 = getAllVideos d1
    /\ undoStack st1 = undoStack st /\ redoStack st1 = redoStack st
    /\ playlist st1 = playlist st.
Proof.
  intros gen v st file Hfile Hnd st1 d d1. subst st1 d d1.
  unfold handleRegenerateThumbnails, getFileForPlayback. rewrite Hfile. simpl.
  split_and!; try done.
  - apply lookup_delete_eq.
  - by apply get_delete_NoDup.
  - destruct (gen file) as [t|]; simpl.
    + split; by rewrite lookup_insert_eq.
    + split; [by rewrite lookup_insert_eq | done].
  - intros k Hk. split_and!.
    + rewrite lookup_insert_ne; done.
    + destruct (gen file); simpl; [by rewrite lookup_insert_ne | done].
    + by rewrite lookup_delete_ne.
    + unfold scrubCache.delete. by apply get_delete_ne.
Qed.

Lemma regenerate_with_file_replaces_thumbnails_witness :
  let v := Sample.video "a" "clips/a.mp4" in
  let file := Sample.file "clips/a.mp4" "a.mp4" 1 in
  let st :=
    onDatabase (setTimelineThumbnails "a" ["strip"])
      {| videos := [v]; isBatchEditMode := false; undoStack := []; redoStack := [];
         playlist := ["a"]; toastMessage := ""; toastType := info;
         isFolderSelected := true; fileMap := [("clips/a.mp4", file)];
         cache := [("a", ["strip"])]; database := Sample.store [v] |} in
  let st1 := handleRegenerateThumbnails (fun _ => Some "jpeg") v st in
  TIMELINE_THUMBNAILS (database st) !! "a" = Some ["strip"]
  /\ TIMELINE_THUMBNAILS (database st1) !! "a" = None
  /\ JsMap.get "a" (cache st1) = None
  /\ MAIN_THUMBNAILS (database st1) !! "a" = Some "jpeg".
Proof.
  intros v file st st1.
  destruct (regenerate_with_file_replaces_thumbnails (fun _ => Some "jpeg") v st file)
    as (H1 & H2 & [_ H3] & _).
  - done.
  - by_evaluation.
  - split_and!; [by vm_compute | exact H1 | exact H2 | exact H3].
Defined.

End RegenerateWithFile.

(** ** Selecting a folder: the scan and the thumbnail run it starts *)

Section FolderSelection.
Import dbService Sync.
Variables (st : App.State) (files : list File.t).
Variables (uuid : nat -> string) (now : nat -> Z) (gen : File.t -> option string).
Hypothesis Hwf : wf_store (App.database st).
Hypothesis Hpaths : distinct_paths files.
Hypothesis Hfresh : fresh_ids uuid (length (fileEntries files)) (App.database st).

Local Abbreviation d := (App.database st).
Local Abbreviation E := (existingVideosMap (getAllVideos (App.database st))).
Local Abbreviation thumbs := (getAllMainThumbnails (App.database st)).
Local Abbreviation entries := (fileEntries files).
Local Abbreviation batch := (videosToBatchUpdate uuid now files (App.database st)).
Local Abbreviation queue := (snd (plan uuid now files (App.database st))).
Local Abbreviation d1 := (db_after uuid now files (App.database st)).
Local Abbreviation fm := (JsMap.of_list (fileEntries files)).

Lemma queue_elem x :
  x ∈ queue <->
  exists j p f,
    entries !! j = Some (p, f)
    /\ snd (needs (JsMap.get p E) thumbs f) = true
    /\ x = videoData (JsMap.get p E) (uuid j) (now j) p f.
Proof. rewrite queue_unfold. apply elem_of_queue. Qed.

Lemma queue_batch x : x ∈ queue -> x ∈ batch.
Proof.
  intros (j & p & f & Hj & Hn & ->)%queue_elem.
  apply batch1_elem. left. exists j, p, f.
  by destruct (needs_thumb_playable _ _ _ Hn).
Qed.

Lemma NoDup_queue_ids : NoDup (map id queue).
Proof.
  rewrite map_fmap. apply NoDup_fmap_2_strong.
  - intros x y Hx%queue_batch Hy%queue_batch.
    by apply (batch1_id_inj (App.database st) files uuid now).
  - apply (NoDup_fmap_1 relativePath). rewrite <- map_fmap.
    eapply sublist_NoDup; [exact Hpaths | rewrite queue_unfold; apply queue_paths_sublist].
Qed.

Lemma fileMap_lookup j p f : entries !! j = Some (p, f) -> JsMap.get p fm = Some f.
Proof.
  intros Hj. apply get_of_list_unique; [by eapply list_elem_of_lookup_2|].
  intros f' [j' Hj']%list_elem_of_lookup.
  by destruct (entry_inj files Hpaths _ _ _ _ _ Hj' Hj).
Qed.

Lemma scanFiles_unfold : scanFiles uuid now files d = (d1, getAllVideos d1, queue).
Proof. unfold db_after, scanFiles. by destruct (plan uuid now files d). Qed.

Lemma handleFilesSelected_unfold (fs : list File.t) (st0 : App.State) :
  fs <> [] ->
  App.handleFilesSelected uuid now gen fs st0
  = if (0 <? JsMap.size (JsMap.of_list (fileEntries fs)))%nat
    then App.setIsFolderSelected true
           (App.scanFiles uuid now gen fs
              (App.setFileMap (JsMap.of_list (fileEntries fs)) st0))
    else App.showToast "Could not read folder contents. Please try again." App.error
           (App.setFileMap (JsMap.of_list (fileEntries fs)) st0).
Proof. by destruct fs. Qed.

(** The store when the scan and the thumbnail run have finished. *)
Lemma database_handleFilesSelected :
  entries <> [] ->
  App.database (App.handleFilesSelected uuid now gen files st)
  = fold_left (App.processVideo gen fm) queue d1.
Proof.
  intros Hne.
  assert (Hfiles : files <> []) by (intros Hnil; apply Hne; by rewrite Hnil).
  assert (Hfirst : exists p f, entries !! 0%nat = Some (p, f))
    by (destruct entries as [|[p f] l]; [done | by exists p, f]).
  destruct Hfirst as (p & f & Hfirst).
  assert (Hsize : (0 <? JsMap.size fm)%nat = true).
  { apply Nat.ltb_lt. pose proof (fileMap_lookup 0 p f Hfirst) as Hg.
    destruct fm; [done | simpl; lia]. }
  rewrite (handleFilesSelected_unfold files st Hfiles), Hsize.
  unfold App.scanFiles. simpl. rewrite scanFiles_unfold.
  by destruct queue.
Qed.

(** X10. When a folder has been selected and the thumbnail run the scan
    starts has finished, every file of the folder that is playable by its
    name has a record under its path in the store, and that record has a
    primary thumbnail or is marked not playable with the diagnostic of the
    thumbnail run. The store is keyed by non-empty identifiers with unique
    paths, the folder has no path twice and the scan draws fresh
    identifiers. *)
Theorem folder_selection_settles_every_playable_file :
  forall (p : string) (f : File.t),
    (p, f) ∈ fileEntries files ->
    isNativelyPlayable f = true ->
    let d2 := App.database (App.handleFilesSelected uuid now gen files st) in
    exists s,
      VIDEOS d2 !! id s = Some s
      /\ relativePath s = p
      /\ (is_Some (MAIN_THUMBNAILS d2 !! id s)
          \/ isPlayable s = false /\ description s = App.thumbnailFailed).
Proof.
  intros p f Hin Hplay d2. subst d2.
  rewrite database_handleFilesSelected
    by (intros Hnil; rewrite Hnil in Hin; by apply elem_of_nil in Hin).
  apply list_elem_of_lookup in Hin as [j Hj].
  set (x := videoData (JsMap.get p E) (uuid j) (now j) p f).
  destruct (snd (needs (JsMap.get p E) thumbs f)) eqn:Hn.
  - assert (Hx : x ∈ queue) by (apply queue_elem; by exists j, p, f).
    pose proof (fold_processVideo_self gen fm queue d1 x NoDup_queue_ids Hx) as Hout.
    simpl in Hout. rewrite (fileMap_lookup j p f Hj) in Hout.
    destruct (gen f) as [t|]; destruct Hout as [HV HM].
    + exists (videoMetadata (with_isPlayable true (with_description "" x))).
      split_and!; [done | done |]. left. simpl. by rewrite HM.
    + exists (videoMetadata (with_isPlayable false (with_description App.thumbnailFailed x))).
      split_and!; [done | done |]. by right.
  - destruct (JsMap.get p E) as [e|] eqn:Hg.
    + assert (Hneeds : fst (needs (Some e) thumbs f) = false
                       /\ is_Some (thumbs !! id e)).
      { unfold needs in *.
        destruct (negb (lastModified e =? File.lastModified f) || notFound e);
          [simpl in Hn; congruence|].
        rewrite Hplay in *. simpl in *.
        destruct (decide (is_Some (MAIN_THUMBNAILS (App.database st) !! id e)))
          as [Hsome|Hnone].
        - rewrite (bool_decide_eq_true_2 _ Hsome). done.
        - rewrite (bool_decide_eq_false_2 _ Hnone) in Hn. done. }
      destruct Hneeds as [Hfst Hthumb].
      destruct (lookup_E (App.database st) p e Hg) as [He Hpe].
      destruct (R_stored (App.database st) Hwf e He) as (s & Hs & Hes).
      assert (Hid : id s = id e) by (by rewrite Hes, id_applyVideoDefaults).
      assert (Hout : id e ∉ map id queue).
      { intros (y & Hy & Hyq)%elem_of_map.
        apply (unneeded_untouched (App.database st) files uuid now Hwf Hpaths Hfresh
                 j p f e y Hj Hg Hfst); [by apply queue_batch | done]. }
      destruct (fold_processVideo_other gen fm queue d1 (id e) Hout) as [HV HM].
      exists s. rewrite Hid, HV, HM. split_and!.
      * rewrite (untouched_after (App.database st) files uuid now); [done|].
        intros y Hy. by eapply unneeded_untouched.
      * by rewrite <- Hpe, Hes, relativePath_applyVideoDefaults.
      * left. by rewrite db_after_unfold.
    + unfold needs in Hn. simpl in Hn. congruence.
Qed.

End FolderSelection.

Section FolderSelectionExample.
Import dbService Sync.

Lemma folder_selection_settles_every_playable_file_witness :
  let st := Sample.state [Sample.video "a" "clips/a.mp4"] in
  let files := [Sample.file "clips/a.mp4" "a.mp4" 1; Sample.file "clips/b.mp4" "b.mp4" 3] in
  let d2 :=
    App.database
      (App.handleFilesSelected Sample.randomUUID Sample.DateNow (fun _ => Some "jpeg")
         files st) in
  exists s,
    VIDEOS d2 !! id s = Some s /\ relativePath s = "clips/b.mp4"
    /\ (is_Some (MAIN_THUMBNAILS d2 !! id s)
        \/ isPlayable s = false /\ description s = App.thumbnailFailed).
Proof.
  intros st files d2.
  apply (folder_selection_settles_every_playable_file st files Sample.randomUUID
           Sample.DateNow (fun _ => Some "jpeg"))
    with (f := Sample.file "clips/b.mp4" "b.mp4" 3).
  - unfold wf_store. split; by_evaluation.
  - unfold distinct_paths. by_evaluation.
  - unfold fresh_ids. split; by_evaluation.
  - apply (list_elem_of_lookup_2 _ 1%nat). by vm_compute.
  - by vm_compute.
Defined.

End FolderSelectionExample.

(** ** Arrays of strings *)

Section ArrayFacts.

Lemma Array_sort_insert_perm s l : Array_sort_insert s l ≡ₚ s :: l.
Proof.
  induction l as [|t l IH]; simpl; [done|].
  destruct (String.leb s t); [done|].
  rewrite IH. apply Permutation_swap.
Qed.

Lemma Array_sort_perm l : Array_sort l ≡ₚ l.
Proof.
  induction l as [|s l IH]; simpl; [done|].
  by rewrite Array_sort_insert_perm, IH.
Qed.

Lemma elem_of_Array_sort s l : s ∈ Array_sort l <-> s ∈ l.
Proof. by rewrite Array_sort_perm. Qed.

Lemma Array_sort_insert_sorted s l :
  Sorted (fun a b => String.leb a b = true) l ->
  Sorted (fun a b => String.leb a b = true) (Array_sort_insert s l).
Proof.
  induction 1 as [|t l Hl IH Hhd]; simpl.
  - by repeat constructor.
  - destruct (String.leb s t) eqn:Hst.
    + by repeat constructor.
    + constructor; [done|].
      assert (Hts : String.leb t s = true)
        by (destruct (String.leb_total s t); congruence).
      destruct Hhd as [|u l Htu]; simpl.
      * by constructor.
      * destruct (String.leb s u); by constructor.
Qed.

Lemma Array_sort_sorted l : Sorted (fun a b => String.leb a b = true) (Array_sort l).
Proof.
  induction l as [|s l IH]; simpl; [constructor|]. by apply Array_sort_insert_sorted.
Qed.

Lemma Set_of_spec (l acc : list string) :
  NoDup acc ->
  NoDup (fold_left (fun (seen : list string) (s : string) =>
                      if bool_decide (s ∈ seen) then seen else (seen ++ [s])%list) l acc)
  /\ forall s, s ∈ fold_left (fun (seen : list string) (s : string) =>
                                 if bool_decide (s ∈ seen) then seen
                                 else (seen ++ [s])%list) l acc
               <-> s ∈ acc \/ s ∈ l.
Proof.
  revert acc. induction l as [|t l IH]; intros acc Hacc; simpl.
  - split; [done|]. intros s. rewrite elem_of_nil. tauto.
  - destruct (decide (t ∈ acc)) as [Hin|Hnin].
    + rewrite bool_decide_eq_true_2 by done.
      destruct (IH acc Hacc) as [H1 H2]. split; [done|].
      intros s. rewrite H2, elem_of_cons. split; [tauto|].
      intros [?|[->|?]]; tauto.
    + rewrite bool_decide_eq_false_2 by done.
      assert (Hnd : NoDup (acc ++ [t])).
      { apply NoDup_app. split_and!; [done | | apply NoDup_singleton].
        intros s Hs ->%list_elem_of_singleton. done. }
      destruct (IH _ Hnd) as [H1 H2]. split; [done|].
      intros s. rewrite H2, elem_of_app, list_elem_of_singleton, elem_of_cons. tauto.
Qed.

Lemma NoDup_Set_of l : NoDup (Set_of l).
Proof. apply Set_of_spec, NoDup_nil_2. Qed.

Lemma elem_of_Set_of s l : s ∈ Set_of l <-> s ∈ l.
Proof.
  unfold Set_of. destruct (Set_of_spec l [] (NoDup_nil_2)) as [_ H].
  rewrite H, elem_of_nil. tauto.
Qed.

End ArrayFacts.

(** ** Grouping records under a key *)

Section GroupFacts.
Import App.
Implicit Types (m : JsMap.t (list VideoData)) (key : VideoData -> string).
Implicit Types (v w x : VideoData) (k : string) (l vs : list VideoData).

Lemma get_elem_of {V} k (a : V) (m : JsMap.t V) : JsMap.get k m = Some a -> (k, a) ∈ m.
Proof.
  induction m as [|[k0 a0] m IH]; simpl; [done|].
  destruct (String.eqb_spec k0 k) as [->|Hne].
  - intros [= ->]. left.
  - intros H. right. by apply IH.
Qed.

Lemma elem_of_get {V} k (a : V) (m : JsMap.t V) :
  NoDup (JsMap.keys m) -> (k, a) ∈ m -> JsMap.get k m = Some a.
Proof.
  induction m as [|[k0 a0] m IH]; simpl; intros Hnd Hin.
  - by apply elem_of_nil in Hin.
  - apply NoDup_cons in Hnd as [Hk0 Hnd].
    apply elem_of_cons in Hin as [[= -> ->]|Hin].
    + by rewrite eqb_string_refl.
    + destruct (String.eqb_spec k0 k) as [->|Hne]; [|by apply IH].
      exfalso. apply Hk0. apply elem_of_map. by exists (k, a).
Qed.

Lemma get_pushUnder key m v k :
  JsMap.get k (pushUnder key m v)
  = if String.eqb (key v) k then Some (default [] (JsMap.get k m) ++ [v])%list
    else JsMap.get k m.
Proof.
  unfold pushUnder. destruct (String.eqb_spec (key v) k) as [<-|Hne].
  - rewrite get_set_eq. unfold JsMap.has.
    destruct (JsMap.get (key v) m) eqn:Hg; [by rewrite Hg|]. by rewrite get_set_eq.
  - rewrite get_set_ne by done.
    destruct (JsMap.has (key v) m); [done|]. by rewrite get_set_ne.
Qed.

Lemma NoDup_keys_set {V} k (a : V) (m : JsMap.t V) :
  NoDup (JsMap.keys m) -> NoDup (JsMap.keys (JsMap.set k a m)).
Proof.
  intros Hnd. destruct (decide (k ∈ JsMap.keys m)) as [Hin|Hnin].
  - by rewrite keys_set_present.
  - rewrite keys_set_absent by done. apply NoDup_app. split_and!; [done | | apply NoDup_singleton].
    by intros s Hs ->%list_elem_of_singleton.
Qed.

Lemma NoDup_keys_groupUnder key vs : NoDup (JsMap.keys (groupUnder key vs)).
Proof.
  unfold groupUnder.
  assert (H : forall m, NoDup (JsMap.keys m) ->
                        NoDup (JsMap.keys (fold_left (pushUnder key) vs m))).
  { induction vs as [|v vs IH]; intros m Hm; [done|]. simpl. apply IH.
    unfold pushUnder. apply NoDup_keys_set.
    destruct (JsMap.has (key v) m); [done | by apply NoDup_keys_set]. }
  apply H, NoDup_nil_2.
Qed.

Lemma get_groupUnder key vs k :
  JsMap.get k (groupUnder key vs)
  = match List.filter (fun v => String.eqb (key v) k) vs with
    | [] => None
    | l => Some l
    end.
Proof.
  unfold groupUnder. induction vs as [|v vs IH] using rev_ind; [done|].
  rewrite fold_left_app. simpl. rewrite get_pushUnder, IH, List.filter_app. simpl.
  destruct (String.eqb (key v) k).
  - destruct (List.filter _ vs); done.
  - rewrite app_nil_r. done.
Qed.

Lemma elem_of_groupUnder key vs k l :
  (k, l) ∈ groupUnder key vs
  <-> l <> [] /\ l = List.filter (fun v => String.eqb (key v) k) vs.
Proof.
  split.
  - intros Hin. apply elem_of_get in Hin; [|apply NoDup_keys_groupUnder].
    rewrite get_groupUnder in Hin.
    destruct (List.filter _ vs) as [|a l']; [done|]. by injection Hin as <-.
  - intros [Hne ->]. apply get_elem_of. rewrite get_groupUnder.
    by destruct (List.filter _ vs).
Qed.

Lemma filter_filter_andb {A} (p q : A -> bool) (xs : list A) :
  List.filter p (List.filter q xs) = List.filter (fun a => q a && p a) xs.
Proof.
  induction xs as [|a xs IH]; simpl; [done|].
  destruct (q a); simpl; [|done]. destruct (p a); by rewrite IH.
Qed.

(** The records [handleFindDuplicates] rewrites: those that have a duration
    and are neither deleted nor hidden, share their key with another such
    record, and do not carry the tag yet; each gets the tag and its tags
    sorted. *)
Lemma elem_of_duplicatesToUpdate vs x :
  x ∈ duplicatesToUpdate vs <->
  exists v,
    v ∈ vs
    /\ noDuration v || deleted v || hidden v = false
    /\ (1 < length (List.filter
                      (fun w => negb (noDuration w || deleted w || hidden w)
                                && String.eqb (duplicateKey w) (duplicateKey v)) vs))%nat
    /\ includes "Duplicate" (tags v) = false
    /\ x = with_tags (Array_sort (tags v ++ ["Duplicate"])) v.
Proof.
  unfold duplicatesToUpdate. rewrite elem_of_flat_map. split.
  - intros ([k l] & Hin & Hx). simpl in Hx.
    apply elem_of_groupUnder in Hin as [Hne Hl].
    destruct (1 <? length l)%nat eqn:Hlen; [|by apply elem_of_nil in Hx].
    apply Nat.ltb_lt in Hlen.
    apply elem_of_flat_map in Hx as (v & Hv & Hx).
    destruct (includes "Duplicate" (tags v)) eqn:Hinc; [by apply elem_of_nil in Hx|].
    apply list_elem_of_singleton in Hx.
    rewrite Hl, filter_filter_andb in Hv.
    apply list_elem_of_In, filter_In in Hv as [Hv Hp].
    apply andb_true_iff in Hp as [He Hk]. apply String.eqb_eq in Hk. subst k.
    exists v. split_and!; [by apply list_elem_of_In | by apply negb_true_iff | | done | done].
    by rewrite Hl, filter_filter_andb in Hlen.
  - intros (v & Hv & He & Hlen & Hinc & ->).
    exists (duplicateKey v,
            List.filter (fun w => String.eqb (duplicateKey w) (duplicateKey v))
              (List.filter (fun video => negb (noDuration video || deleted video || hidden video))
                 vs)).
    assert (Hvin : v ∈ List.filter (fun w => String.eqb (duplicateKey w) (duplicateKey v))
                     (List.filter
                        (fun video => negb (noDuration video || deleted video || hidden video))
                        vs)).
    { rewrite filter_filter_andb. apply list_elem_of_In, filter_In.
      split; [by apply list_elem_of_In|]. by rewrite He, eqb_string_refl. }
    split.
    + apply elem_of_groupUnder. split; [|done].
      intros Hnil. rewrite Hnil in Hvin. by apply elem_of_nil in Hvin.
    + simpl. rewrite filter_filter_andb.
      apply Nat.ltb_lt in Hlen. rewrite Hlen.
      apply elem_of_flat_map. exists v. split; [by rewrite <- filter_filter_andb|].
      rewrite Hinc. by apply list_elem_of_singleton.
Qed.

End GroupFacts.

(** ** Library maintenance *)

Section BulkFacts.
Import dbService App.
Implicit Types (v x s : VideoData) (d : db) (k : string) (st : State).

(** The shape the bulk handlers share: the records that have a property are
    rewritten without it and the library is read back. If the library showed
    every stored record, no record read back has the property. *)
Lemma bulk_clears (p : VideoData -> bool) (g : VideoData -> VideoData) vs d :
  map_Forall (fun k s => id s = k) (VIDEOS d) ->
  (forall s, s ∈ getAllVideos d -> s ∈ vs) ->
  (forall v, id (g v) = id v) ->
  (forall v, p (applyVideoDefaults (videoMetadata (g v))) = false) ->
  forall v', v' ∈ getAllVideos (batchUpdateVideos (map g (List.filter p vs)) d) ->
             p v' = false.
Proof.
  intros Hkey Hsync Hid Hclear v' (k & s' & Hk & ->)%elem_of_getAllVideos.
  rewrite VIDEOS_batch in Hk.
  destruct (put_all_lookup _ _ _ _ Hk) as [(x & Hx & _ & ->)|[Hs Hall]].
  - apply elem_of_map in Hx as (v & -> & _). apply Hclear.
  - destruct (p (applyVideoDefaults s')) eqn:Hp; [|done]. exfalso.
    apply (Hall (g (applyVideoDefaults s'))).
    + apply elem_of_map. exists (applyVideoDefaults s'). split; [done|].
      apply list_elem_of_In, filter_In. split; [|done].
      apply list_elem_of_In, Hsync, elem_of_getAllVideos. by exists k, s'.
    + rewrite Hid, id_applyVideoDefaults. by apply (Hkey _ _ Hs).
Qed.

Lemma filter_nil_false {A} (p : A -> bool) (l : list A) (a : A) :
  List.filter p l = [] -> a ∈ l -> p a = false.
Proof.
  intros Hnil Ha. destruct (p a) eqn:Hp; [|done].
  assert (Hin : In a (List.filter p l)) by (apply filter_In; by rewrite <- list_elem_of_In).
  rewrite Hnil in Hin. destruct Hin.
Qed.

Lemma map_nil_inv {A B} (f : A -> B) (l : list A) : map f l = [] -> l = [].
Proof. by destruct l. Qed.

(** X11. After "unheart all" no record of the library is hearted, and after
    "unhide all" none is hidden. The store is keyed by identifier and the
    library showed every stored record. Neither handler writes a thumbnail,
    and neither records anything in the edit history, so they cannot be
    undone. *)
Theorem unheart_all_and_unhide_all_clear_their_flag :
  forall st,
    map_Forall (fun k s => id s = k) (VIDEOS (database st)) ->
    (forall s, s ∈ getAllVideos (database st) -> s ∈ videos st) ->
    let st1 := handleUnheartAllVideos st in
    let st2 := handleUnhideAllVideos st in
    ((forall v, v ∈ videos st1 -> hearted v = false)
     /\ MAIN_THUMBNAILS (database st1) = MAIN_THUMBNAILS (database st)
     /\ TIMELINE_THUMBNAILS (database st1) = TIMELINE_THUMBNAILS (database st)
     /\ undoStack st1 = undoStack st /\ redoStack st1 = redoStack st)
    /\ ((forall v, v ∈ videos st2 -> hidden v = false)
        /\ MAIN_THUMBNAILS (database st2) = MAIN_THUMBNAILS (database st)
        /\ TIMELINE_THUMBNAILS (database st2) = TIMELINE_THUMBNAILS (database st)
        /\ undoStack st2 = undoStack st /\ redoStack st2 = redoStack st).
Proof.
  intros st Hkey Hsync st1 st2. subst st1 st2. split.
  - unfold handleUnheartAllVideos.
    destruct (map (with_hearted false) (List.filter hearted (videos st))) as [|x l] eqn:Hb.
    + simpl. split_and!; try done. intros v Hv.
      apply (filter_nil_false hearted (videos st)); [|done]. by eapply map_nil_inv.
    + rewrite <- Hb. simpl. split_and!; try done. intros v Hv.
      by apply (bulk_clears hearted (with_hearted false) (videos st) (database st)).
  - unfold handleUnhideAllVideos.
    destruct (map (with_hidden false) (List.filter hidden (videos st))) as [|x l] eqn:Hb.
    + simpl. split_and!; try done. intros v Hv.
      apply (filter_nil_false hidden (videos st)); [|done]. by eapply map_nil_inv.
    + rewrite <- Hb. simpl. split_and!; try done. intros v Hv.
      by apply (bulk_clears hidden (with_hidden false) (videos st) (database st)).
Qed.

Lemma unheart_all_and_unhide_all_clear_their_flag_witness :
  let st := Sample.state [Sample.video "a" "clips/a.mp4";
                          with_hidden true (Sample.video "b" "clips/b.mp4")] in
  forallb (fun v => negb (hearted v)) (videos st) = false
  /\ forallb (fun v => negb (hidden v)) (videos st) = false
  /\ (forall v, v ∈ videos (handleUnheartAllVideos st) -> hearted v = false)
  /\ (forall v, v ∈ videos (handleUnhideAllVideos st) -> hidden v = false).
Proof.
  intros st.
  destruct (unheart_all_and_unhide_all_clear_their_flag st) as [[H1 _] [H2 _]].
  - by_evaluation.
  - intros s Hs. revert s Hs. apply Forall_forall. by_evaluation.
  - split_and!; [by vm_compute | by vm_compute | exact H1 | exact H2].
Defined.

Lemma includes_filter_Duplicate (ts : list string) :
  includes "Duplicate" (List.filter (fun t => negb (String.eqb t "Duplicate")) ts) = false.
Proof.
  unfold includes. apply bool_decide_eq_false_2.
  intros Hin%list_elem_of_In%filter_In. destruct Hin as [_ Hne].
  by rewrite eqb_string_refl in Hne.
Qed.

(** X12. After "reset duplicates" no record of the library carries the tag
    [Duplicate], under the same assumptions; thumbnails and edit history are
    not touched. *)
Theorem reset_duplicates_leaves_no_tag :
  forall st,
    map_Forall (fun k s => id s = k) (VIDEOS (database st)) ->
    (forall s, s ∈ getAllVideos (database st) -> s ∈ videos st) ->
    let st' := handleResetDuplicates st in
    (forall v, v ∈ videos st' -> "Duplicate" ∉ tags v)
    /\ MAIN_THUMBNAILS (database st') = MAIN_THUMBNAILS (database st)
    /\ TIMELINE_THUMBNAILS (database st') = TIMELINE_THUMBNAILS (database st)
    /\ undoStack st' = undoStack st /\ redoStack st' = redoStack st.
Proof.
  intros st Hkey Hsync st'. subst st'. unfold handleResetDuplicates.
  set (p := fun v => includes "Duplicate" (tags v)).
  set (g := fun v =>
              with_tags (List.filter (fun t => negb (String.eqb t "Duplicate")) (tags v)) v).
  assert (Hp : forall v, p v = false -> "Duplicate" ∉ tags v).
  { intros v Hv. unfold p, includes in Hv. by apply bool_decide_eq_false_1 in Hv. }
  destruct (map g (List.filter p (videos st))) as [|x l] eqn:Hb.
  - simpl. split_and!; try done. intros v Hv. apply Hp.
    apply (filter_nil_false p (videos st)); [|done]. by eapply map_nil_inv.
  - rewrite <- Hb. simpl. split_and!; try done. intros v Hv. apply Hp.
    apply (bulk_clears p g (videos st) (database st)); try done.
    intros w. unfold p, g. simpl. apply includes_filter_Duplicate.
Qed.

Lemma reset_duplicates_leaves_no_tag_witness :
  let st := Sample.state [with_tags ["Duplicate"; "holiday"] (Sample.video "a" "clips/a.mp4");
                          Sample.video "b" "clips/b.mp4"] in
  existsb (fun v => includes "Duplicate" (tags v)) (videos st) = true
  /\ forall v, v ∈ videos (handleResetDuplicates st) -> "Duplicate" ∉ tags v.
Proof.
  intros st. split; [by vm_compute|].
  apply (reset_duplicates_leaves_no_tag st).
  - by_evaluation.
  - intros s Hs. revert s Hs. apply Forall_forall. by_evaluation.
Defined.

(** X13. "Find duplicates" tags every group. A record of the library that
    has a duration, is neither deleted nor hidden and shares its size and its
    rounded duration with another such record carries the tag [Duplicate] in
    the library afterwards. The store is keyed by identifier, the library
    showed every stored record and holds no identifier twice. *)
Theorem find_duplicates_tags_every_group :
  forall st v,
    map_Forall (fun k s => id s = k) (VIDEOS (database st)) ->
    (forall s, s ∈ getAllVideos (database st) -> s ∈ videos st) ->
    NoDup (map id (videos st)) ->
    v ∈ videos st ->
    noDuration v || deleted v || hidden v = false ->
    (1 < length (List.filter
                   (fun w => negb (noDuration w || deleted w || hidden w)
                             && String.eqb (duplicateKey w) (duplicateKey v))
                   (videos st)))%nat ->
    forall v', v' ∈ videos (handleFindDuplicates st) -> id v' = id v ->
               "Duplicate" ∈ tags v'.
Proof.
  intros st v Hkey Hsync Hnd Hv He Hlen v' Hv' Hid.
  assert (Htagged : includes "Duplicate" (tags v) = true -> "Duplicate" ∈ tags v).
  { unfold includes. apply bool_decide_eq_true_1. }
  assert (Hbatch : includes "Duplicate" (tags v) = false ->
                   with_tags (Array_sort (tags v ++ ["Duplicate"])) v
                   ∈ duplicatesToUpdate (videos st)).
  { intros Hinc. apply elem_of_duplicatesToUpdate. by exists v. }
  unfold handleFindDuplicates in Hv'.
  destruct (duplicatesToUpdate (videos st)) as [|x0 l0] eqn:Hb.
  - simpl in Hv'. assert (v' = v) as -> by (by apply (NoDup_id_inj (videos st))).
    destruct (includes "Duplicate" (tags v)) eqn:Hinc; [by apply Htagged|].
    specialize (Hbatch eq_refl). by apply elem_of_nil in Hbatch.
  - rewrite <- Hb in Hv', Hbatch. simpl in Hv'.
    apply elem_of_getAllVideos in Hv' as (k & s' & Hk & ->).
    rewrite id_applyVideoDefaults in Hid. rewrite VIDEOS_batch in Hk.
    destruct (put_all_lookup _ _ _ _ Hk) as [(x & Hx & Hxk & ->)|[Hs Hall]].
    + apply elem_of_duplicatesToUpdate in Hx as (w & Hw & _ & _ & _ & ->).
      simpl. apply elem_of_Array_sort, elem_of_app. right. left.
    + pose proof (Hkey _ _ Hs) as Hks. simpl in Hks.
      destruct (includes "Duplicate" (tags v)) eqn:Hinc.
      * assert (applyVideoDefaults s' = v) as Heq.
        { apply (NoDup_id_inj (videos st)); [done | | done |].
          - apply Hsync, elem_of_getAllVideos. by exists k, s'.
          - by rewrite id_applyVideoDefaults. }
        rewrite Heq. by apply Htagged.
      * exfalso. apply (Hall _ (Hbatch eq_refl)). simpl. congruence.
Qed.

Lemma find_duplicates_tags_every_group_witness :
  let a := with_duration (Some (Q2Qc 12)) (Sample.video "a" "clips/a.mp4") in
  let b := with_duration (Some (Q2Qc (49 # 4))) (Sample.video "b" "copy/a.mp4") in
  let st := Sample.state [a; b] in
  Forall (fun v' => id v' = "a" -> "Duplicate" ∈ tags v') (videos (handleFindDuplicates st))
  /\ Exists (fun v' => id v' = "a") (videos (handleFindDuplicates st)).
Proof.
  intros a b st. split; [|by_evaluation].
  apply Forall_forall. intros v' Hv'.
  apply (find_duplicates_tags_every_group st a); [| | | | | | done].
  - by_evaluation.
  - intros s Hs. revert s Hs. apply Forall_forall. by_evaluation.
  - by_evaluation.
  - by_evaluation.
  - by vm_compute.
  - by_evaluation.
Defined.

(** X14. "Find duplicates" writes tags only. Every object the store holds
    afterwards is the one it held before, or a record of the library that
    has a duration, is neither deleted nor hidden, shares its key with
    another such record and did not carry the tag, stored with the tag
    added: its tags are the old ones and [Duplicate], in sorted order, and
    nothing else of the record differs. Thumbnails and edit history are not
    touched. *)
Theorem find_duplicates_writes_tags_only :
  forall st,
    let st' := handleFindDuplicates st in
    (forall k s',
        VIDEOS (database st') !! k = Some s' ->
        VIDEOS (database st) !! k = Some s'
        \/ exists v,
             v ∈ videos st /\ id v = k
             /\ noDuration v || deleted v || hidden v = false
             /\ (1 < length (List.filter
                               (fun w => negb (noDuration w || deleted w || hidden w)
                                         && String.eqb (duplicateKey w) (duplicateKey v))
                               (videos st)))%nat
             /\ ("Duplicate" ∉ tags v)
             /\ tags s' ≡ₚ "Duplicate" :: tags v
             /\ Sorted (fun a b => String.leb a b = true) (tags s')
             /\ with_tags (tags v) s' = videoMetadata v)
    /\ MAIN_THUMBNAILS (database st') = MAIN_THUMBNAILS (database st)
    /\ TIMELINE_THUMBNAILS (database st') = TIMELINE_THUMBNAILS (database st)
    /\ undoStack st' = undoStack st /\ redoStack st' = redoStack st.
Proof.
  intros st st'. subst st'. unfold handleFindDuplicates.
  destruct (duplicatesToUpdate (videos st)) as [|x0 l0] eqn:Hb.
  - simpl. split_and!; try done. intros k s' Hk. by left.
  - rewrite <- Hb. simpl. split_and!; try done. intros k s' Hk.
    destruct (put_all_lookup _ _ _ _ Hk) as [(x & Hx & Hxk & ->)|[Hs _]]; [|by left].
    right. apply elem_of_duplicatesToUpdate in Hx as (v & Hv & He & Hlen & Hinc & ->).
    exists v. split_and!; try done.
    + unfold includes in Hinc. by apply bool_decide_eq_false_1 in Hinc.
    + simpl. rewrite Array_sort_perm. by rewrite Permutation_app_comm.
    + simpl. apply Array_sort_sorted.
Qed.

(** X15. The duration scan writes durations only. Every object the store
    holds afterwards is the one it held before, or a playable record of the
    library that had no duration, stored with a duration that is not zero
    and otherwise as it was. The timeline strips, the edit history and the
    playlist are not touched. *)
Theorem scan_durations_writes_durations_only :
  forall (getVideoDuration : File.t -> option Qc) st,
    let st' := handleScanDurations getVideoDuration st in
    (forall k s',
        VIDEOS (database st') !! k = Some s' ->
        VIDEOS (database st) !! k = Some s'
        \/ exists v q,
             v ∈ videos st /\ id v = k /\ isPlayable v = true
             /\ (duration v = None \/ duration v = Some 0%Qc)
             /\ q <> 0%Qc
             /\ s' = videoMetadata (with_duration (Some q) v))
    /\ TIMELINE_THUMBNAILS (database st') = TIMELINE_THUMBNAILS (database st)
    /\ undoStack st' = undoStack st /\ redoStack st' = redoStack st
    /\ playlist st' = playlist st.
Proof.
  intros getDur st.
  set (touched := fun k s' =>
         exists v q,
           v ∈ videos st /\ id v = k /\ isPlayable v = true
           /\ (duration v = None \/ duration v = Some 0%Qc)
           /\ q <> 0%Qc
           /\ s' = videoMetadata (with_duration (Some q) v)).
  set (I := fun st1 : State =>
         (forall k s', VIDEOS (database st1) !! k = Some s' ->
                       VIDEOS (database st) !! k = Some s' \/ touched k s')
         /\ TIMELINE_THUMBNAILS (database st1) = TIMELINE_THUMBNAILS (database st)
         /\ undoStack st1 = undoStack st /\ redoStack st1 = redoStack st
         /\ playlist st1 = playlist st).
  assert (Hstep : forall st1 v,
             I st1 -> v ∈ videos st -> isPlayable v = true ->
             (duration v = None \/ duration v = Some 0%Qc) ->
             I (scanDuration getDur st1 v)).
  { intros st1 v (H1 & H2 & H3 & H4 & H5) Hv Hplay Hdur.
    unfold scanDuration, getFileForPlayback.
    destruct (JsMap.get (relativePath v) (fileMap st1)) as [file|].
    - unfold or_null. destruct (getDur file) as [q|]; [|done].
      destruct (zero_seconds q) eqn:Hz; [done|].
      split_and!; try done. simpl. intros k s' Hk.
      destruct (decide (id v = k)) as [<-|Hne].
      + rewrite lookup_insert_eq in Hk. injection Hk as <-. right.
        exists v, q. split_and!; try done.
        unfold zero_seconds in Hz. by apply bool_decide_eq_false_1 in Hz.
      + rewrite lookup_insert_ne in Hk by done. by apply H1.
    - destruct (JsMap.size (fileMap st1) =? 0)%nat; done. }
  assert (Hfold : forall l st1,
             I st1 ->
             Forall (fun v => v ∈ videos st /\ isPlayable v = true
                              /\ (duration v = None \/ duration v = Some 0%Qc)) l ->
             I (fold_left (scanDuration getDur) l st1)).
  { induction l as [|v l IH]; intros st1 HI Hl; [done|].
    apply Forall_cons in Hl as [(Hv & Hplay & Hdur) Hl]. simpl.
    apply IH; [by apply Hstep | done]. }
  assert (HI0 : I st) by (split_and!; try done; intros k s' Hk; by left).
  unfold handleScanDurations.
  destruct (List.filter _ (videos st)) as [|x0 l0] eqn:Hb; [exact HI0|].
  rewrite <- Hb.
  specialize (Hfold (List.filter
                       (fun v => (bool_decide (duration v = None)
                                  || bool_decide (duration v = Some 0%Qc))
                                 && isPlayable v) (videos st)) st HI0).
  apply Hfold. apply Forall_forall. intros v Hv%list_elem_of_In%filter_In.
  destruct Hv as [Hv Hp]. apply andb_true_iff in Hp as [Hd Hplay].
  split_and!; [by apply list_elem_of_In | done |].
  apply orb_true_iff in Hd as [Hd|Hd]; apply bool_decide_eq_true_1 in Hd; tauto.
Qed.

End BulkFacts.

(** ** Status filters *)

Section FilterFacts.
Import App.
Implicit Types (m : JsMap.t FilterMode) (f k : string) (a b : FilterMode).

Lemma set_absent {V} k (a : V) (m : JsMap.t V) :
  k ∉ JsMap.keys m -> JsMap.set k a m = (m ++ [(k, a)])%list.
Proof.
  induction m as [|[k0 a0] m IH]; simpl; intros Hk; [done|].
  apply not_elem_of_cons in Hk as [Hne Hk].
  destruct (String.eqb_spec k0 k); [congruence|]. by rewrite IH.
Qed.

Lemma set_last {V} k (a b : V) (m : JsMap.t V) :
  k ∉ JsMap.keys m -> JsMap.set k a (m ++ [(k, b)])%list = (m ++ [(k, a)])%list.
Proof.
  induction m as [|[k0 a0] m IH]; simpl; intros Hk.
  - by rewrite eqb_string_refl.
  - apply not_elem_of_cons in Hk as [Hne Hk].
    destruct (String.eqb_spec k0 k); [congruence|]. by rewrite IH.
Qed.

Lemma delete_last {V} k (a : V) (m : JsMap.t V) :
  k ∉ JsMap.keys m -> JsMap.delete k (m ++ [(k, a)])%list = m.
Proof.
  induction m as [|[k0 a0] m IH]; simpl; intros Hk.
  - by rewrite eqb_string_refl.
  - apply not_elem_of_cons in Hk as [Hne Hk].
    destruct (String.eqb_spec k0 k); [congruence|]. by rewrite IH.
Qed.

Lemma delete_set {V} k (a : V) (m : JsMap.t V) :
  k ∈ JsMap.keys m -> JsMap.delete k (JsMap.set k a m) = JsMap.delete k m.
Proof.
  induction m as [|[k0 a0] m IH]; simpl; intros Hk.
  - by apply elem_of_nil in Hk.
  - destruct (String.eqb_spec k0 k) as [->|Hne]; simpl.
    + by rewrite eqb_string_refl.
    + destruct (String.eqb_spec k0 k); [congruence|].
      apply elem_of_cons in Hk as [?|Hk]; [congruence|]. by rewrite IH.
Qed.

Lemma delete_perm {V} k (a : V) (m : JsMap.t V) :
  JsMap.get k m = Some a -> (JsMap.delete k m ++ [(k, a)])%list ≡ₚ m.
Proof.
  induction m as [|[k0 a0] m IH]; simpl; [done|].
  destruct (String.eqb_spec k0 k) as [->|Hne].
  - intros [= ->]. by rewrite <- Permutation_cons_append.
  - intros Hg. simpl. by rewrite IH.
Qed.

Lemma get_Some_keys {V} k (a : V) (m : JsMap.t V) :
  JsMap.get k m = Some a -> k ∈ JsMap.keys m.
Proof.
  intros Hg. destruct (decide (k ∈ JsMap.keys m)) as [|Hn]; [done|].
  apply get_None_keys in Hn. congruence.
Qed.

Lemma get_perm {V} k (m m' : JsMap.t V) :
  NoDup (JsMap.keys m) -> m' ≡ₚ m -> JsMap.get k m' = JsMap.get k m.
Proof.
  intros Hnd Hp.
  assert (Hnd' : NoDup (JsMap.keys m')).
  { unfold JsMap.keys in *. rewrite map_fmap in *. by rewrite Hp. }
  destruct (JsMap.get k m) as [a|] eqn:Hg.
  - apply elem_of_get; [done|]. rewrite Hp. by apply get_elem_of.
  - apply get_None_keys. apply get_None_keys in Hg.
    unfold JsMap.keys in *. rewrite map_fmap in *. by rewrite Hp.
Qed.

Lemma forallb_perm {A} (p : A -> bool) (l l' : list A) :
  l' ≡ₚ l -> forallb p l' = forallb p l.
Proof.
  intros Hp. apply eq_true_iff_eq. rewrite !forallb_forall.
  split; intros H x Hx; apply H; apply list_elem_of_In; apply list_elem_of_In in Hx.
  - by rewrite Hp.
  - by rewrite <- Hp.
Qed.

Lemma matchesStatusFilters_perm m m' v :
  m' ≡ₚ m -> matchesStatusFilters m' v = matchesStatusFilters m v.
Proof.
  intros Hp. unfold matchesStatusFilters, JsMap.size.
  rewrite (Permutation_length Hp). by rewrite (forallb_perm _ _ _ Hp).
Qed.

Lemma toggle_include f m :
  JsMap.get f m = Some include ->
  handleStatusFilterToggle f m = JsMap.set f exclude m.
Proof. intros Hg. unfold handleStatusFilterToggle. by rewrite Hg. Qed.

Lemma toggle_exclude f m :
  JsMap.get f m = Some exclude ->
  handleStatusFilterToggle f m = JsMap.delete f m.
Proof. intros Hg. unfold handleStatusFilterToggle. by rewrite Hg. Qed.

Lemma toggle_unset f m :
  JsMap.get f m = None ->
  handleStatusFilterToggle f m = JsMap.set f include m.
Proof. intros Hg. unfold handleStatusFilterToggle. by rewrite Hg. Qed.

Lemma get_last {V} k (a : V) (m : JsMap.t V) :
  k ∉ JsMap.keys m -> JsMap.get k (m ++ [(k, a)])%list = Some a.
Proof. intros Hk. rewrite <- (set_absent k a) by done. apply get_set_eq. Qed.

(** What one toggle does to the map, by the state of the filter. *)
Lemma toggle_step f m :
  NoDup (JsMap.keys m) ->
  handleStatusFilterToggle f m
  = match JsMap.get f m with
    | None => (m ++ [(f, include)])%list
    | Some include => JsMap.set f exclude m
    | Some exclude => JsMap.delete f m
    end
  /\ JsMap.get f (handleStatusFilterToggle f m)
     = match JsMap.get f m with
       | None => Some include
       | Some include => Some exclude
       | Some exclude => None
       end
  /\ (forall k, k <> f -> JsMap.get k (handleStatusFilterToggle f m) = JsMap.get k m)
  /\ NoDup (JsMap.keys (handleStatusFilterToggle f m)).
Proof.
  intros Hnd. destruct (JsMap.get f m) as [[]|] eqn:Hg.
  - rewrite (toggle_include f m Hg). split_and!.
    + done.
    + apply get_set_eq.
    + intros k Hk. by apply get_set_ne.
    + rewrite keys_set_present; [done | by eapply get_Some_keys].
  - rewrite (toggle_exclude f m Hg). split_and!.
    + done.
    + by apply get_delete_NoDup.
    + intros k Hk. by apply get_delete_ne.
    + eapply sublist_NoDup; [done | apply keys_delete_sublist].
  - rewrite (toggle_unset f m Hg). pose proof Hg as Hout.
    apply get_None_keys in Hout. split_and!.
    + by apply set_absent.
    + apply get_set_eq.
    + intros k Hk. by apply get_set_ne.
    + rewrite keys_set_absent by done. apply NoDup_app. split_and!; [done | | ].
      * intros x Hx ->%list_elem_of_singleton. done.
      * apply NoDup_singleton.
Qed.

(** A record that passes the status filters meets the condition of every
    filter set to include and of none set to exclude. *)
Lemma matchesStatusFilters_entry m f a v :
  matchesStatusFilters m v = true -> JsMap.get f m = Some a ->
  conditionMet f v = match a with include => true | exclude => false end.
Proof.
  intros Hm Hg. apply get_elem_of in Hg.
  unfold matchesStatusFilters in Hm.
  destruct m as [|e m']; [by apply elem_of_nil in Hg|].
  change (0 <? JsMap.size (e :: m'))%nat with true in Hm. simpl in Hm.
  change (forallb (fun entry =>
            match snd entry with
            | include => conditionMet (fst entry) v
            | exclude => negb (conditionMet (fst entry) v)
            end) (e :: m') = true) in Hm.
  rewrite forallb_forall in Hm.
  specialize (Hm (f, a) (proj1 (list_elem_of_In _ _) Hg)). simpl in Hm.
  destruct a; [done | by apply negb_true_iff].
Qed.

(** X16. A status filter cycles unset, include, exclude, unset: every
    toggle moves the filter one step along the cycle and leaves the lookup
    of every other filter as it was. A record that passes the filters after
    a toggle meets the condition of the toggled filter when that is now set
    to include and does not meet it when that is now set to exclude. After
    three toggles the map is the one before when the filter was not set;
    otherwise the entry of the filter has moved to the end with the mode it
    had, so every lookup and the status-filter test of every record are as
    before. The map has no key twice. *)
Theorem status_filter_toggle_cycles :
  forall (filter : string) (m : JsMap.t FilterMode),
    NoDup (JsMap.keys m) ->
    let next := fun mode =>
      match mode with
      | None => Some include
      | Some include => Some exclude
      | Some exclude => None
      end in
    let m1 := handleStatusFilterToggle filter m in
    let m2 := handleStatusFilterToggle filter m1 in
    let m3 := handleStatusFilterToggle filter m2 in
    JsMap.get filter m1 = next (JsMap.get filter m)
    /\ JsMap.get filter m2 = next (JsMap.get filter m1)
    /\ JsMap.get filter m3 = next (JsMap.get filter m2)
    /\ (forall k, k <> filter -> JsMap.get k m1 = JsMap.get k m)
    /\ NoDup (JsMap.keys m1)
    /\ (forall v, matchesStatusFilters m1 v = true ->
          match JsMap.get filter m1 with
          | Some include => conditionMet filter v = true
          | Some exclude => conditionMet filter v = false
          | None => True
          end)
    /\ m3 = match JsMap.get filter m with
            | None => m
            | Some mode => (JsMap.delete filter m ++ [(filter, mode)])%list
            end
    /\ (forall k, JsMap.get k m3 = JsMap.get k m)
    /\ (forall v, matchesStatusFilters m3 v = matchesStatusFilters m v).
Proof.
  intros f m Hnd next m1 m2 m3.
  destruct (toggle_step f m Hnd) as (E1 & G1 & F1 & Hnd1). fold m1 in E1, G1, F1, Hnd1.
  destruct (toggle_step f m1 Hnd1) as (E2 & G2 & F2 & Hnd2). fold m2 in E2, G2, F2, Hnd2.
  destruct (toggle_step f m2 Hnd2) as (E3 & G3 & F3 & Hnd3). fold m3 in E3, G3, F3, Hnd3.
  assert (Hm3 : m3 = match JsMap.get f m with
                     | None => m
                     | Some mode => (JsMap.delete f m ++ [(f, mode)])%list
                     end).
  { rewrite E3, G2, G1. rewrite E2, G1. rewrite E1.
    destruct (JsMap.get f m) as [[]|] eqn:Hg; simpl.
    - rewrite delete_set by (by eapply get_Some_keys). done.
    - by rewrite set_last by (by apply keys_delete_NoDup).
    - apply get_None_keys in Hg. rewrite set_last by done.
      by rewrite delete_last. }
  assert (Hp : m3 ≡ₚ m).
  { rewrite Hm3. destruct (JsMap.get f m) as [a|] eqn:Hg; [|done].
    by apply delete_perm. }
  split_and!; try done.
  - intros v Hv. destruct (JsMap.get f m1) as [a|] eqn:Hg; [|done].
    pose proof (matchesStatusFilters_entry m1 f a v Hv Hg) as H.
    by destruct a.
  - intros k. by apply get_perm.
  - intros v. by apply matchesStatusFilters_perm.
Qed.

Lemma status_filter_toggle_cycles_witness :
  let m := [("hearted", include); ("deleted", exclude)] in
  let m1 := handleStatusFilterToggle "hearted" m in
  let m2 := handleStatusFilterToggle "hearted" m1 in
  let m3 := handleStatusFilterToggle "hearted" m2 in
  m1 = [("hearted", exclude); ("deleted", exclude)]
  /\ m2 = [("deleted", exclude)]
  /\ m3 = [("deleted", exclude); ("hearted", include)]
  /\ JsMap.get "hearted" m1 = Some exclude
  /\ (forall v, matchesStatusFilters m1 v = true -> hearted v = false)
  /\ (forall v, matchesStatusFilters m3 v = matchesStatusFilters m v).
Proof.
  intros m m1 m2 m3.
  assert (Hnd : NoDup (JsMap.keys m)) by (by_evaluation).
  destruct (status_filter_toggle_cycles "hearted" m Hnd)
    as (H1 & _ & _ & _ & _ & Hview & H3 & _ & Hsame).
  split_and!.
  - by vm_compute.
  - by vm_compute.
  - exact H3.
  - exact H1.
  - intros v Hv. exact (Hview v Hv).
  - exact Hsame.
Defined.

End FilterFacts.

(** ** Pages *)

Section PageFacts.
Import App.

Lemma slice_lookup {A} (a b : Z) (l : list A) (j : nat) :
  0 <= a -> a <= b ->
  slice a b l !! j
  = if decide (Z.of_nat j < b - a) then l !! (Z.to_nat a + j)%nat else None.
Proof.
  intros Ha Hab. unfold slice.
  destruct (Z.ltb_spec a 0) as [|_]; [lia|]. destruct (Z.ltb_spec b 0) as [|_]; [lia|].
  set (len := Z.of_nat (length l)).
  destruct (decide (Z.of_nat j < b - a)) as [Hj|Hj].
  - destruct (decide (a + Z.of_nat j < len)) as [Hin|Hout].
    + rewrite lookup_take_lt by lia. rewrite lookup_drop. f_equal. lia.
    + rewrite (lookup_ge_None_2 l) by (subst len; lia).
      apply lookup_ge_None_2. rewrite length_take, length_drop. subst len. lia.
  - apply lookup_ge_None_2. rewrite length_take, length_drop. subst len. lia.
Qed.

Lemma slice_length {A} (a b : Z) (l : list A) :
  0 <= a -> a <= b -> (Z.of_nat (length (slice a b l)) <= b - a).
Proof.
  intros Ha Hab. unfold slice.
  destruct (Z.ltb_spec a 0) as [|_]; [lia|]. destruct (Z.ltb_spec b 0) as [|_]; [lia|].
  rewrite length_take, length_drop. lia.
Qed.

(** X17. Page [p] of the grid, for [p] from 1, shows the records at the
    positions [100 (p - 1)] to [100 p - 1] of the displayed list, in order,
    and nothing else: a page has at most 100 records and its [j]-th record
    is the one at position [100 (p - 1) + j]. *)
Theorem currentVideos_is_the_page :
  forall (currentPage : Z) (displayedVideos : list VideoData),
    1 <= currentPage ->
    (length (currentVideos currentPage displayedVideos) <= 100)%nat
    /\ forall j : nat,
         (j < 100)%nat ->
         currentVideos currentPage displayedVideos !! j
         = displayedVideos !! (100 * Z.to_nat (currentPage - 1) + j)%nat.
Proof.
  intros p l Hp. unfold currentVideos, VIDEOS_PER_PAGE. split.
  - pose proof (slice_length ((p - 1) * 100) ((p - 1) * 100 + 100) l). lia.
  - intros j Hj. rewrite slice_lookup by lia.
    destruct (decide _) as [_|Hn]; [|lia]. f_equal. lia.
Qed.

Lemma currentVideos_is_the_page_witness :
  let l := map (fun i => Sample.video (pretty i) "clips/a.mp4") (seq 0 250) in
  currentVideos 3 l !! 7%nat = l !! 207%nat
  /\ length (currentVideos 3 l) = 50%nat.
Proof.
  intros l. split; [|by vm_compute].
  destruct (currentVideos_is_the_page 3 l) as [_ H]; [lia|].
  apply (H 7%nat). lia.
Defined.

Lemma totalPages_bounds (l : list VideoData) :
  100 * (totalPages l - 1) < Z.of_nat (length l) <= 100 * totalPages l
  \/ (l = [] /\ totalPages l = 0).
Proof.
  unfold totalPages, VIDEOS_PER_PAGE. destruct l as [|v l]; [by right|]. left.
  set (n := Z.of_nat (length (v :: l))).
  assert (0 < n) by (subst n; simpl; lia).
  pose proof (Z.div_mod (n + 100 - 1) 100 ltac:(lia)).
  pose proof (Z.mod_pos_bound (n + 100 - 1) 100 ltac:(lia)). lia.
Qed.

(** X18. Whatever is typed into the page box, the page [goToPage] selects
    lies between 1 and the number of pages (1 when there is none), and when
    any record is displayed that page of the grid is not empty. *)
Theorem goToPage_selects_a_page :
  forall (page : option Z) (displayedVideos : list VideoData),
    let selected := HeaderPagination.goToPage page (totalPages displayedVideos) in
    1 <= selected <= Z.max 1 (totalPages displayedVideos)
    /\ (displayedVideos <> [] -> currentVideos selected displayedVideos <> []).
Proof.
  intros page l selected.
  assert (Hsel : 1 <= selected <= Z.max 1 (totalPages l)).
  { subst selected. unfold HeaderPagination.goToPage.
    destruct (Z.ltb_spec 0 (totalPages l)); destruct page as [q|]; try lia;
      destruct (Z.ltb_spec q 1); try lia;
      match goal with |- context [?a <? q] => destruct (Z.ltb_spec a q) end; lia. }
  split; [done|]. intros Hne.
  destruct (totalPages_bounds l) as [Hb|[-> _]]; [|done].
  assert (Hlen : (0 < length l)%nat) by (destruct l; simpl; [done | lia]).
  assert (Hlook : is_Some (currentVideos selected l !! 0%nat)).
  { destruct (currentVideos_is_the_page selected l) as [_ H]; [lia|].
    rewrite (H 0%nat) by lia. apply lookup_lt_is_Some. lia. }
  intros Hnil. rewrite Hnil in Hlook. by destruct Hlook.
Qed.

Lemma findIndex_Some {A} (p : A -> bool) (l : list A) (i : nat) :
  findIndex p l = Some i -> exists a, l !! i = Some a /\ p a = true.
Proof.
  revert i. induction l as [|a l IH]; intros i; simpl; [done|].
  destruct (p a) eqn:Hp.
  - intros [= <-]. by exists a.
  - destruct (findIndex p l) as [i'|]; [|done]. intros [= <-]. by apply IH.
Qed.

Lemma findIndex_None {A} (p : A -> bool) (l : list A) (a : A) :
  findIndex p l = None -> a ∈ l -> p a = false.
Proof.
  induction l as [|b l IH]; simpl; intros Hf Ha; [by apply elem_of_nil in Ha|].
  destruct (p b) eqn:Hp; [done|].
  destruct (findIndex p l); [done|].
  apply elem_of_cons in Ha as [->|Ha]; [done | by apply IH].
Qed.

(** X19. "Go to random" lands on the page of the record it picked: the
    record it scrolls to is playable and displayed, the page it selects is
    one of the pages of the grid, and that page shows a record with the
    identifier of the picked one. [randomIndex] is an index into the
    playable records, as [Math.floor(Math.random() * length)] is. *)
Theorem go_to_random_lands_on_the_page :
  forall (randomIndex : nat) (displayedVideos : list VideoData) (currentPage : Z),
    (randomIndex < length (List.filter isPlayable displayedVideos))%nat ->
    exists page randomVideo,
      handleGoToRandom randomIndex displayedVideos currentPage = (page, Some randomVideo)
      /\ randomVideo ∈ displayedVideos /\ isPlayable randomVideo = true
      /\ 1 <= page <= totalPages displayedVideos
      /\ exists w, w ∈ currentVideos page displayedVideos /\ id w = id randomVideo.
Proof.
  intros r l page0 Hr. unfold handleGoToRandom.
  destruct (lookup_lt_is_Some_2 _ _ Hr) as [v Hv]. rewrite Hv.
  assert (Hin : v ∈ l /\ isPlayable v = true).
  { apply list_elem_of_lookup_2 in Hv. apply list_elem_of_In, filter_In in Hv as [Hv Hp].
    split; [by apply list_elem_of_In | done]. }
  destruct Hin as [Hin Hplay].
  destruct (findIndex (fun w => String.eqb (id w) (id v)) l) as [i|] eqn:Hfind.
  - apply findIndex_Some in Hfind as (w & Hw & Hid). apply String.eqb_eq in Hid.
    exists (Z.of_nat i / VIDEOS_PER_PAGE + 1), v. split_and!; try done.
    + unfold VIDEOS_PER_PAGE. pose proof (Z.div_pos (Z.of_nat i) 100). lia.
    + pose proof (lookup_lt_Some _ _ _ Hw) as Hlt.
      destruct (totalPages_bounds l) as [Hb|[-> _]]; [|simpl in Hlt; lia].
      unfold VIDEOS_PER_PAGE.
      pose proof (Z.div_mod (Z.of_nat i) 100 ltac:(lia)).
      pose proof (Z.mod_pos_bound (Z.of_nat i) 100 ltac:(lia)). lia.
    + exists w. split; [|done].
      unfold VIDEOS_PER_PAGE.
      pose proof (Z.div_mod (Z.of_nat i) 100 ltac:(lia)) as Hdm.
      pose proof (Z.mod_pos_bound (Z.of_nat i) 100 ltac:(lia)) as Hmod.
      pose proof (Z.div_pos (Z.of_nat i) 100 ltac:(lia) ltac:(lia)) as Hdiv.
      destruct (currentVideos_is_the_page (Z.of_nat i / 100 + 1) l) as [_ H]; [lia|].
      apply (list_elem_of_lookup_2 _ (Z.to_nat (Z.of_nat i mod 100))).
      rewrite H by lia. rewrite <- Hw. f_equal. lia.
  - pose proof (findIndex_None _ _ v Hfind Hin) as Hid. simpl in Hid.
    by rewrite eqb_string_refl in Hid.
Qed.

Lemma go_to_random_lands_on_the_page_witness :
  let l := map (fun i => Sample.video (pretty i) "clips/a.mp4") (seq 0 250) in
  exists page randomVideo,
    handleGoToRandom 123 l 1 = (page, Some randomVideo)
    /\ exists w, w ∈ currentVideos page l /\ id w = id randomVideo.
Proof.
  intros l.
  destruct (go_to_random_lands_on_the_page 123 l 1) as (page & v & H1 & _ & _ & _ & H2).
  - by_evaluation.
  - exists page, v. split; [exact H1 | exact H2].
Defined.


End PageFacts.

Section PaginationFacts.
Import Pagination.

Lemma numbers_app (l1 l2 : list PageItem) :
  numbers (l1 ++ l2) = (numbers l1 ++ numbers l2)%list.
Proof. unfold numbers. by rewrite omap_app. Qed.

Lemma numbers_pagesFromTo (a b : Z) : numbers (pagesFromTo a b) = seqZ a (b - a + 1).
Proof.
  unfold numbers, pagesFromTo. generalize (seqZ a (b - a + 1)) as l.
  induction l as [|n l IH]; [done|]. simpl. by f_equal.
Qed.

Lemma numbers_ellipsis (c : bool) : numbers (if c then [Ellipsis] else []) = [].
Proof. by destruct c. Qed.

(** The numbers of a row of buttons [1, a..b, t], by position. *)
Lemma lookup_row (a b t : Z) (i : nat) (x : Z) :
  a <= b + 1 ->
  (1 :: seqZ a (b - a + 1) ++ [t])%list !! i = Some x <->
  (i = 0%nat /\ x = 1)
  \/ (1 <= Z.of_nat i <= b - a + 1 /\ x = a + Z.of_nat i - 1)
  \/ (Z.of_nat i = b - a + 2 /\ x = t).
Proof.
  intros Hab. destruct i as [|i]; simpl.
  - split; [intros [= <-]; by left | intros [[_ ->]|[[? _]|[? _]]]; [done | lia | lia]].
  - rewrite lookup_app_Some, lookup_seqZ, length_seqZ. split.
    + intros [[-> Hi]|[Hi Hx]].
      * right. left. lia.
      * right. right.
        apply list_lookup_singleton_Some in Hx as [Hx ->]. lia.
    + intros [[? _]|[[Hi ->]|[Hi ->]]]; [done | left; lia |].
      right. split; [lia|]. apply list_lookup_singleton_Some. lia.
Qed.

(** X20. The row of page buttons, for a current page between 1 and the
    number of pages: it has at most seven items, its numbers start with 1,
    end with the last page, ascend strictly, and the current page is one of
    them. *)
Theorem page_buttons_show_the_current_page :
  forall (currentPage totalPages : Z),
    1 <= currentPage <= totalPages ->
    let items := getPageNumbers currentPage totalPages in
    (length items <= 7)%nat
    /\ head (numbers items) = Some 1
    /\ last (numbers items) = Some totalPages
    /\ currentPage ∈ numbers items
    /\ forall (i j : nat) (x y : Z),
         numbers items !! i = Some x -> numbers items !! j = Some y ->
         (i < j)%nat -> x < y.
Proof.
  intros cur total Hcur items. subst items. unfold getPageNumbers.
  destruct (Z.leb_spec total 7) as [Hsmall|Hbig].
  - rewrite numbers_pagesFromTo. unfold pagesFromTo.
    rewrite length_map, length_seqZ.
    replace (total - 1 + 1) with total by lia. split_and!.
    + lia.
    + rewrite seqZ_cons by lia. done.
    + rewrite last_lookup, length_seqZ. apply lookup_seqZ. lia.
    + apply elem_of_seqZ. lia.
    + intros i j x y [-> Hi]%lookup_seqZ [-> Hj]%lookup_seqZ Hij. lia.
  - set (a := if total - 2 <=? cur then total - 3 else Z.max 2 (cur - 1)).
    set (b := if cur <=? 3 then 4 else Z.min (total - 1) (cur + 1)).
    assert (Hab : (2 <= a) /\ (a <= b) /\ (b <= total - 1) /\ (b - a <= 2)).
    { subst a b. destruct (Z.leb_spec (total - 2) cur), (Z.leb_spec cur 3); lia. }
    assert (Hnum : numbers ([PageNumber 1]
                            ++ (if 4 <? cur then [Ellipsis] else [])
                            ++ pagesFromTo a b
                            ++ (if cur <? total - 3 then [Ellipsis] else [])
                            ++ [PageNumber total])
                   = (1 :: seqZ a (b - a + 1) ++ [total])%list).
    { rewrite !numbers_app, !numbers_ellipsis, numbers_pagesFromTo. done. }
    rewrite Hnum. split_and!.
    + rewrite !length_app. unfold pagesFromTo. rewrite length_map, length_seqZ. simpl.
      destruct (4 <? cur), (cur <? total - 3); simpl; lia.
    + done.
    + rewrite app_comm_cons. apply last_snoc.
    + destruct (decide (cur = 1)) as [->|H1]; [left|].
      destruct (decide (cur = total)) as [->|Ht].
      { right. apply elem_of_app. right. left. }
      right. apply elem_of_app. left. apply elem_of_seqZ.
      subst a b. destruct (Z.leb_spec (total - 2) cur), (Z.leb_spec cur 3); lia.
    + intros i j x y Hi Hj Hij.
      apply lookup_row in Hi; [|lia]. apply lookup_row in Hj; [|lia]. lia.
Qed.

Lemma page_buttons_show_the_current_page_witness :
  getPageNumbers 4 8
  = [PageNumber 1; PageNumber 3; PageNumber 4; PageNumber 5; Ellipsis; PageNumber 8]
  /\ 4 ∈ numbers (getPageNumbers 4 8).
Proof.
  split; [by vm_compute|].
  destruct (page_buttons_show_the_current_page 4 8) as (_ & _ & _ & H & _); [lia | exact H].
Defined.

End PaginationFacts.

(** ** The playlist and the player *)

Section PlaylistFacts.
Import App.

Lemma filter_self {A} (p : A -> bool) (l : list A) :
  (forall a, a ∈ l -> p a = true) -> List.filter p l = l.
Proof.
  induction l as [|a l IH]; simpl; intros H; [done|].
  rewrite (H a) by left. f_equal. apply IH. intros b Hb. apply H. by right.
Qed.

(** X21. Adding to the playlist never makes a duplicate: the playlist stays
    duplicate-free and holds the identifier afterwards, a second addition of
    the same identifier changes nothing in it, and removing an identifier
    that was new gives the playlist back. The library, the store and the edit
    history are not touched. *)
Theorem add_to_playlist_keeps_entries_unique :
  forall (videoId : string) (st : State),
    NoDup (playlist st) ->
    let st' := handleAddToPlaylist videoId st in
    NoDup (playlist st')
    /\ videoId ∈ playlist st'
    /\ playlist (handleAddToPlaylist videoId st') = playlist st'
    /\ (videoId ∉ playlist st ->
        PlayerView.handleRemoveFromPlaylist videoId (playlist st') = playlist st)
    /\ videos st' = videos st /\ database st' = database st
    /\ undoStack st' = undoStack st /\ redoStack st' = redoStack st.
Proof.
  intros i st Hnd st'. subst st'. unfold handleAddToPlaylist, includes.
  destruct (decide (i ∈ playlist st)) as [Hin|Hnin].
  - rewrite (bool_decide_eq_true_2 _ Hin). simpl.
    rewrite (bool_decide_eq_true_2 _ Hin). by split_and!.
  - rewrite (bool_decide_eq_false_2 _ Hnin). simpl.
    assert (Hin' : i ∈ (playlist st ++ [i])%list) by (apply elem_of_app; right; left).
    rewrite (bool_decide_eq_true_2 _ Hin'). split_and!; try done.
    + apply NoDup_app. split_and!; [done | | apply NoDup_singleton].
      by intros s Hs ->%list_elem_of_singleton.
    + intros _. unfold PlayerView.handleRemoveFromPlaylist.
      rewrite List.filter_app. simpl. rewrite eqb_string_refl. simpl.
      rewrite app_nil_r. apply filter_self. intros a Ha.
      apply negb_true_iff, String.eqb_neq. congruence.
Qed.

Lemma add_to_playlist_keeps_entries_unique_witness :
  let st := Sample.state [Sample.cat] in
  playlist (handleAddToPlaylist "b" st) = ["a"; "b"]
  /\ playlist (handleAddToPlaylist "b" (handleAddToPlaylist "b" st)) = ["a"; "b"].
Proof.
  intros st.
  destruct (add_to_playlist_keeps_entries_unique "b" st) as (_ & _ & H & _).
  - by_evaluation.
  - split; [by vm_compute|]. rewrite H. by vm_compute.
Defined.

Lemma findVideo_is_None i (vs : list VideoData) :
  findVideo i vs = None <-> i ∉ map id vs.
Proof.
  split.
  - intros Hnone (v & -> & Hv)%elem_of_map. by apply (findVideo_None _ _ v Hnone Hv).
  - intros Hnin. destruct (findVideo i vs) as [v|] eqn:Hf; [|done].
    apply findVideo_Some in Hf as [Hv <-]. exfalso. apply Hnin.
    apply elem_of_map. by exists v.
Qed.

(** X22. The player plays exactly the playlist entries the library
    resolves: the identifiers of its records are the playlist without the
    identifiers no record has, in order. This is the list an import keeps, so
    every entry of an imported playlist plays. *)
Theorem player_plays_the_resolved_entries :
  forall (JSON_parse : string -> option JSON) (upload : Upload)
         (playlistIds : list string) (st : State),
    map id (PlayerView.playlist playlistIds (videos st))
    = filter (fun i => i ∈ map id (videos st)) playlistIds
    /\ (let st' := handleImportPlaylist JSON_parse upload st in
        playlist st' = playlist st
        \/ map id (PlayerView.playlist (playlist st') (videos st')) = playlist st').
Proof.
  intros parse upload ids st.
  assert (Hres : forall ids,
             map id (PlayerView.playlist ids (videos st))
             = filter (fun i => i ∈ map id (videos st)) ids).
  { clear ids. intros ids. unfold PlayerView.playlist.
    induction ids as [|i ids IH]; [done|]. simpl. rewrite filter_cons.
    destruct (findVideo i (videos st)) as [v|] eqn:Hf.
    - pose proof Hf as [Hv Hid]%findVideo_Some. simpl.
      rewrite decide_True by (apply elem_of_map; by exists v).
      f_equal; [done | exact IH].
    - apply findVideo_is_None in Hf. rewrite decide_False by done. exact IH. }
  split; [apply Hres|]. simpl.
  destruct upload as [| |text]; simpl; [by left | by left |].
  destruct (parse text) as [x|]; simpl; [|by left].
  destruct (asStringArray x) as [l|]; simpl; [|by left].
  right. rewrite Hres, validIds_filter.
  apply list_filter_filter_l. done.
Qed.

(** X23. An exported playlist imports back. The text offered for download
    is the playlist as a JSON array of strings, the export changes nothing but
    the toast, and importing a text that parses back to that array sets the
    playlist to itself without the identifiers no record has: to itself,
    when every entry is in the library. *)
Theorem export_then_import_restores_playlist :
  forall (JSON_stringify : JSON -> string) (JSON_parse : string -> option JSON)
         (st : State),
    JSON_parse (JSON_stringify (JArray (map JString (playlist st))))
    = Some (JArray (map JString (playlist st))) ->
    let text := fst (handleExportPlaylist JSON_stringify st) in
    let st1 := snd (handleExportPlaylist JSON_stringify st) in
    let st2 := handleImportPlaylist JSON_parse (Text text) st1 in
    st1 = showToast "Playlist exported!" success st
    /\ playlist st2 = filter (fun i => i ∈ map id (videos st)) (playlist st)
    /\ ((forall i, i ∈ playlist st -> i ∈ map id (videos st)) -> playlist st2 = playlist st).
Proof.
  intros stringify parse st Hparse text st1 st2. subst text st1 st2.
  assert (Hpl : playlist (handleImportPlaylist parse
                            (Text (fst (handleExportPlaylist stringify st)))
                            (snd (handleExportPlaylist stringify st)))
                = filter (fun i => i ∈ map id (videos st)) (playlist st)).
  { unfold handleExportPlaylist, handleImportPlaylist. simpl. rewrite Hparse.
    rewrite (proj2 (asStringArray_Some _ (playlist st)) eq_refl). simpl.
    by rewrite validIds_filter. }
  split_and!; [done | done |].
  intros Hall. rewrite Hpl. clear Hpl Hparse.
  induction (playlist st) as [|i l IH]; [done|].
  rewrite filter_cons, decide_True by (apply Hall; left).
  f_equal. apply IH. intros j Hj. apply Hall. by right.
Qed.

Lemma export_then_import_restores_playlist_witness :
  let st := Sample.state [Sample.cat] in
  let stringify := fun _ : JSON => "playlist.json" in
  let parse := fun _ : string => Some (JArray [JString "a"]) in
  playlist (handleImportPlaylist parse
              (Text (fst (handleExportPlaylist stringify st)))
              (snd (handleExportPlaylist stringify st)))
  = ["a"].
Proof.
  intros st stringify parse.
  destruct (export_then_import_restores_playlist stringify parse st) as (_ & _ & H).
  - done.
  - rewrite H; [done|]. intros i Hi. revert i Hi. apply Forall_forall. by_evaluation.
Defined.

End PlaylistFacts.

Section PlayerFacts.
Import PlayerView.

(** X24. The player always has a record to play when the playlist resolves
    to any: whatever index it is handed, also one outside the playlist as a
    saved index can be, the current record is defined, and it is the record at
    the index when the index is within the playlist. *)
Theorem player_has_a_current_video :
  forall (playlist : list VideoData) (currentIndex : Z),
    (playlist <> [] -> is_Some (currentVideo playlist currentIndex))
    /\ (0 <= currentIndex < Z.of_nat (length playlist) ->
        currentVideo playlist currentIndex = playlist !! Z.to_nat currentIndex).
Proof.
  intros pl i. unfold currentVideo. split.
  - intros Hne. apply lookup_lt_is_Some.
    assert (0 < length pl)%nat by (destruct pl; simpl; [done | lia]). lia.
  - intros Hi. f_equal. lia.
Qed.

(** X25. Next and previous step through the playlist in a circle. From an
    index within a playlist that is not empty both stay within it, next goes
    to the following entry and from the last to the first, and each undoes
    the other. *)
Theorem player_next_and_previous_cycle :
  forall (playlist : list VideoData) (i : Z),
    0 <= i < Z.of_nat (length playlist) ->
    let n := Z.of_nat (length playlist) in
    0 <= playNext playlist i < n
    /\ 0 <= playPrevious playlist i < n
    /\ playNext playlist i = (if i + 1 =? n then 0 else i + 1)
    /\ playPrevious playlist (playNext playlist i) = i
    /\ playNext playlist (playPrevious playlist i) = i.
Proof.
  intros pl i Hi n.
  assert (Hlen : (0 <? length pl)%nat = true) by (apply Nat.ltb_lt; lia).
  assert (Hnext : forall j, 0 <= j < n ->
                            playNext pl j = if j + 1 =? n then 0 else j + 1).
  { intros j Hj. unfold playNext. rewrite Hlen. fold n.
    destruct (Z.eqb_spec (j + 1) n) as [->|Hne].
    - apply Z.rem_same. lia.
    - apply Z.rem_small. lia. }
  assert (Hprev : forall j, 0 <= j < n ->
                            playPrevious pl j = if j =? 0 then n - 1 else j - 1).
  { intros j Hj. unfold playPrevious. rewrite Hlen. fold n.
    destruct (Z.eqb_spec j 0) as [->|Hne].
    - rewrite Z.rem_small by lia. lia.
    - rewrite Z.rem_mod_nonneg by lia.
      replace (j - 1 + n) with (j - 1 + 1 * n) by lia.
      rewrite Z.mod_add by lia. apply Z.mod_small. lia. }
  assert (Hi' : 0 <= i < n) by (subst n; lia).
  clearbody n. clear Hi Hlen.
  rewrite (Hnext i Hi'), (Hprev i Hi').
  split; [destruct (Z.eqb_spec (i + 1) n); lia|].
  split; [destruct (Z.eqb_spec i 0); lia|].
  split; [done|]. split.
  - destruct (Z.eqb_spec (i + 1) n) as [Heq|Hne].
    + rewrite Hprev by lia. simpl. lia.
    + rewrite Hprev by lia. destruct (Z.eqb_spec (i + 1) 0); lia.
  - destruct (Z.eqb_spec i 0) as [->|Hne].
    + rewrite Hnext by lia. destruct (Z.eqb_spec (n - 1 + 1) n); lia.
    + rewrite Hnext by lia. destruct (Z.eqb_spec (i - 1 + 1) n); lia.
Qed.

Lemma player_next_and_previous_cycle_witness :
  let pl := [Sample.video "a" "clips/a.mp4"; Sample.video "b" "clips/b.mp4";
             Sample.video "c" "clips/c.mp4"] in
  playNext pl 2 = 0 /\ playPrevious pl (playNext pl 2) = 2.
Proof.
  intros pl.
  destruct (player_next_and_previous_cycle pl 2) as (_ & _ & H1 & H2 & _).
  - simpl. lia.
  - split; [exact H1 | exact H2].
Defined.

End PlayerFacts.

(** ** Tags *)

Section TagFacts.

(** X26. The tag menu of a card writes tidy tags. When it updates the
    record, the tags it writes are in sorted order and without duplicates,
    they are the staged tags and the new tag if one was typed, they differ
    from the sorted tags the record had, and nothing else of the record
    changes. When it does not update, the record already has just those
    tags. *)
Theorem apply_tags_writes_sorted_unique_tags :
  forall (newTag : string) (stagedTags : list string) (video : VideoData),
    match VideoCard.handleApplyTags newTag stagedTags video with
    | Some updated =>
        Sorted (fun a b => String.leb a b = true) (tags updated)
        /\ NoDup (tags updated)
        /\ (forall t, t ∈ tags updated <-> t ∈ stagedTags \/ (t = newTag /\ newTag <> ""))
        /\ tags updated <> Array_sort (tags video)
        /\ with_tags (tags video) updated = video
    | None =>
        forall t, t ∈ tags video <-> t ∈ stagedTags \/ (t = newTag /\ newTag <> "")
    end.
Proof.
  intros newTag staged video. unfold VideoCard.handleApplyTags.
  set (final := if negb (empty_string newTag) && negb (includes newTag staged)
                then (staged ++ [newTag])%list else staged).
  assert (Hfinal : forall t, t ∈ final <-> t ∈ staged \/ (t = newTag /\ newTag <> "")).
  { intros t. subst final. unfold empty_string, includes.
    destruct (decide (newTag = "")) as [Hempty|Hfull].
    - rewrite (bool_decide_eq_true_2 _ Hempty). simpl. split; [by left | tauto].
    - rewrite (bool_decide_eq_false_2 _ Hfull). simpl.
      destruct (decide (newTag ∈ staged)) as [Hin|Hnin].
      + rewrite (bool_decide_eq_true_2 _ Hin). simpl.
        split; [by left | intros [?|[-> _]]; done].
      + rewrite (bool_decide_eq_false_2 _ Hnin). simpl.
        rewrite elem_of_app, list_elem_of_singleton. tauto. }
  destruct (decide (Array_sort (Set_of final) = Array_sort (tags video))) as [Heq|Hne].
  - rewrite (bool_decide_eq_true_2 _ Heq). intros t.
    rewrite <- Hfinal, <- (elem_of_Set_of t final).
    rewrite <- (elem_of_Array_sort t (Set_of final)), Heq.
    by rewrite elem_of_Array_sort.
  - rewrite (bool_decide_eq_false_2 _ Hne). simpl. split_and!.
    + apply Array_sort_sorted.
    + rewrite Array_sort_perm. apply NoDup_Set_of.
    + intros t. by rewrite elem_of_Array_sort, elem_of_Set_of.
    + done.
    + by destruct video.
Qed.

Lemma endsWith_get (s suffix : string) (i : nat) :
  endsWith s suffix = true ->
  (i < String.length suffix)%nat ->
  String.get (String.length s - S i) s
  = String.get (String.length suffix - S i) suffix.
Proof.
  unfold endsWith. intros [Hlen Heq]%andb_true_iff Hi.
  apply Nat.leb_le in Hlen. apply String.eqb_eq in Heq.
  rewrite <- Heq at 2.
  rewrite substring_correct1 by lia. f_equal. lia.
Qed.

Lemma lower_ascii_dot (c : ascii) :
  Ascii.eqb (lower_ascii c) "."%char = Ascii.eqb c "."%char.
Proof. destruct c as [[] [] [] [] [] [] [] []]; by vm_compute. Qed.

Lemma includesDot_toLowerCase (s : string) :
  includesDot (toLowerCase s) = includesDot s.
Proof. induction s as [|c s IH]; simpl; [done|]. by rewrite lower_ascii_dot, IH. Qed.

Lemma includesDot_get (s : string) (i : nat) :
  String.get i s = Some "."%char -> includesDot s = true.
Proof.
  revert i. induction s as [|c s IH]; intros i; simpl; [done|].
  destruct i as [|i].
  - intros [= ->]. done.
  - intros H. rewrite (IH _ H). apply orb_true_r.
Qed.

(** What the name of a file the transcoder accepts rules out. *)
Lemma transcodable_suffixes (name : string) :
  transcodeService.isTranscodable name = true ->
  endsWith (toLowerCase name) ".mp4" = false
  /\ endsWith (toLowerCase name) ".ogv" = false
  /\ endsWith (toLowerCase name) ".jpg" = false
  /\ includesDot name = true.
Proof.
  intros Ht.
  set (s := toLowerCase name) in *.
  assert (Hends : forall suffix c1 c0,
             endsWith s suffix = true ->
             (2 <= String.length suffix)%nat ->
             String.get (String.length suffix - 2) suffix = Some c1 ->
             String.get 0 suffix = Some c0 ->
             String.get (String.length s - 2) s = Some c1
             /\ String.get (String.length s - String.length suffix) s = Some c0).
  { intros suffix c1 c0 He Hlen H1 H0. split.
    - rewrite (endsWith_get s suffix 1 He) by lia. done.
    - pose proof (endsWith_get s suffix (String.length suffix - 1) He ltac:(lia)) as H.
      replace (String.length s - S (String.length suffix - 1))%nat
        with (String.length s - String.length suffix)%nat in H by lia.
      replace (String.length suffix - S (String.length suffix - 1))%nat with 0%nat in H by lia.
      by rewrite H. }
  assert (Hs : exists c1,
             String.get (String.length s - 2) s = Some c1
             /\ c1 <> "p"%char /\ c1 <> "g"%char
             /\ includesDot s = true).
  { unfold transcodeService.isTranscodable in Ht. fold s in Ht.
    apply existsb_exists in Ht as (ext & Hext & Ht).
    unfold transcodeService.TRANSCODABLE_EXTENSIONS in Hext. simpl in Hext.
    destruct Hext as [<-|[<-|[<-|[<-|[<-|[<-|[]]]]]]];
      (match type of Ht with
       | endsWith s ?ext = true =>
           pose proof (Hends ext _ _ Ht ltac:(simpl; lia) eq_refl eq_refl) as [H1 H0]
       end;
       eexists; split_and!; [exact H1 | done | done | by eapply includesDot_get]). }
  destruct Hs as (c1 & Hc1 & Hp & Hg & Hdot).
  assert (Hnot : forall suffix c,
             (2 <= String.length suffix)%nat ->
             String.get (String.length suffix - 2) suffix = Some c ->
             (c = "p"%char \/ c = "g"%char) ->
             endsWith s suffix = false).
  { intros suffix c Hlen Hc Hpg. destruct (endsWith s suffix) eqn:He; [|done].
    pose proof (endsWith_get s suffix 1 He ltac:(lia)) as H.
    rewrite Hc1, Hc in H. injection H as ->. tauto. }
  split_and!.
  - apply (Hnot ".mp4" "p"%char); [simpl; lia | done | tauto].
  - apply (Hnot ".ogv" "g"%char); [simpl; lia | done | tauto].
  - apply (Hnot ".jpg" "p"%char); [simpl; lia | done | tauto].
  - subst s. by rewrite includesDot_toLowerCase in Hdot.
Qed.

(** X27. A file the transcoder accepts is never playable as it is: its
    name has a dot and ends neither in [.mp4] nor in [.ogv] nor in [.jpg], so
    the scan records it as not playable, with the description of an
    incompatible format. *)
Theorem transcodable_is_recorded_incompatible :
  forall (f : File.t),
    transcodeService.isTranscodable (File.name f) = true ->
    Sync.isNativelyPlayable f = false
    /\ Sync.isJpg f = false
    /\ forall (existingVideo : option VideoData) (randomUUID : string) (DateNow : Z)
              (path : string),
         let x := Sync.videoData existingVideo randomUUID DateNow path f in
         isPlayable x = false /\ description x = "Incompatible file format.".
Proof.
  intros f Ht.
  destruct (transcodable_suffixes _ Ht) as (Hmp4 & Hogv & Hjpg & Hdot).
  assert (Hplay : Sync.isNativelyPlayable f = false).
  { unfold Sync.isNativelyPlayable, Sync.playableExtensions. simpl.
    by rewrite Hmp4, Hogv, Hdot. }
  split_and!; [done | done |].
  intros o u n p x. subst x. simpl. unfold Sync.isJpg. by rewrite Hplay, Hjpg.
Qed.

Lemma transcodable_is_recorded_incompatible_witness :
  let f := Sample.file "clips/Holiday.MKV" "Holiday.MKV" 1 in
  Sync.isNativelyPlayable f = false /\ Sync.isJpg f = false.
Proof.
  intros f.
  destruct (transcodable_is_recorded_incompatible f) as (H1 & H2 & _); [by vm_compute|].
  by split.
Defined.

End TagFacts.

Section TranscodedFacts.
Import dbService App.

Lemma elem_of_transcodedToUpdate vs x :
  x ∈ transcodedToUpdate vs ->
  exists v mp4,
    v ∈ vs /\ mp4 ∈ vs
    /\ pathWithoutExt mp4 = pathWithoutExt v
    /\ endsWith (toLowerCase (relativePath mp4)) ".mp4" = true
    /\ transcodeService.isTranscodable (relativePath v) = true
    /\ includes "Transcoded" (tags v) = false
    /\ x = with_tags (Array_sort (tags v ++ ["Transcoded"])) v.
Proof.
  unfold transcodedToUpdate. rewrite elem_of_flat_map.
  intros ([k l] & Hin & Hx). simpl in Hx.
  apply elem_of_groupUnder in Hin as [_ Hl].
  assert (Hgroup : forall w, w ∈ l -> w ∈ vs /\ pathWithoutExt w = k).
  { intros w Hw. rewrite Hl in Hw. apply list_elem_of_In, filter_In in Hw as [Hw Hk].
    split; [by apply list_elem_of_In | by apply String.eqb_eq]. }
  destruct (1 <? length l)%nat; [|by apply elem_of_nil in Hx].
  destruct (existsb _ l) eqn:Hmp4; [|by apply elem_of_nil in Hx].
  apply existsb_exists in Hmp4 as (mp4 & Hm%list_elem_of_In & Hext).
  apply elem_of_flat_map in Hx as (v & Hv & Hx).
  destruct (transcodeService.isTranscodable (relativePath v)) eqn:Ht;
    [|by apply elem_of_nil in Hx].
  destruct (includes "Transcoded" (tags v)) eqn:Hinc; [by apply elem_of_nil in Hx|].
  apply list_elem_of_singleton in Hx.
  destruct (Hgroup v Hv) as [Hvs Hkv]. destruct (Hgroup mp4 Hm) as [Hms Hkm].
  exists v, mp4. split_and!; try done. congruence.
Qed.

(** X28. "Find transcoded" tags sources only. Every object the store holds
    afterwards is the one it held before, or a record of the library whose
    path the transcoder accepts, which is therefore not an [.mp4] itself,
    and for which the library has another record with the same path up to
    the extension that is an [.mp4]; it is stored with the tag [Transcoded]
    added to its tags, in sorted order, and nothing else of it differs.
    Thumbnails and edit history are not touched. *)
Theorem find_transcoded_tags_sources_only :
  forall st,
    let st' := handleFindTranscoded st in
    (forall k s',
        VIDEOS (database st') !! k = Some s' ->
        VIDEOS (database st) !! k = Some s'
        \/ exists v mp4,
             v ∈ videos st /\ id v = k /\ mp4 ∈ videos st /\ mp4 <> v
             /\ pathWithoutExt mp4 = pathWithoutExt v
             /\ endsWith (toLowerCase (relativePath mp4)) ".mp4" = true
             /\ endsWith (toLowerCase (relativePath v)) ".mp4" = false
             /\ transcodeService.isTranscodable (relativePath v) = true
             /\ ("Transcoded" ∉ tags v)
             /\ tags s' ≡ₚ "Transcoded" :: tags v
             /\ Sorted (fun a b => String.leb a b = true) (tags s')
             /\ with_tags (tags v) s' = videoMetadata v)
    /\ MAIN_THUMBNAILS (database st') = MAIN_THUMBNAILS (database st)
    /\ TIMELINE_THUMBNAILS (database st') = TIMELINE_THUMBNAILS (database st)
    /\ undoStack st' = undoStack st /\ redoStack st' = redoStack st.
Proof.
  intros st st'. subst st'. unfold handleFindTranscoded.
  destruct (transcodedToUpdate (videos st)) as [|x0 l0] eqn:Hb.
  - simpl. split_and!; try done. intros k s' Hk. by left.
  - rewrite <- Hb. simpl. split_and!; try done. intros k s' Hk.
    destruct (put_all_lookup _ _ _ _ Hk) as [(x & Hx & Hxk & ->)|[Hs _]]; [|by left].
    right. apply elem_of_transcodedToUpdate in Hx
      as (v & mp4 & Hv & Hm & Hkey & Hext & Ht & Hinc & ->).
    destruct (transcodable_suffixes _ Ht) as (Hnot & _).
    exists v, mp4. split_and!; try done.
    + intros ->. congruence.
    + unfold includes in Hinc. by apply bool_decide_eq_false_1 in Hinc.
    + simpl. rewrite Array_sort_perm. by rewrite Permutation_app_comm.
    + simpl. apply Array_sort_sorted.
Qed.

End TranscodedFacts.

(** ** The edit history is a stack *)

Section HistoryStack.
Import dbService App.

(** X29. Two updates that both commit, undone and redone. The first undo
    gives back the library and the undo stack of between the two updates,
    the second those of before the first; the two redos then restore the
    library after the first and after the second update, and leave the redo
    stack empty and the undo stack as the two updates had left it. The
    library has no identifier twice and each update is applied to displayed
    records of the library it finds. *)
Theorem undo_is_last_in_first_out :
  forall (displayed1 displayed2 : list VideoData) (u1 u2 : VideoData) (st : State),
    NoDup (map id (videos st)) ->
    displayed1 ⊆ videos st ->
    let st1 := handleUpdateVideo displayed1 u1 st in
    displayed2 ⊆ videos st1 ->
    let st2 := handleUpdateVideo displayed2 u2 st1 in
    length (undoStack st2) = S (S (length (undoStack st))) ->
    let st3 := handleUndo st2 in
    let st4 := handleUndo st3 in
    let st5 := handleRedo st4 in
    let st6 := handleRedo st5 in
    videos st3 = videos st1 /\ undoStack st3 = undoStack st1
    /\ videos st4 = videos st /\ undoStack st4 = undoStack st
    /\ length (redoStack st4) = 2%nat
    /\ videos st5 = videos st1 /\ undoStack st5 = undoStack st1
    /\ videos st6 = videos st2 /\ undoStack st6 = undoStack st2
    /\ redoStack st6 = [].
Proof.
  intros displayed1 displayed2 u1 u2 st Hnd Hsub1 st1 Hsub2 st2 Hlen st3 st4 st5 st6.
  pose proof (handleUpdateVideo_cases displayed1 u1 st Hnd Hsub1) as Hc1.
  fold st1 in Hc1.
  destruct Hc1
    as [(Hu1 & _ & Hv1)|(T1 & g1 & HT1 & Hne1 & Hg1 & Hundo1 & Hredo1 & Hvs1 & _)].
  { (* the first update commits nothing: the stack cannot grow by two *)
    exfalso.
    assert (Hnd1 : NoDup (map id (videos st1))) by (by rewrite Hv1).
    pose proof (handleUpdateVideo_cases displayed2 u2 st1 Hnd1 Hsub2) as Hc2.
    fold st2 in Hc2.
    destruct Hc2 as [(Hu2 & _)|(T2 & g2 & _ & _ & _ & Hundo2 & _)].
    - rewrite Hu2, Hu1 in Hlen. lia.
    - rewrite Hundo2, length_app, Hu1 in Hlen. simpl in Hlen. lia. }
  set (k1 := fun v => if decide (v ∈ T1) then g1 v else v) in *.
  assert (Hk1 : forall v, v ∈ videos st -> id (k1 v) = id v).
  { intros v _. unfold k1. destruct (decide (v ∈ T1)); [by apply Hg1 | done]. }
  assert (Hids1 : map id (videos st1) = map id (videos st)).
  { rewrite Hvs1, map_map. apply map_ext_in. intros v Hv%list_elem_of_In. by apply Hk1. }
  assert (Hnd1 : NoDup (map id (videos st1))) by (by rewrite Hids1).
  pose proof (handleUpdateVideo_cases displayed2 u2 st1 Hnd1 Hsub2) as Hc2.
  fold st2 in Hc2.
  destruct Hc2
    as [(Hu2 & _)|(T2 & g2 & HT2 & Hne2 & Hg2 & Hundo2 & Hredo2 & Hvs2 & _)].
  { exfalso. rewrite Hu2, Hundo1, length_app in Hlen. simpl in Hlen. lia. }
  set (k2 := fun v => if decide (v ∈ T2) then g2 v else v) in *.
  assert (Hk2 : forall v, v ∈ videos st1 -> id (k2 v) = id v).
  { intros v _. unfold k2. destruct (decide (v ∈ T2)); [by apply Hg2 | done]. }
  (* first undo *)
  destruct (handleUndo_batch st2 (videos st1) T2 k2 (fun t => t) (undoStack st1)
              Hnd1 HT2 Hne2 Hk2 Hvs2 Hundo2) as (Hvs3 & Hundo3 & Hredo3 & _).
  fold st3 in Hvs3, Hundo3, Hredo3.
  assert (Hvs3' : videos st3 = videos st1).
  { rewrite Hvs3. rewrite <- (map_id (videos st1)) at 2. apply map_ext.
    intros v. unfold k2. by destruct (decide (v ∈ T2)). }
  (* second undo *)
  assert (Hvs3'' : videos st3 = map k1 (videos st)) by (by rewrite Hvs3').
  assert (Hundo3' : undoStack st3
                    = (undoStack st ++ [map (fun t => {| videoId := id t; state := t |}) T1])%list)
    by (by rewrite Hundo3).
  destruct (handleUndo_batch st3 (videos st) T1 k1 (fun t => t) (undoStack st)
              Hnd HT1 Hne1 Hk1 Hvs3'' Hundo3') as (Hvs4 & Hundo4 & Hredo4 & _).
  fold st4 in Hvs4, Hundo4, Hredo4.
  assert (Hvs4' : videos st4 = videos st).
  { rewrite Hvs4. rewrite <- (map_id (videos st)) at 2. apply map_ext.
    intros v. unfold k1. by destruct (decide (v ∈ T1)). }
  assert (Hredo4' : redoStack st4
                    = ([map (fun t => {| videoId := id t; state := k2 t |}) T2]
                       ++ [map (fun t => {| videoId := id t; state := k1 t |}) T1])%list)
    by (by rewrite Hredo4, Hredo3, Hredo2).
  (* first redo *)
  assert (Hvs4'' : videos st4 = map (fun x => x) (videos st)) by (by rewrite map_id).
  destruct (handleRedo_batch st4 (videos st) T1 (fun x => x) k1
              [map (fun t => {| videoId := id t; state := k2 t |}) T2]
              Hnd HT1 Hne1 (fun _ _ => eq_refl) Hvs4'' Hredo4')
    as (Hvs5 & Hredo5 & Hundo5 & _).
  fold st5 in Hvs5, Hredo5, Hundo5.
  assert (Hvs5' : videos st5 = videos st1).
  { rewrite Hvs5, Hvs1. apply map_ext. intros v. unfold k1.
    by destruct (decide (v ∈ T1)). }
  assert (Hundo5' : undoStack st5 = undoStack st1) by (by rewrite Hundo5, Hundo4, Hundo1).
  (* second redo *)
  assert (Hvs5'' : videos st5 = map (fun x => x) (videos st1)) by (by rewrite map_id).
  assert (Hredo5' : redoStack st5
                    = ([] ++ [map (fun t => {| videoId := id t; state := k2 t |}) T2])%list)
    by (by rewrite Hredo5).
  destruct (handleRedo_batch st5 (videos st1) T2 (fun x => x) k2 []
              Hnd1 HT2 Hne2 (fun _ _ => eq_refl) Hvs5'' Hredo5')
    as (Hvs6 & Hredo6 & Hundo6 & _).
  fold st6 in Hvs6, Hredo6, Hundo6.
  split_and!; try done.
  - by rewrite Hredo4'.
  - rewrite Hvs6, Hvs2. apply map_ext. intros v. unfold k2.
    by destruct (decide (v ∈ T2)).
  - by rewrite Hundo6, Hundo5', Hundo2.
Qed.

Lemma undo_is_last_in_first_out_witness :
  let a := Sample.video "a" "clips/a.mp4" in
  let b := Sample.video "b" "clips/b.mp4" in
  let st := Sample.state [a; b] in
  let st2 := handleUpdateVideo [] (with_rating 1 b) (handleUpdateVideo [] (with_rating 5 a) st) in
  videos st2 = [with_rating 5 a; with_rating 1 b]
  /\ videos (handleUndo st2) = [with_rating 5 a; b]
  /\ videos (handleUndo (handleUndo st2)) = [a; b].
Proof.
  intros a b st st2.
  destruct (undo_is_last_in_first_out [] [] (with_rating 5 a) (with_rating 1 b) st)
    as (H3 & _ & H4 & _).
  - by_evaluation.
  - by intros x Hx%elem_of_nil.
  - by intros x Hx%elem_of_nil.
  - by vm_compute.
  - split_and!; [by vm_compute | | exact H4].
    fold st2 in H3. rewrite H3. by vm_compute.
Defined.

End HistoryStack.

(** ** Writing back what was loaded *)

Section WriteBack.
Import dbService.

Lemma or_number_idem x y : or_number (or_number x y) y = or_number x y.
Proof. unfold or_number. destruct (Z.eqb_spec x 0); [by destruct (y =? 0)|]. by destruct (Z.eqb_spec x 0). Qed.

Lemma applyVideoDefaults_loaded s :
  applyVideoDefaults (videoMetadata (applyVideoDefaults s)) = applyVideoDefaults s.
Proof.
  destruct s. unfold applyVideoDefaults, videoMetadata. cbn.
  by rewrite or_number_idem, or_null_idem.
Qed.

(** X30. Writing a record back as it was loaded changes nothing. A record
    the library loaded from the store reads back as itself after it is
    stored, the library an update of it leaves is the library of before, up
    to the order in which the store lists its objects, and the update touches
    neither thumbnail store. The store is keyed by identifier. *)
Theorem write_back_of_loaded_record_is_stable :
  forall (d : db) (v : VideoData),
    map_Forall (fun k s => id s = k) (VIDEOS d) ->
    v ∈ getAllVideos d ->
    applyVideoDefaults (videoMetadata v) = v
    /\ getAllVideos (updateVideo v d) ≡ₚ getAllVideos d
    /\ MAIN_THUMBNAILS (updateVideo v d) = MAIN_THUMBNAILS d
    /\ TIMELINE_THUMBNAILS (updateVideo v d) = TIMELINE_THUMBNAILS d.
Proof.
  intros d v Hkey (k & s & Hk & ->)%elem_of_getAllVideos.
  pose proof (Hkey _ _ Hk) as Hid. simpl in Hid.
  split_and!; [apply applyVideoDefaults_loaded | | done | done].
  unfold getAllVideos, updateVideo, upsertVideo. simpl.
  rewrite Hid, !map_fmap, <- insert_delete_eq.
  rewrite map_to_list_insert by apply lookup_delete_eq.
  rewrite <- (map_to_list_delete (VIDEOS d) k s Hk).
  rewrite !fmap_cons. simpl. f_equiv. apply applyVideoDefaults_loaded.
Qed.

Lemma write_back_of_loaded_record_is_stable_witness :
  let d := Sample.store [Sample.cat; Sample.video "b" "clips/b.mp4"] in
  getAllVideos (updateVideo Sample.cat d) ≡ₚ getAllVideos d.
Proof.
  intros d.
  destruct (write_back_of_loaded_record_is_stable d Sample.cat) as (_ & H & _).
  - by_evaluation.
  - by_evaluation.
  - exact H.
Defined.

End WriteBack.
